(** * Signalling relay and client orchestrator: a shallow embedding

    The development follows the sources of the repository:

    - [signal_server.js], the relay: credential cache, rate limiter, room
      registry and the per-connection [message] and [close] handlers
      (module [Relay]);
    - the older relay that is appended to the client file (module
      [OldRelay]);
    - [multiplayer/signaling.js], the browser side: the session maps and the
      handler of signalling messages (module [Client]).

    JavaScript data is kept as the code has it: strings are sequences of
    UTF-16 code units, parsed JSON is a tree whose objects keep their
    properties in order, a [Map] from room identifier to a [Set] of sockets
    is a finite map to a duplicate-free list in insertion order, and the
    mutable fields of a socket live in a store indexed by connection. *)

From Stdlib Require Import ZArith NArith String Ascii PrimFloat.
From stdpp Require Import base option list gmap fin_maps numbers.

Set Warnings "-register-all,-clear-no-such-hyp".
Local Open Scope Z_scope.

(** ** JavaScript values *)

(** A JavaScript string: its UTF-16 code units. *)
Abbreviation jsstring := (list N) (only parsing).

(** A string literal of the source (all of them are ASCII). *)
Fixpoint js (s : string) : jsstring :=
  match s with
  | EmptyString => []
  | String a r => N_of_ascii a :: js r
  end.

(** What [JSON.parse] returns, and what is handed to [JSON.stringify].
    [JUndef] is the value of a property that is missing; an object lists its
    own properties in their enumeration order. *)
Inductive jsval :=
| JUndef
| JNull
| JBool (b : bool)
| JNum (x : float)
| JStr (s : jsstring)
| JArr (items : list jsval)
| JObj (props : list (jsstring * jsval)).

(** [ToBoolean]: what [if (v)] and [v && ...] test. *)
Definition truthy (v : jsval) : bool :=
  match v with
  | JUndef | JNull => false
  | JBool b => b
  | JNum x => negb (PrimFloat.eqb x 0%float || PrimFloat.is_nan x)
  | JStr s => negb (bool_decide (s = []))
  | JArr _ | JObj _ => true
  end.

(** Own-property lookup in a property list. *)
Fixpoint obj_get (k : jsstring) (ps : list (jsstring * jsval)) : option jsval :=
  match ps with
  | [] => None
  | (k', v) :: r => if decide (k' = k) then Some v else obj_get k r
  end.

(** [{...o, k: v}]: an existing property keeps its place and takes the new
    value, a new one goes last. *)
Fixpoint obj_set (k : jsstring) (v : jsval) (ps : list (jsstring * jsval))
  : list (jsstring * jsval) :=
  match ps with
  | [] => [(k, v)]
  | (k', v') :: r =>
      if decide (k' = k) then (k, v) :: r else (k', v') :: obj_set k v r
  end.

(** The result of evaluating [m.k]: reading a property of [null] (or
    [undefined]) raises a TypeError, primitives and arrays have none of the
    property names the handlers read, an object answers from its own
    properties. *)
Inductive access := Raises | Value (v : jsval).

Definition prop (k : jsstring) (m : jsval) : access :=
  match m with
  | JUndef | JNull => Raises
  | JObj ps => Value (default JUndef (obj_get k ps))
  | _ => Value JUndef
  end.

(** [Array.isArray(v) && v.length > 0] *)
Definition nonempty_array (v : jsval) : bool :=
  match v with
  | JArr (_ :: _) => true
  | _ => false
  end.

(** A [Set] of sockets, in insertion order. *)
Definition set_add {A} `{EqDecision A} (x : A) (s : list A) : list A :=
  if decide (x ∈ s) then s else s ++ [x].

Definition set_delete {A} `{EqDecision A} (x : A) (s : list A) : list A :=
  filter (λ y, y ≠ x) s.

(** ** Signalling messages *)

(** A connection is named by its position in the store of sockets. *)
Abbreviation conn := nat (only parsing).

(** One [peer.send(JSON.stringify(payload))]: the receiving connection and
    the value that is serialised. *)
Definition sent := (conn * jsval)%type.

Definition is_str (s : jsstring) (v : jsval) : bool :=
  match v with
  | JStr s' => bool_decide (s' = s)
  | _ => false
  end.

Definition msg_of_type (t : string) : list (jsstring * jsval) :=
  [(js "type", JStr (js t))].

Definition PEER_JOINED (peerId : jsstring) : jsval :=
  JObj (msg_of_type "PEER_JOINED" ++ [(js "peerId", JStr peerId)]).

(** The own properties that [{...msg}] copies; a message whose [type] is a
    string is an object. *)
Definition own_props (m : jsval) : list (jsstring * jsval) :=
  match m with
  | JObj ps => ps
  | _ => []
  end.

(** [m.k] for a message [m] that is not [null]. *)
Definition field (k : string) (m : jsval) : jsval :=
  default JUndef (obj_get (js k) (own_props m)).

(** [['OFFER', 'ANSWER', 'ICE_CANDIDATE'].includes(t)] *)
Definition relayed_type (t : jsval) : bool :=
  is_str (js "OFFER") t || is_str (js "ANSWER") t || is_str (js "ICE_CANDIDATE") t.

(** How a handler ends: it returns, or an exception leaves it. *)
Inductive completion := Returns | Throws.

Lemma is_str_refl s : is_str s (JStr s) = true.
Proof. simpl. by apply bool_decide_eq_true. Qed.

(** ** The relay: [signal_server.js] *)

Module Relay.

(** *** Limits *)

Definition MAX_ROOM_SIZE : nat := 8.
Definition MAX_ROOM_ID_LEN : nat := 64.
Definition RATE_LIMIT_WINDOW : Z := 1000.
Definition RATE_LIMIT_MAX_MSG : Z := 30.

(** *** Helpers *)

(** The complement of the class [[^a-zA-Z0-9_-]]. *)
Definition safe_char (c : N) : bool :=
  ((97 <=? c) && (c <=? 122) || (65 <=? c) && (c <=? 90)
   || (48 <=? c) && (c <=? 57) || (c =? 95) || (c =? 45))%N.

Definition sanitiseRoomId (raw : jsval) : jsstring :=
  match raw with
  | JStr s => take MAX_ROOM_ID_LEN (filter (λ c, safe_char c = true) s)
  | _ => []
  end.

(** *** Sockets and the process state *)

(** The mutable state hanging off one accepted socket: the fields the
    handlers write on [ws], the library's [readyState]
    (0 CONNECTING, 1 OPEN, 2 CLOSING, 3 CLOSED) and the [currentRoom]
    variable captured by the handlers of that connection ([None] is
    [null], for [_peerId] it is [undefined]). *)
Record socket := Socket {
  _peerId : option jsstring;
  _rateBucketStart : Z;
  _rateBucketCount : Z;
  readyState : Z;
  currentRoom : option jsstring
}.

Record server := Server {
  _cachedIceServers : jsval;
  rooms : gmap jsstring (list conn);
  socks : list socket
}.

Definition with_cache (v : jsval) (st : server) : server :=
  Server v (rooms st) (socks st).
Definition with_rooms (m : gmap jsstring (list conn)) (st : server) : server :=
  Server (_cachedIceServers st) m (socks st).
Definition with_sock (c : conn) (ws : socket) (st : server) : server :=
  Server (_cachedIceServers st) (rooms st) (<[c := ws]> (socks st)).

(** *** Credential cache *)

(** How one request to the credential provider ends: the request emits
    [error], or the response ends and its body is handed to [JSON.parse]
    ([None] when that throws). *)
Inductive fetch_result :=
| RequestError
| ResponseEnd (parsed : option jsval).

Definition fetchIceServers (r : fetch_result) (st : server) : server :=
  match r with
  | ResponseEnd (Some servers) =>
      if nonempty_array servers then with_cache servers st else st
  | _ => st
  end.

(** A fetch that stores its result. *)
Definition fetch_succeeds (r : fetch_result) : bool :=
  match r with
  | ResponseEnd (Some v) => nonempty_array v
  | _ => false
  end.

(** *** Rate limiter *)

(** [now] is what [Date.now()] returns. Times and counts are integers far
    below 2^53, where JavaScript numbers are exact. *)
Definition rateAllow (now : Z) (ws : socket) : socket * bool :=
  let fresh := bool_decide (now - _rateBucketStart ws > RATE_LIMIT_WINDOW) in
  let start := if fresh then now else _rateBucketStart ws in
  let count := (if fresh then 0 else _rateBucketCount ws) + 1 in
  (Socket (_peerId ws) start count (readyState ws) (currentRoom ws),
   bool_decide (count <= RATE_LIMIT_MAX_MSG)).

(** *** Messages *)

Definition ROOM_FULL : jsval := JObj (msg_of_type "ROOM_FULL").

Definition ASSIGNED_PEER_ID (peerId : jsstring) (iceServers : jsval) : jsval :=
  JObj (msg_of_type "ASSIGNED_PEER_ID"
        ++ [(js "peerId", JStr peerId); (js "iceServers", iceServers)]).

(** [peer.readyState === 1] *)
Definition writable (st : server) (p : conn) : Prop :=
  readyState <$> socks st !! p = Some 1.

#[global] Instance writable_dec st p : Decision (writable st p).
Proof. unfold writable. apply _. Defined.

(** [for (const peer of room) if (peer !== ws && peer.readyState === 1)
    peer.send(JSON.stringify(payload))] *)
Definition fan_out (st : server) (c : conn) (room : list conn) (payload : jsval)
  : list sent :=
  (λ p, (p, payload)) <$> filter (λ p, p ≠ c ∧ writable st p) room.

(** [currentRoom] used as a condition: [null] and [''] are falsy. *)
Definition joined (ws : socket) : option jsstring :=
  match currentRoom ws with
  | Some (u :: r) => Some (u :: r)
  | _ => None
  end.

(** The value of [ws._peerId] as a property value. *)
Definition peerId_value (ws : socket) : jsval :=
  from_option JStr JUndef (_peerId ws).

(** [existingRoom && existingRoom.size >= MAX_ROOM_SIZE] *)
Definition at_capacity (existingRoom : option (list conn)) : bool :=
  match existingRoom with
  | Some s => bool_decide (MAX_ROOM_SIZE ≤ length s)%nat
  | None => false
  end.

(** The members of a room, none when the registry has no such room. *)
Definition members (st : server) (r : jsstring) : list conn :=
  default [] (rooms st !! r).

(** The end of the [JOIN_ROOM] branch, for a join that is let into the room
    [roomId]: the socket enters the room's set (made if missing) and takes
    the room as [currentRoom] and [uuid] as [_peerId]; it is sent
    [ASSIGNED_PEER_ID], the other open members [PEER_JOINED]. *)
Definition admitted (st : server) (c : conn) (ws : socket) (roomId uuid : jsstring)
  : server * list sent :=
  let members := set_add c (members st roomId) in
  let ws' := Socket (Some uuid) (_rateBucketStart ws) (_rateBucketCount ws)
                    (readyState ws) (Some roomId) in
  let st' := with_sock c ws' (with_rooms (<[roomId := members]> (rooms st)) st) in
  (st', (c, ASSIGNED_PEER_ID uuid (_cachedIceServers st))
        :: fan_out st' c members (PEER_JOINED uuid)).

(** The [JOIN_ROOM] branch. [uuid] is what [randomUUID()] returns if it is
    called. *)
Definition join_room (st : server) (c : conn) (ws : socket) (raw : jsval)
    (uuid : jsstring) : server * list sent :=
  let roomId := sanitiseRoomId raw in
  if decide (roomId = []) then (st, []) else
  let existingRoom := rooms st !! roomId in
  if at_capacity existingRoom then (st, [(c, ROOM_FULL)]) else
  admitted st c ws roomId uuid.

(** The relay branch, after the [JOIN_ROOM] test. *)
Definition relay (st : server) (c : conn) (ws : socket) (msg type : jsval)
  : list sent :=
  match joined ws with
  | None => []
  | Some r =>
      if relayed_type type then
        match rooms st !! r with
        | None => []
        | Some room =>
            fan_out st c room
              (JObj (obj_set (js "peerId") (peerId_value ws) (own_props msg)))
        end
      else []
  end.

(** The body of the [message] handler once the rate limiter has let the
    message in: [parsed] is the result of [JSON.parse(raw)], [None] when it
    throws. *)
Definition dispatch (st : server) (c : conn) (ws : socket)
    (parsed : option jsval) (uuid : jsstring) : server * list sent * completion :=
  match parsed with
  | None => (st, [], Returns)
  | Some msg =>
      match prop (js "type") msg with
      | Raises => (st, [], Throws)
      | Value type =>
          if is_str (js "JOIN_ROOM") type then
            match prop (js "roomId") msg with
            | Raises => (st, [], Throws)
            | Value raw => (join_room st c ws raw uuid, Returns)
            end
          else (st, relay st c ws msg type, Returns)
      end
  end.

(** The state once [rateAllow(ws)] has run for a message of [c]. *)
Definition counted (st : server) (c : conn) (now : Z) : server :=
  match socks st !! c with
  | None => st
  | Some ws => with_sock c (rateAllow now ws).1 st
  end.

(** [ws.on('message', ...)] for the socket [c], at time [now]. *)
Definition on_message (st : server) (c : conn) (now : Z)
    (parsed : option jsval) (uuid : jsstring) : server * list sent * completion :=
  match socks st !! c with
  | None => (st, [], Returns)
  | Some ws =>
      let '(ws', allowed) := rateAllow now ws in
      let st' := with_sock c ws' st in
      if allowed then dispatch st' c ws' parsed uuid else (st', [], Returns)
  end.

(** [ws.on('close', ...)] *)
Definition on_close (st : server) (c : conn) : server :=
  match socks st !! c with
  | None => st
  | Some ws =>
      match joined ws with
      | None => st
      | Some r =>
          match rooms st !! r with
          | None => st
          | Some room =>
              let room' := set_delete c room in
              if decide (length room' = 0%nat)
              then with_rooms (delete r (rooms st)) st
              else with_rooms (<[r := room']> (rooms st)) st
          end
      end
  end.

(** [wss.on('connection', ...)]: a new socket, open, with a fresh bucket. *)
Definition on_connection (st : server) (now : Z) : server :=
  Server (_cachedIceServers st) (rooms st)
         (socks st ++ [Socket None now 0 1 None]).

(** The library moves [readyState]. *)
Definition set_readyState (st : server) (c : conn) (v : Z) : server :=
  match socks st !! c with
  | None => st
  | Some ws =>
      with_sock c (Socket (_peerId ws) (_rateBucketStart ws)
                          (_rateBucketCount ws) v (currentRoom ws)) st
  end.

(** *** The process as a transition system *)

Inductive event :=
| Connection (now : Z)
| Message (c : conn) (now : Z) (parsed : option jsval) (uuid : jsstring)
| ReadyState (c : conn) (v : Z)
| Close (c : conn)
| Fetched (r : fetch_result).

Definition step (st : server) (e : event) : server * list sent :=
  match e with
  | Connection now => (on_connection st now, [])
  | Message c now parsed uuid => (on_message st c now parsed uuid).1
  | ReadyState c v => (set_readyState st c v, [])
  | Close c => (on_close (set_readyState st c 3) c, [])
  | Fetched r => (fetchIceServers r st, [])
  end.

Fixpoint run (st : server) (es : list event) : server * list sent :=
  match es with
  | [] => (st, [])
  | e :: es' =>
      let '(st1, out1) := step st e in
      let '(st2, out2) := run st1 es' in
      (st2, out1 ++ out2)
  end.

Definition initial : server := Server (JArr []) ∅ [].

Definition reachable (st : server) : Prop :=
  ∃ es, (run initial es).1 = st.

(** The permitted alphabet of a room identifier, spelled out. *)
Definition alphabet : jsstring :=
  js "abcdefghijklmnopqrstuvwxyzABCDEFGHIJKLMNOPQRSTUVWXYZ0123456789_-".

(** The verdicts of the limiter for messages arriving at the times [ts]. *)
Fixpoint flood (ws : socket) (ts : list Z) : list bool :=
  match ts with
  | [] => []
  | t :: ts' => (rateAllow t ws).2 :: flood (rateAllow t ws).1 ts'
  end.

(** Two property lists with the same names in the same order, and the
    same values except under [peerId]. *)
Definition same_but_peerId (ps1 ps2 : list (jsstring * jsval)) : Prop :=
  Forall2 (λ a b, a.1 = b.1 ∧ (a.1 ≠ js "peerId" → a.2 = b.2)) ps1 ps2.

(** Sample messages and identifiers for the worked runs. *)
Definition join_msg (room : string) : jsval :=
  JObj [(js "type", JStr (js "JOIN_ROOM")); (js "roomId", JStr (js room))].

Definition offer_props (claimed : string) : list (jsstring * jsval) :=
  [(js "type", JStr (js "OFFER")); (js "peerId", JStr (js claimed));
   (js "sdp", JStr (js "v=0"))].

Definition offer_msg (claimed : string) : jsval := JObj (offer_props claimed).

(** Nine connections, the first eight of which join the room [abc]. *)
Definition crowd : list event :=
  repeat (Connection 0) 9
  ++ ((λ c, Message c 1 (Some (join_msg "abc")) (js "id-" ++ [48 + N.of_nat c]%N))
      <$> seq 0 8).

(** Two connections in the room [abc]. *)
Definition pair : list event :=
  [Connection 0; Connection 0;
   Message 0 1 (Some (join_msg "abc")) (js "id-0");
   Message 1 2 (Some (join_msg "abc")) (js "id-1")].

(** The state apart from the buckets of the rate limiter. *)
Definition registry (st : server) :=
  (_cachedIceServers st, rooms st,
   (λ ws, (_peerId ws, readyState ws, currentRoom ws)) <$> socks st).

(** The message [msg] with the sender's identifier written over [peerId]. *)
Definition stamped (ws : socket) (ps : list (jsstring * jsval)) : jsval :=
  JObj (obj_set (js "peerId") (peerId_value ws) ps).

(** What every reachable state satisfies (see [reachable_inv]). *)
Record inv (st : server) : Prop := {
  inv_rooms : ∀ r s, rooms st !! r = Some s →
    r ≠ [] ∧ s ≠ [] ∧ NoDup s ∧ (length s ≤ MAX_ROOM_SIZE)%nat;
  inv_socks : ∀ c ws r, socks st !! c = Some ws → currentRoom ws = Some r →
    r ≠ [] ∧ is_Some (_peerId ws)
}.

(** A credential list as the provider returns it. *)
Definition turn_servers : jsval :=
  JArr [JObj [(js "urls", JStr (js "turn:relay.example:3478"))]].

(** [c] is an open socket with the identifier [id] that joined [room] and
    is listed there. *)
Definition open_member (st : server) (c : conn) (ws : socket) (id room : jsstring)
  : Prop :=
  socks st !! c = Some ws ∧ _peerId ws = Some id ∧ joined ws = Some room
  ∧ c ∈ members st room ∧ readyState ws = 1.

(** A parsed message that the [JOIN_ROOM] test lets pass. *)
Definition not_a_join (parsed : option jsval) : Prop :=
  ∀ msg type, parsed = Some msg → prop (js "type") msg = Value type →
    is_str (js "JOIN_ROOM") type = false.

(** A parsed message that neither branch of the handler takes. *)
Definition ignored (parsed : option jsval) : Prop :=
  ∀ msg type, parsed = Some msg → prop (js "type") msg = Value type →
    is_str (js "JOIN_ROOM") type = false ∧ relayed_type type = false.

(** The connection an event comes from. *)
Definition event_conn (e : event) : option conn :=
  match e with
  | Message c _ _ _ | ReadyState c _ | Close c => Some c
  | Connection _ | Fetched _ => None
  end.

(** The identifiers that [randomUUID()] stands ready to return, one per
    message of the history. *)
Definition uuids (es : list event) : list jsstring :=
  omap (λ e, match e with Message _ _ _ u => Some u | _ => None end) es.

(** *** Basic facts *)

Lemma set_add_NoDup {A} `{EqDecision A} (x : A) s : NoDup s → NoDup (set_add x s).
Proof.
  intros Hs. unfold set_add. case_decide; [done|].
  apply list.NoDup_app. split_and!; [done| |apply NoDup_singleton].
  intros y Hy ->%list_elem_of_singleton. done.
Qed.

Lemma set_add_elem {A} `{EqDecision A} (x y : A) s :
  y ∈ set_add x s ↔ y = x ∨ y ∈ s.
Proof.
  unfold set_add. case_decide.
  - split; [auto|]. intros [->|]; done.
  - rewrite elem_of_app, list_elem_of_singleton. tauto.
Qed.

Lemma set_add_nonempty {A} `{EqDecision A} (x : A) s : set_add x s ≠ [].
Proof.
  intros Heq. assert (x ∈ set_add x s) as Hx by (apply set_add_elem; auto).
  rewrite Heq in Hx. by apply not_elem_of_nil in Hx.
Qed.

Lemma set_add_length {A} `{EqDecision A} (x : A) s :
  (length (set_add x s) ≤ S (length s))%nat.
Proof.
  unfold set_add. case_decide; [lia|]. rewrite length_app. simpl. lia.
Qed.

Lemma set_add_length_mem {A} `{EqDecision A} (x : A) s :
  x ∈ s → set_add x s = s.
Proof. intros. unfold set_add. by case_decide. Qed.

Lemma set_delete_NoDup {A} `{EqDecision A} (x : A) s :
  NoDup s → NoDup (set_delete x s).
Proof. apply list.NoDup_filter. Qed.

Lemma set_delete_length {A} `{EqDecision A} (x : A) s :
  (length (set_delete x s) ≤ length s)%nat.
Proof. apply length_filter. Qed.

Lemma obj_get_set_eq k v ps : obj_get k (obj_set k v ps) = Some v.
Proof.
  induction ps as [|[k' v'] ps IH]; simpl.
  - by rewrite decide_True.
  - destruct (decide (k' = k)) as [->|Hne]; simpl.
    + by rewrite decide_True.
    + by rewrite decide_False.
Qed.

Lemma obj_get_set_ne k k' v ps :
  k' ≠ k → obj_get k' (obj_set k v ps) = obj_get k' ps.
Proof.
  intros Hne. induction ps as [|[k0 v0] ps IH]; simpl.
  - by rewrite decide_False.
  - destruct (decide (k0 = k)) as [->|Hne0]; simpl.
    + by rewrite !decide_False.
    + by rewrite IH.
Qed.

Lemma run_app st es1 es2 :
  run st (es1 ++ es2) =
  ((run (run st es1).1 es2).1, (run st es1).2 ++ (run (run st es1).1 es2).2).
Proof.
  revert st. induction es1 as [|e es1 IH]; intros st; simpl.
  - by destruct (run st es2).
  - destruct (step st e) as [st1 out1]. rewrite IH.
    destruct (run st1 es1) as [st2 out2]. simpl. by rewrite app_assoc.
Qed.

Lemma run_snoc st es e :
  (run st (es ++ [e])).1 = (step (run st es).1 e).1.
Proof.
  rewrite run_app. simpl. by destruct (step (run st es).1 e).
Qed.

(** Induction over the states the process can be in. *)
Lemma reachable_ind (P : server → Prop) :
  P initial →
  (∀ st e, reachable st → P st → P (step st e).1) →
  ∀ st, reachable st → P st.
Proof.
  intros Hinit Hstep st [es <-].
  induction es as [|e es IH] using rev_ind; [done|].
  rewrite run_snoc. apply Hstep; [by exists es|done].
Qed.

Lemma reachable_step st e : reachable st → reachable (step st e).1.
Proof. intros [es <-]. exists (es ++ [e]). apply run_snoc. Qed.

Lemma on_message_eq st c ws now parsed uuid :
  socks st !! c = Some ws →
  on_message st c now parsed uuid =
  if (rateAllow now ws).2
  then dispatch (counted st c now) c (rateAllow now ws).1 parsed uuid
  else (counted st c now, [], Returns).
Proof. intros Hc. unfold on_message, counted. by rewrite Hc. Qed.

Lemma on_message_absent st c now parsed uuid :
  socks st !! c = None → on_message st c now parsed uuid = (st, [], Returns).
Proof. intros Hc. unfold on_message. by rewrite Hc. Qed.

Lemma with_sock_lookup st c ws c' ws' :
  socks (with_sock c ws st) !! c' = Some ws' ↔
  (c = c' ∧ ws = ws' ∧ is_Some (socks st !! c')) ∨ (c ≠ c' ∧ socks st !! c' = Some ws').
Proof.
  simpl. rewrite list_lookup_insert_Some, lookup_lt_is_Some. naive_solver.
Qed.

Lemma registry_with_sock st c ws ws' :
  socks st !! c = Some ws →
  _peerId ws' = _peerId ws → readyState ws' = readyState ws →
  currentRoom ws' = currentRoom ws →
  registry (with_sock c ws' st) = registry st.
Proof.
  intros Hc H1 H2 H3. unfold registry. simpl. f_equal.
  rewrite list_fmap_insert, H1, H2, H3.
  apply list_insert_id. by rewrite list_lookup_fmap, Hc.
Qed.

Lemma registry_counted st c now : registry (counted st c now) = registry st.
Proof.
  unfold counted. destruct (socks st !! c) as [ws|] eqn:Hc; [|done].
  by apply (registry_with_sock _ _ ws).
Qed.

(** *** What every reachable state satisfies *)

Lemma inv_initial : inv initial.
Proof. split; simpl; intros *; [by rewrite lookup_empty|by rewrite lookup_nil]. Qed.

Lemma inv_with_sock st c ws ws' :
  inv st → socks st !! c = Some ws →
  (∀ r, currentRoom ws' = Some r → r ≠ [] ∧ is_Some (_peerId ws')) →
  inv (with_sock c ws' st).
Proof.
  intros [Hr Hs] Hc Hnew. split; [exact Hr|].
  intros c' w r [(-> & -> & _)|[_ Hc']]%with_sock_lookup; eauto.
Qed.

Lemma inv_counted st c now : inv st → inv (counted st c now).
Proof.
  intros Hinv. unfold counted. destruct (socks st !! c) as [ws|] eqn:Hc; [|done].
  apply (inv_with_sock _ _ ws); [done..|]. simpl. intros r Hr.
  exact (inv_socks _ Hinv _ _ _ Hc Hr).
Qed.

Lemma inv_set_readyState st c v : inv st → inv (set_readyState st c v).
Proof.
  intros Hinv. unfold set_readyState.
  destruct (socks st !! c) as [ws|] eqn:Hc; [|done].
  apply (inv_with_sock _ _ ws); [done..|]. simpl. intros r Hr.
  exact (inv_socks _ Hinv _ _ _ Hc Hr).
Qed.

Lemma inv_on_connection st now : inv st → inv (on_connection st now).
Proof.
  intros [Hr Hs]. split; [exact Hr|]. simpl. intros c ws r Hc.
  apply lookup_app_Some in Hc as [Hc|[_ Hc]]; [by eauto|].
  apply list_lookup_singleton_Some in Hc as [_ <-]. done.
Qed.

Lemma inv_fetchIceServers st r : inv st → inv (fetchIceServers r st).
Proof.
  intros [Hr Hs]. destruct r as [|[v|]]; simpl; try by split.
  destruct (nonempty_array v); by split.
Qed.

Lemma inv_on_close st c : inv st → inv (on_close st c).
Proof.
  intros Hinv. unfold on_close.
  destruct (socks st !! c) as [ws|]; [|done].
  destruct (joined ws) as [r|]; [|done].
  destruct (rooms st !! r) as [room|] eqn:Hroom; [|done].
  destruct (inv_rooms _ Hinv _ _ Hroom) as (Hne & _ & Hnd & Hlen).
  case_decide as Hsz; split; simpl; try apply Hinv.
  - intros r' s' Hr'. apply lookup_delete_Some in Hr' as [_ Hr'].
    by eapply inv_rooms.
  - intros r' s' Hr'. apply lookup_insert_Some in Hr' as [[<- <-]|[_ Hr']].
    + split_and!; [done| | |].
      * intros Heq. by rewrite Heq in Hsz.
      * by apply set_delete_NoDup.
      * pose proof (set_delete_length c room). lia.
    + by eapply inv_rooms.
Qed.

Lemma joined_Some ws r : joined ws = Some r → currentRoom ws = Some r ∧ r ≠ [].
Proof. unfold joined. destruct (currentRoom ws) as [[|u l]|]; naive_solver. Qed.

Lemma joined_inv st c ws r :
  inv st → socks st !! c = Some ws → currentRoom ws = Some r → joined ws = Some r.
Proof.
  intros Hinv Hc Hr. destruct (inv_socks _ Hinv _ _ _ Hc Hr) as [Hne _].
  unfold joined. rewrite Hr. by destruct r.
Qed.

Lemma at_capacity_false o s :
  at_capacity o = false → o = Some s → (length s < MAX_ROOM_SIZE)%nat.
Proof. intros Hcap ->. simpl in Hcap. apply bool_decide_eq_false in Hcap. lia. Qed.

Lemma inv_join_room st c ws raw uuid :
  inv st → socks st !! c = Some ws → inv (join_room st c ws raw uuid).1.
Proof.
  intros Hinv Hc. unfold join_room.
  case_decide as Hid; [done|].
  destruct (at_capacity _) eqn:Hcap; [done|]. unfold admitted, members.
  split; simpl.
  - intros r s [[<- <-]|[_ Hr]]%lookup_insert_Some; [|by eapply inv_rooms].
    split_and!; [done|apply set_add_nonempty| |].
    + apply set_add_NoDup.
      destruct (rooms st !! _) as [s|] eqn:Hs; simpl; [|constructor].
      by apply (inv_rooms _ Hinv _ _ Hs).
    + destruct (rooms st !! _) as [s|] eqn:Hs; simpl.
      * pose proof (at_capacity_false _ _ Hcap eq_refl).
        pose proof (set_add_length c s). lia.
      * unfold set_add, MAX_ROOM_SIZE. simpl. lia.
  - intros c' w r [(-> & <- & _)|[_ Hc']]%list_lookup_insert_Some Hr.
    + simpl in *. by simplify_eq.
    + by eapply inv_socks.
Qed.

Lemma dispatch_state st c ws parsed uuid :
  (dispatch st c ws parsed uuid).1.1 = st ∨
  ∃ raw, (dispatch st c ws parsed uuid).1.1 = (join_room st c ws raw uuid).1.
Proof.
  unfold dispatch. destruct parsed as [msg|]; [|by left].
  destruct (prop _ msg) as [|type]; [by left|].
  destruct (is_str _ type); [|by left].
  destruct (prop _ msg) as [|raw]; [by left|]. right. by exists raw.
Qed.

Lemma counted_lookup st c ws now :
  socks st !! c = Some ws →
  socks (counted st c now) !! c = Some (rateAllow now ws).1.
Proof.
  intros Hc. unfold counted. rewrite Hc. simpl.
  apply list_lookup_insert_eq. by eapply lookup_lt_Some.
Qed.

Lemma inv_on_message st c now parsed uuid :
  inv st → inv (on_message st c now parsed uuid).1.1.
Proof.
  intros Hinv. destruct (socks st !! c) as [ws|] eqn:Hc.
  - rewrite (on_message_eq _ _ ws) by done.
    pose proof (inv_counted _ c now Hinv) as Hinv'.
    destruct (rateAllow now ws).2; [|done].
    destruct (dispatch_state (counted st c now) c (rateAllow now ws).1 parsed uuid)
      as [->|[raw ->]]; [done|].
    apply inv_join_room; [done|]. by apply counted_lookup.
  - by rewrite on_message_absent.
Qed.

Lemma inv_step st e : inv st → inv (step st e).1.
Proof.
  intros Hinv. destruct e; simpl.
  - by apply inv_on_connection.
  - pose proof (inv_on_message st c now parsed uuid Hinv) as H.
    by destruct (on_message st c now parsed uuid) as [[? ?] ?].
  - by apply inv_set_readyState.
  - by apply inv_on_close, inv_set_readyState.
  - by apply inv_fetchIceServers.
Qed.

Lemma reachable_inv st : reachable st → inv st.
Proof.
  intros H. induction H as [|st e _ IH] using reachable_ind.
  - apply inv_initial.
  - by apply inv_step.
Qed.

(** *** Consequences for one message *)

Lemma relayed_not_join t : relayed_type t = true → is_str (js "JOIN_ROOM") t = false.
Proof.
  unfold relayed_type. destruct t; simpl; try done.
  rewrite !orb_true_iff, !bool_decide_eq_true. intros [[->| ->]| ->]; done.
Qed.

Lemma writable_counted st c now p : writable (counted st c now) p ↔ writable st p.
Proof.
  unfold writable, counted. destruct (socks st !! c) as [ws|] eqn:Hc; [|done].
  simpl. destruct (decide (c = p)) as [->|Hne].
  - rewrite list_lookup_insert_eq by (by eapply lookup_lt_Some). by rewrite Hc.
  - by rewrite list_lookup_insert_ne.
Qed.

Lemma fan_out_counted st c c' now room payload :
  fan_out (counted st c' now) c room payload = fan_out st c room payload.
Proof.
  unfold fan_out. f_equal. apply list_filter_iff. intros p.
  by rewrite writable_counted.
Qed.

(** What a relayed message of [c] causes: the bucket is counted and, when
    the limiter lets it in and [c] has a room, the stamped copy goes to the
    other writable members. *)
Lemma on_message_relay st c ws now ps uuid :
  socks st !! c = Some ws →
  relayed_type (default JUndef (obj_get (js "type") ps)) = true →
  on_message st c now (Some (JObj ps)) uuid =
  (counted st c now,
   if (rateAllow now ws).2 then
     match joined ws with
     | Some r => fan_out st c (members st r) (stamped ws ps)
     | None => []
     end
   else [],
   Returns).
Proof.
  intros Hc Hty. rewrite (on_message_eq _ _ ws) by done.
  destruct (rateAllow now ws).2 eqn:Hallow; [|done].
  unfold dispatch, prop. rewrite (relayed_not_join _ Hty).
  unfold relay. rewrite Hty.
  replace (joined (rateAllow now ws).1) with (joined ws) by done.
  destruct (joined ws) as [r|]; [|done].
  replace (rooms (counted st c now)) with (rooms st)
    by (unfold counted; by rewrite Hc).
  unfold members. destruct (rooms st !! r) as [room|]; simpl.
  - by rewrite fan_out_counted.
  - done.
Qed.

Lemma fan_out_elem st c room payload d v :
  (d, v) ∈ fan_out st c room payload ↔
  v = payload ∧ d ∈ room ∧ d ≠ c ∧ writable st d.
Proof.
  unfold fan_out. rewrite list_elem_of_fmap. split.
  - intros (p & [= -> ->] & [[Hne Hw] Hp]%list_elem_of_filter). done.
  - intros (-> & Hd & Hne & Hw). exists d. split; [done|].
    by apply list_elem_of_filter.
Qed.

Lemma fan_out_count st c room payload p :
  NoDup room →
  length (filter (λ o : sent, o.1 = p) (fan_out st c room payload)) =
  if decide (p ∈ room ∧ p ≠ c ∧ writable st p) then 1%nat else 0%nat.
Proof.
  intros Hnd. unfold fan_out. induction Hnd as [|q room Hq Hnd IH].
  - case_decide as H; [|done]. by destruct H as [?%not_elem_of_nil _].
  - rewrite filter_cons. destruct (decide (q ≠ c ∧ writable st q)) as [Hkeep|Hkeep].
    + rewrite fmap_cons, filter_cons. cbn [fst].
      destruct (decide (q = p)) as [->|Hpq].
      * cbn [length]. rewrite IH. rewrite decide_False by tauto.
        rewrite decide_True; [done|]. split; [left|done].
      * rewrite IH. apply decide_ext. rewrite elem_of_cons. naive_solver.
    + rewrite IH. apply decide_ext. rewrite elem_of_cons. naive_solver.
Qed.

(** *** Room identifiers *)

Lemma safe_chars_enumerated :
  Forall (λ u, safe_char u = true → u ∈ alphabet) (N.of_nat <$> seq 0 123).
Proof. apply (bool_decide_unpack _). by vm_compute. Qed.

Lemma alphabet_safe : Forall (λ u, safe_char u = true) alphabet.
Proof. apply (bool_decide_unpack _). by vm_compute. Qed.

Lemma safe_char_alphabet u : safe_char u = true ↔ u ∈ alphabet.
Proof.
  split.
  - intros Hu. assert (u < 123)%N as Hlt.
    { unfold safe_char in Hu.
      repeat (rewrite ?orb_true_iff, ?andb_true_iff in Hu).
      rewrite !N.leb_le, !N.eqb_eq in Hu. lia. }
    pose proof safe_chars_enumerated as Hall.
    rewrite list.Forall_forall in Hall. apply Hall; [|done].
    apply list_elem_of_fmap. exists (N.to_nat u). split; [lia|].
    apply elem_of_seq. lia.
  - intros Hu. pose proof alphabet_safe as Hall.
    rewrite list.Forall_forall in Hall. by apply Hall.
Qed.

Lemma join_dropped st c ws ps uuid :
  obj_get (js "type") ps = Some (JStr (js "JOIN_ROOM")) →
  sanitiseRoomId (default JUndef (obj_get (js "roomId") ps)) = [] →
  dispatch st c ws (Some (JObj ps)) uuid = (st, [], Returns).
Proof.
  intros Hty Hid. unfold dispatch, prop. rewrite Hty.
  cbn [default from_option id]. rewrite is_str_refl.
  unfold join_room. by rewrite Hid.
Qed.

(** C8. Whatever value a message carries as [roomId], the sanitised
    identifier consists of characters of the permitted alphabet
    (a-z, A-Z, 0-9, underscore, hyphen) and has at most [MAX_ROOM_ID_LEN]
    (64) of them; and a [JOIN_ROOM] whose identifier sanitises to the empty
    string is dropped: the branch changes no state and sends nothing, so
    that the whole handler only counts the message in the sender's bucket
    and leaves the registry, the cache and every connection's identifier,
    room and ready state as they were. *)
Theorem sanitised_room_id (raw : jsval) :
  (Forall (λ u, u ∈ alphabet) (sanitiseRoomId raw)
   ∧ (length (sanitiseRoomId raw) ≤ MAX_ROOM_ID_LEN)%nat)
  ∧ ∀ st c ws now ps uuid,
      obj_get (js "type") ps = Some (JStr (js "JOIN_ROOM")) →
      default JUndef (obj_get (js "roomId") ps) = raw →
      sanitiseRoomId raw = [] →
      dispatch st c ws (Some (JObj ps)) uuid = (st, [], Returns)
      ∧ on_message st c now (Some (JObj ps)) uuid = (counted st c now, [], Returns)
      ∧ registry (counted st c now) = registry st.
Proof.
  split; [split|].
  - destruct raw; simpl; try by constructor.
    apply Forall_take, list.Forall_forall. intros u Hu.
    apply list_elem_of_filter in Hu as [Hu _]. by apply safe_char_alphabet.
  - destruct raw; simpl; try lia. rewrite length_take. lia.
  - intros st c ws now ps uuid Hty <- Hid. split_and!.
    + by apply join_dropped.
    + destruct (socks st !! c) as [w|] eqn:Hc.
      * rewrite (on_message_eq _ _ w) by done.
        destruct (rateAllow now w).2; [|done]. by apply join_dropped.
      * rewrite on_message_absent by done. unfold counted. by rewrite Hc.
    + apply registry_counted.
Qed.

(** A room identifier without a permitted character: the join is dropped. *)
Lemma sanitised_room_id_witness :
  let st := (run initial [Connection 0]).1 in
  on_message st 0 5 (Some (join_msg "#!? ")) (js "u") = (counted st 0 5, [], Returns)
  ∧ registry (counted st 0 5) = registry st.
Proof.
  intros st.
  apply (proj2 (sanitised_room_id (JStr (js "#!? "))) st 0%nat
           (Socket None 0 0 1 None) 5 _ (js "u")); reflexivity.
Defined.

(** *** Capacity *)

(** C2. In every state the process can reach, no room of the registry has
    more than [MAX_ROOM_SIZE] (8) members; and a [JOIN_ROOM] that the rate
    limiter lets in while the room it names is at capacity is answered by
    exactly one message, [ROOM_FULL], to the sender, and changes nothing
    but the sender's bucket: the registry keeps the same rooms with the
    same members. *)
Theorem room_capacity (st : server) :
  reachable st →
  (∀ r s, rooms st !! r = Some s → (length s ≤ MAX_ROOM_SIZE)%nat)
  ∧ ∀ c ws now ps uuid s,
      socks st !! c = Some ws →
      (rateAllow now ws).2 = true →
      obj_get (js "type") ps = Some (JStr (js "JOIN_ROOM")) →
      rooms st !! sanitiseRoomId (default JUndef (obj_get (js "roomId") ps)) = Some s →
      (MAX_ROOM_SIZE ≤ length s)%nat →
      on_message st c now (Some (JObj ps)) uuid
        = (counted st c now, [(c, ROOM_FULL)], Returns)
      ∧ registry (counted st c now) = registry st.
Proof.
  intros Hinv%reachable_inv. split.
  - intros r s Hr. by apply (inv_rooms _ Hinv _ _ Hr).
  - intros c ws now ps uuid s Hc Hallow Hty Hroom Hfull.
    split; [|apply registry_counted].
    rewrite (on_message_eq _ _ ws), Hallow by done.
    unfold dispatch, prop. rewrite Hty.
    cbn [default from_option id]. rewrite is_str_refl. unfold join_room.
    destruct (inv_rooms _ Hinv _ _ Hroom) as [Hne _].
    rewrite decide_False by done.
    replace (rooms (counted st c now)) with (rooms st)
      by (unfold counted; by rewrite Hc).
    rewrite Hroom. simpl. by rewrite bool_decide_true.
Qed.

(** The ninth connection asks for the full room [abc]. *)
Lemma room_capacity_witness :
  let st := (run initial crowd).1 in
  on_message st 8 1 (Some (join_msg "abc")) (js "id-8")
    = (counted st 8 1, [(8%nat, ROOM_FULL)], Returns)
  ∧ registry (counted st 8 1) = registry st.
Proof.
  intros st.
  apply (proj2 (room_capacity st (ex_intro _ crowd eq_refl)) 8%nat
           (Socket None 0 0 1 None) 1 _ (js "id-8") (seq 0 8));
    vm_compute; done.
Defined.

(** *** Relaying *)

(** C6. A message of type [OFFER], [ANSWER] or [ICE_CANDIDATE] from a
    connection whose current room is [r], once the limiter has let it in,
    is sent to the members of [r] other than the sender whose socket is
    open, in the order of the room's set: each of them receives exactly one
    copy, nobody else receives anything, and the sender never does. From a
    connection without a current room the message is dropped: nothing is
    sent to anyone, the sender included, and only its bucket has counted
    the message. *)
Theorem relay_reaches_other_members (st : server) c ws now ps uuid :
  reachable st →
  socks st !! c = Some ws →
  relayed_type (default JUndef (obj_get (js "type") ps)) = true →
  let out := (on_message st c now (Some (JObj ps)) uuid).1.2 in
  (∀ r, currentRoom ws = Some r → (rateAllow now ws).2 = true →
     out = fan_out st c (members st r) (stamped ws ps)
     ∧ (∀ p, p ∈ members st r → p ≠ c → writable st p →
          length (filter (λ o : sent, o.1 = p) out) = 1%nat)
     ∧ (∀ p v, (p, v) ∈ out →
          p ∈ members st r ∧ p ≠ c ∧ writable st p ∧ v = stamped ws ps))
  ∧ (currentRoom ws = None →
     on_message st c now (Some (JObj ps)) uuid = (counted st c now, [], Returns)
     ∧ registry (counted st c now) = registry st).
Proof.
  intros Hinv%reachable_inv Hc Hty out. subst out.
  rewrite (on_message_relay _ _ ws) by done. cbn [fst snd]. split.
  - intros r Hr ->. rewrite (joined_inv _ _ _ _ Hinv Hc Hr).
    assert (NoDup (members st r)) as Hnd.
    { unfold members. destruct (rooms st !! r) as [s|] eqn:Hs; [|constructor].
      by apply (inv_rooms _ Hinv _ _ Hs). }
    split_and!; [done| |].
    + intros p Hp Hne Hw. rewrite fan_out_count by done. by rewrite decide_True.
    + intros p v Hpv%fan_out_elem. tauto.
  - intros Hnone. split; [|apply registry_counted].
    unfold joined. rewrite Hnone. by destruct (rateAllow now ws).2.
Qed.

(** The second member of [abc] sends an offer: one copy, to the first. *)
Lemma relay_reaches_other_members_witness :
  let st := (run initial pair).1 in
  (on_message st 1 3 (Some (offer_msg "forged")) (js "")).1.2
  = [(0%nat, JObj [(js "type", JStr (js "OFFER")); (js "peerId", JStr (js "id-1"));
                   (js "sdp", JStr (js "v=0"))])].
Proof.
  intros st.
  apply (proj1 (relay_reaches_other_members st 1%nat
                  (Socket (Some (js "id-1")) 0 1 1 (Some (js "abc"))) 3
                  (offer_props "forged") (js "") (ex_intro _ pair eq_refl) eq_refl eq_refl)
           (js "abc") eq_refl eq_refl).
Defined.

Lemma same_but_peerId_get ps ps' k :
  same_but_peerId ps ps' → k ≠ js "peerId" → obj_get k ps' = obj_get k ps.
Proof.
  intros Hsame Hk. induction Hsame as [|[k1 v1] [k2 v2] ps ps' [Hk12 Hv] _ IH];
    [done|]. simpl in *. subst k2. case_decide as Hk1; [|done].
  subst k1. by rewrite Hv.
Qed.

Lemma same_but_peerId_tail ps ps' :
  same_but_peerId ps ps' → js "peerId" ∉ ps.*1 → ps' = ps.
Proof.
  intros Hsame. induction Hsame as [|[k1 v1] [k2 v2] ps ps' [Hk12 Hv] _ IH];
    [done|]. simpl in *. subst k2. rewrite not_elem_of_cons. intros [Hk1 Hps].
  by rewrite Hv, IH by done.
Qed.

Lemma same_but_peerId_set ps ps' v :
  same_but_peerId ps ps' → NoDup ps.*1 →
  obj_set (js "peerId") v ps' = obj_set (js "peerId") v ps.
Proof.
  intros Hsame. induction Hsame as [|[k1 v1] [k2 v2] ps ps' [Hk12 Hv] Hrest IH];
    [done|]. simpl in *. subst k2. rewrite list.NoDup_cons. intros [Hk1 Hnd].
  case_decide as Hk.
  - subst k1. by rewrite (same_but_peerId_tail _ _ Hrest).
  - by rewrite Hv, IH by done.
Qed.

(** C1. For a message of type [OFFER], [ANSWER] or [ICE_CANDIDATE] handled
    in a reachable state, every copy that is sent carries under [peerId]
    the identifier the relay assigned to the sending connection, whatever
    the message itself had there. Hence a message with the same properties
    in the same order that differs only in the value under [peerId] has
    exactly the same effect: same state, same copies to the same
    connections. And a message that agrees on every property other than
    [peerId] (it may lack [peerId], or have it elsewhere) reaches the same
    connections with copies that agree on every property. *)
Theorem relay_stamps_sender (st : server) c ws now ps uuid :
  reachable st →
  socks st !! c = Some ws →
  relayed_type (default JUndef (obj_get (js "type") ps)) = true →
  (∀ p v, (p, v) ∈ (on_message st c now (Some (JObj ps)) uuid).1.2 →
     ∃ id, _peerId ws = Some id ∧ prop (js "peerId") v = Value (JStr id))
  ∧ (∀ ps', NoDup ps.*1 → same_but_peerId ps ps' →
       on_message st c now (Some (JObj ps')) uuid
       = on_message st c now (Some (JObj ps)) uuid)
  ∧ (∀ ps', (∀ k, k ≠ js "peerId" → obj_get k ps' = obj_get k ps) →
       (on_message st c now (Some (JObj ps')) uuid).1.1
       = (on_message st c now (Some (JObj ps)) uuid).1.1
       ∧ Forall2 (λ o' o : sent, o'.1 = o.1 ∧ ∀ k, prop k o'.2 = prop k o.2)
           (on_message st c now (Some (JObj ps')) uuid).1.2
           (on_message st c now (Some (JObj ps)) uuid).1.2).
Proof.
  intros Hinv%reachable_inv Hc Hty. split_and!.
  - rewrite (on_message_relay _ _ ws) by done. cbn [fst snd]. intros p v Hpv.
    destruct (rateAllow now ws).2; [|by apply not_elem_of_nil in Hpv].
    destruct (joined ws) as [r|] eqn:Hr; [|by apply not_elem_of_nil in Hpv].
    apply fan_out_elem in Hpv as [-> _].
    apply joined_Some in Hr as [Hr _].
    destruct (inv_socks _ Hinv _ _ _ Hc Hr) as [_ [id Hid]].
    exists id. split; [done|]. unfold stamped, prop, peerId_value.
    by rewrite obj_get_set_eq, Hid.
  - intros ps' Hnd Hsame.
    rewrite !(on_message_relay _ _ ws); [|done..|].
    + unfold stamped. by rewrite (same_but_peerId_set _ _ _ Hsame Hnd).
    + by rewrite (same_but_peerId_get _ _ _ Hsame).
  - intros ps' Hsame.
    rewrite !(on_message_relay _ _ ws); [|done..|].
    + cbn [fst snd]. split; [done|].
      destruct (rateAllow now ws).2; [|constructor].
      destruct (joined ws) as [r|]; [|constructor].
      unfold fan_out. apply Forall2_fmap, Forall_Forall2_diag, Forall_true.
      intros p. split; [done|]. intros k. unfold stamped, prop. cbn [snd].
      destruct (decide (k = js "peerId")) as [->|Hk].
      * by rewrite !obj_get_set_eq.
      * by rewrite !obj_get_set_ne, Hsame by done.
    + by rewrite Hsame.
Qed.

(** An offer that claims the identifier [forged] fares like one that claims
    the sender's own. *)
Lemma relay_stamps_sender_witness :
  let st := (run initial pair).1 in
  on_message st 1 3 (Some (offer_msg "forged")) (js "")
  = on_message st 1 3 (Some (offer_msg "id-1")) (js "").
Proof.
  intros st.
  apply (proj1 (proj2 (relay_stamps_sender st 1%nat
                  (Socket (Some (js "id-1")) 0 1 1 (Some (js "abc"))) 3
                  (offer_props "forged") (js "") (ex_intro _ pair eq_refl) eq_refl eq_refl))).
  - apply (bool_decide_unpack _). vm_compute. exact I.
  - repeat constructor; simpl; intros H; by destruct H.
Defined.

(** *** The shapes a handled message can take *)

Lemma join_room_cases st c ws raw uuid :
  join_room st c ws raw uuid = (st, [])
  ∨ join_room st c ws raw uuid = (st, [(c, ROOM_FULL)])
  ∨ join_room st c ws raw uuid = admitted st c ws (sanitiseRoomId raw) uuid.
Proof.
  unfold join_room. case_decide; [by left|].
  destruct (at_capacity _); [right; by left|]. right; by right.
Qed.

Lemma dispatch_cases st c ws parsed uuid :
  (∃ out, (dispatch st c ws parsed uuid).1 = (st, out)
          ∧ ∀ p v, (p, v) ∈ out →
              (p = c ∧ v = ROOM_FULL)
              ∨ (p ≠ c ∧ ∃ ps, v = stamped ws ps
                 ∧ relayed_type (default JUndef (obj_get (js "type") ps)) = true))
  ∨ (∃ raw, (dispatch st c ws parsed uuid).1
            = admitted st c ws (sanitiseRoomId raw) uuid).
Proof.
  unfold dispatch. destruct parsed as [msg|].
  2:{ left. exists []. split; [done|]. by intros p v ?%not_elem_of_nil. }
  destruct (prop _ msg) as [|type] eqn:Hty.
  { left. exists []. split; [done|]. by intros p v ?%not_elem_of_nil. }
  destruct (is_str _ type).
  - destruct (prop (js "roomId") msg) as [|raw].
    { left. exists []. split; [done|]. by intros p v ?%not_elem_of_nil. }
    cbn [fst]. destruct (join_room_cases st c ws raw uuid) as [->|[->| ->]].
    + left. exists []. split; [done|]. by intros p v ?%not_elem_of_nil.
    + left. eexists. split; [done|].
      intros p v [= -> ->]%list_elem_of_singleton. by left.
    + right. by exists raw.
  - left. eexists. split; [done|]. intros p v Hpv. right.
    unfold relay in Hpv.
    destruct (joined ws); [|by apply not_elem_of_nil in Hpv].
    destruct (relayed_type type) eqn:Hrel; [|by apply not_elem_of_nil in Hpv].
    destruct (rooms st !! _); [|by apply not_elem_of_nil in Hpv].
    apply fan_out_elem in Hpv as (-> & _ & Hne & _). split; [done|].
    destruct msg; simpl in Hty; try by (simplify_eq; simpl in Hrel).
    exists props. split; [done|]. by simplify_eq.
Qed.

Lemma Value_inj a b : Value a = Value b → a = b.
Proof. congruence. Qed.

(** A relayed copy is never an [ASSIGNED_PEER_ID]. *)
Lemma stamped_not_assigned ws ps id ice :
  relayed_type (default JUndef (obj_get (js "type") ps)) = true →
  stamped ws ps ≠ ASSIGNED_PEER_ID id ice.
Proof.
  intros Hrel Heq.
  assert (prop (js "type") (stamped ws ps)
          = Value (JStr (js "ASSIGNED_PEER_ID"))) as Hty by (by rewrite Heq).
  unfold stamped, prop in Hty. rewrite obj_get_set_ne in Hty by done.
  apply Value_inj in Hty. by rewrite Hty in Hrel.
Qed.

Lemma admitted_other st c ws r uuid c' :
  c' ≠ c → socks (admitted st c ws r uuid).1 !! c' = socks st !! c'.
Proof. intros Hne. simpl. by apply list_lookup_insert_ne. Qed.

Lemma admitted_self st c ws w r uuid :
  socks st !! c = Some w →
  _peerId <$> socks (admitted st c ws r uuid).1 !! c = Some (Some uuid).
Proof.
  intros Hc. simpl. rewrite list_lookup_insert_eq; [done|].
  by eapply lookup_lt_Some.
Qed.

Lemma counted_other st c now c' :
  c' ≠ c → socks (counted st c now) !! c' = socks st !! c'.
Proof.
  intros Hne. unfold counted. destruct (socks st !! c); [|done].
  simpl. by apply list_lookup_insert_ne.
Qed.

Lemma cache_counted st c now :
  _cachedIceServers (counted st c now) = _cachedIceServers st.
Proof. unfold counted. by destruct (socks st !! c). Qed.

Lemma socks_on_close st c : socks (on_close st c) = socks st.
Proof.
  unfold on_close. destruct (socks st !! c) as [ws|]; [|done].
  destruct (joined ws) as [r|]; [|done].
  destruct (rooms st !! r); [|done]. by case_decide.
Qed.

Lemma cache_on_close st c : _cachedIceServers (on_close st c) = _cachedIceServers st.
Proof.
  unfold on_close. destruct (socks st !! c) as [ws|]; [|done].
  destruct (joined ws) as [r|]; [|done].
  destruct (rooms st !! r); [|done]. by case_decide.
Qed.

Lemma set_readyState_peerId st c v c' ws :
  socks st !! c' = Some ws →
  ∃ ws', socks (set_readyState st c v) !! c' = Some ws' ∧ _peerId ws' = _peerId ws.
Proof.
  intros Hc'. unfold set_readyState.
  destruct (socks st !! c) as [w|] eqn:Hc; [|by exists ws].
  simpl. destruct (decide (c = c')) as [->|Hne].
  - rewrite list_lookup_insert_eq by (by eapply lookup_lt_Some).
    eexists. split; [done|]. simpl. congruence.
  - rewrite list_lookup_insert_ne by done. by exists ws.
Qed.

Lemma cache_set_readyState st c v :
  _cachedIceServers (set_readyState st c v) = _cachedIceServers st.
Proof. unfold set_readyState. by destruct (socks st !! c). Qed.

Lemma cache_on_message st c now parsed uuid :
  _cachedIceServers (on_message st c now parsed uuid).1.1 = _cachedIceServers st.
Proof.
  destruct (socks st !! c) as [ws|] eqn:Hc.
  - rewrite (on_message_eq _ _ ws) by done.
    destruct (rateAllow now ws).2; [|apply cache_counted].
    destruct (dispatch_cases (counted st c now) c (rateAllow now ws).1 parsed uuid)
      as [(out & -> & _)|[raw ->]]; simpl; apply cache_counted.
  - by rewrite on_message_absent.
Qed.

(** What [c] can receive while one of its own messages is handled. *)
Lemma on_message_to_sender st c ws now parsed uuid v :
  socks st !! c = Some ws →
  (c, v) ∈ (on_message st c now parsed uuid).1.2 →
  v = ROOM_FULL
  ∨ (v = ASSIGNED_PEER_ID uuid (_cachedIceServers st)
     ∧ _peerId <$> socks (on_message st c now parsed uuid).1.1 !! c = Some (Some uuid)).
Proof.
  intros Hc. rewrite (on_message_eq _ _ ws) by done.
  destruct (rateAllow now ws).2; [|by intros ?%not_elem_of_nil].
  destruct (dispatch_cases (counted st c now) c (rateAllow now ws).1 parsed uuid)
    as [(out & -> & Hout)|[raw ->]].
  - intros [[_ ->]|[? _]]%Hout; [by left|done].
  - cbn [admitted fst snd]. intros [[= ->]|Hv]%elem_of_cons.
    + right. rewrite cache_counted. split; [done|].
      eapply (admitted_self _ _ _ _ _ _ (counted_lookup _ _ _ now Hc)).
    + apply fan_out_elem in Hv. tauto.
Qed.

Lemma ROOM_FULL_not_assigned id ice : ROOM_FULL ≠ ASSIGNED_PEER_ID id ice.
Proof. intros H. apply (f_equal (prop (js "peerId"))) in H. by vm_compute in H. Qed.

Lemma ASSIGNED_PEER_ID_inj id ice id' ice' :
  ASSIGNED_PEER_ID id ice = ASSIGNED_PEER_ID id' ice' → id = id' ∧ ice = ice'.
Proof. unfold ASSIGNED_PEER_ID, msg_of_type. simpl. by intros [= -> ->]. Qed.

Lemma PEER_JOINED_not_assigned u id ice : PEER_JOINED u ≠ ASSIGNED_PEER_ID id ice.
Proof. intros H. apply (f_equal (prop (js "type"))) in H. by vm_compute in H. Qed.

(** *** Peer identifiers *)

Lemma on_message_other st c now parsed uuid c' ws id ice :
  c' ≠ c → socks st !! c' = Some ws →
  socks (on_message st c now parsed uuid).1.1 !! c' = Some ws
  ∧ (c', ASSIGNED_PEER_ID id ice) ∉ (on_message st c now parsed uuid).1.2.
Proof.
  intros Hne Hc'. destruct (socks st !! c) as [w|] eqn:Hc.
  2:{ rewrite on_message_absent by done. split; [done|apply not_elem_of_nil]. }
  rewrite (on_message_eq _ _ w) by done.
  destruct (rateAllow now w).2.
  2:{ cbn [fst snd]. rewrite counted_other by done.
      split; [done|apply not_elem_of_nil]. }
  destruct (dispatch_cases (counted st c now) c (rateAllow now w).1 parsed uuid)
    as [(out & -> & Hout)|[raw ->]].
  - cbn [fst snd]. rewrite counted_other by done. split; [done|].
    intros [[? _]|[_ (ps & Heq & Hrel)]]%Hout; [done|].
    symmetry in Heq. by apply stamped_not_assigned in Heq.
  - rewrite admitted_other, counted_other by done. split; [done|].
    cbn [admitted fst snd]. intros [[= ? _]|Hv]%elem_of_cons; [done|].
    apply fan_out_elem in Hv as [Heq _].
    symmetry in Heq. by apply PEER_JOINED_not_assigned in Heq.
Qed.

Lemma on_message_self st c ws now parsed uuid :
  socks st !! c = Some ws →
  ∃ ws', socks (on_message st c now parsed uuid).1.1 !! c = Some ws'
  ∧ (((c, ASSIGNED_PEER_ID uuid (_cachedIceServers st))
        ∈ (on_message st c now parsed uuid).1.2 ∧ _peerId ws' = Some uuid)
     ∨ ((∀ id ice, (c, ASSIGNED_PEER_ID id ice) ∉ (on_message st c now parsed uuid).1.2)
        ∧ _peerId ws' = _peerId ws)).
Proof.
  intros Hc. pose proof (counted_lookup _ _ _ now Hc) as Hc1.
  rewrite (on_message_eq _ _ ws) by done.
  destruct (rateAllow now ws).2.
  2:{ eexists. split; [done|]. right. split; [|done].
      intros id ice. apply not_elem_of_nil. }
  destruct (dispatch_cases (counted st c now) c (rateAllow now ws).1 parsed uuid)
    as [(out & -> & Hout)|[raw ->]].
  - eexists. split; [done|]. right. split; [|done].
    intros id ice [[_ Heq]|[? _]]%Hout; [|done].
    symmetry in Heq. by apply ROOM_FULL_not_assigned in Heq.
  - pose proof (admitted_self (counted st c now) c (rateAllow now ws).1 _
                  (sanitiseRoomId raw) uuid Hc1) as Hself.
    destruct (socks (admitted _ _ _ _ _).1 !! c) as [ws'|] eqn:Hws'; [|done].
    exists ws'. split; [done|]. left. split; [|by simplify_eq/=].
    cbn [admitted snd]. rewrite cache_counted. by left.
Qed.

(** C5 (amended). An identifier is assigned by every join that is let into
    its room, the first and each later one alike: when the handling of an
    event sends [ASSIGNED_PEER_ID] to a connection, the event is a message
    of that connection and its identifier becomes the fresh one carried by
    that reply, whatever it was before; when no [ASSIGNED_PEER_ID] goes to
    the connection, its identifier stays what it was. *)
Theorem peerId_set_by_each_join (st : server) (e : event) c ws :
  socks st !! c = Some ws →
  ∃ ws', socks (step st e).1 !! c = Some ws'
  ∧ ((∃ now parsed uuid, e = Message c now parsed uuid
        ∧ (c, ASSIGNED_PEER_ID uuid (_cachedIceServers st)) ∈ (step st e).2
        ∧ _peerId ws' = Some uuid)
     ∨ ((∀ id ice, (c, ASSIGNED_PEER_ID id ice) ∉ (step st e).2)
        ∧ _peerId ws' = _peerId ws)).
Proof.
  intros Hc. destruct e as [now|c' now parsed uuid|c' v|c'|r]; cbn [step fst snd].
  - exists ws. split; [simpl; by apply lookup_app_l_Some|].
    right. split; [|done]. intros id ice. apply not_elem_of_nil.
  - destruct (decide (c' = c)) as [->|Hne].
    + destruct (on_message_self _ _ _ now parsed uuid Hc) as (ws' & Hws' & Hcase).
      exists ws'. split; [done|]. destruct Hcase as [[Hin Hid]|Hcase].
      * left. by exists now, parsed, uuid.
      * by right.
    + assert (c ≠ c') as Hne' by done.
      exists ws. split.
      { apply (on_message_other st c' now parsed uuid c ws [] JNull Hne' Hc). }
      right. split; [|done]. intros id ice.
      apply (on_message_other st c' now parsed uuid c ws id ice Hne' Hc).
  - destruct (set_readyState_peerId st c' v _ _ Hc) as (ws' & Hws' & Hid).
    exists ws'. split; [done|]. right. split; [|done].
    intros id ice. apply not_elem_of_nil.
  - rewrite socks_on_close.
    destruct (set_readyState_peerId st c' 3 _ _ Hc) as (ws' & Hws' & Hid).
    exists ws'. split; [done|]. right. split; [|done].
    intros id ice. apply not_elem_of_nil.
  - exists ws. split.
    + destruct r as [|[v|]]; simpl; try done. by destruct (nonempty_array v).
    + right. split; [|done]. intros id ice. apply not_elem_of_nil.
Qed.

(** A second join of the same connection, in the terms of the theorem. *)
Lemma peerId_set_by_each_join_witness :
  let st := (run initial [Connection 0; Message 0 1 (Some (join_msg "abc")) (js "id-A")]).1 in
  ∃ ws', socks (step st (Message 0 2 (Some (join_msg "abc")) (js "id-B"))).1 !! 0%nat
         = Some ws'
  ∧ ((∃ now parsed uuid,
        Message 0 2 (Some (join_msg "abc")) (js "id-B") = Message 0 now parsed uuid
        ∧ (0%nat, ASSIGNED_PEER_ID uuid (_cachedIceServers st))
            ∈ (step st (Message 0 2 (Some (join_msg "abc")) (js "id-B"))).2
        ∧ _peerId ws' = Some uuid)
     ∨ ((∀ id ice, (0%nat, ASSIGNED_PEER_ID id ice)
                     ∉ (step st (Message 0 2 (Some (join_msg "abc")) (js "id-B"))).2)
        ∧ _peerId ws' = _peerId (Socket (Some (js "id-A")) 0 1 1 (Some (js "abc"))))).
Proof.
  intros st.
  apply (peerId_set_by_each_join st
           (Message 0 2 (Some (join_msg "abc")) (js "id-B")) 0%nat
           (Socket (Some (js "id-A")) 0 1 1 (Some (js "abc")))).
  reflexivity.
Defined.

(** C5 as stated fails: a connection that has joined and holds [id-A] sends
    a second [JOIN_ROOM]; the join is let in (the reply is
    [ASSIGNED_PEER_ID]) and the connection's identifier is now [id-B]. *)
Lemma peerId_replaced_by_second_join :
  let st := (run initial [Connection 0; Message 0 1 (Some (join_msg "abc")) (js "id-A")]).1 in
  let r := on_message st 0 2 (Some (join_msg "abc")) (js "id-B") in
  _peerId <$> socks st !! 0%nat = Some (Some (js "id-A"))
  ∧ r.1.2 = [(0%nat, ASSIGNED_PEER_ID (js "id-B") (JArr []))]
  ∧ _peerId <$> socks r.1.1 !! 0%nat = Some (Some (js "id-B"))
  ∧ js "id-A" ≠ js "id-B".
Proof. by vm_compute. Qed.

(** *** Credential cache *)

Lemma cache_step_other st e :
  (∀ r, e ≠ Fetched r) → _cachedIceServers (step st e).1 = _cachedIceServers st.
Proof.
  intros He. destruct e; simpl; try done.
  - apply cache_on_message.
  - apply cache_set_readyState.
  - by rewrite cache_on_close, cache_set_readyState.
  - by destruct (He r).
Qed.

Lemma fetch_failure st r : fetch_succeeds r = false → fetchIceServers r st = st.
Proof. destruct r as [|[v|]]; try done. simpl. by intros ->. Qed.

Lemma fetch_success st r :
  fetch_succeeds r = true →
  nonempty_array (_cachedIceServers (fetchIceServers r st)) = true.
Proof. destruct r as [|[v|]]; try done. simpl. intros Hv. by rewrite Hv. Qed.

Lemma cache_stays_nonempty st e :
  nonempty_array (_cachedIceServers st) = true →
  nonempty_array (_cachedIceServers (step st e).1) = true.
Proof.
  intros Hne. destruct e as [| | | |r];
    try (rewrite cache_step_other; [done|by intros r]).
  simpl. destruct (fetch_succeeds r) eqn:Hr.
  - by apply fetch_success.
  - by rewrite fetch_failure.
Qed.

Lemma cache_empty_history st es :
  nonempty_array (_cachedIceServers (run st es).1) = false →
  nonempty_array (_cachedIceServers st) = false
  ∧ ∀ r, Fetched r ∈ es → fetch_succeeds r = false.
Proof.
  revert st. induction es as [|e es IH]; intros st Hempty.
  - split; [done|]. by intros r ?%not_elem_of_nil.
  - simpl in Hempty. destruct (step st e) as [st1 out1] eqn:Hstep.
    destruct (run st1 es) as [st2 out2] eqn:Hrun.
    destruct (IH st1) as [Hst1 Hes]; [by rewrite Hrun|].
    assert (st1 = (step st e).1) as -> by (by rewrite Hstep).
    split.
    + destruct (nonempty_array (_cachedIceServers st)) eqn:Hne; [|done].
      apply (cache_stays_nonempty _ e) in Hne. congruence.
    + intros r [Heq|Hr]%elem_of_cons; [subst e|by apply Hes].
      destruct (fetch_succeeds r) eqn:Hr; [|done].
      apply (fetch_success st) in Hr. simpl in Hst1. congruence.
Qed.

(** The cache always holds an array. *)
Lemma cache_is_array st : reachable st → ∃ l, _cachedIceServers st = JArr l.
Proof.
  intros Hst. induction Hst as [|st e _ [l Hl]] using reachable_ind; [by exists []|].
  destruct e as [| | | |r]; try (rewrite cache_step_other; [by exists l|by intros r]).
  simpl. destruct r as [|[v|]]; simpl; try by exists l.
  destruct v as [| | | | |[|x items]|]; simpl; try by exists l. by eexists.
Qed.

(** C9. A fetch that fails, be it a request error, a body that does not
    parse, or a parsed value that is not a non-empty array, leaves the
    process state, and so the cached credentials, exactly as it was. The
    credentials sent to a joining connection in [ASSIGNED_PEER_ID] are the
    cached ones; they are empty only if no fetch in the history of the
    process has succeeded, and once they are non-empty no event, failed
    fetches included, makes them empty again. *)
Theorem failed_fetch_keeps_snapshot (st : server) :
  (fetchIceServers RequestError st = st
   ∧ fetchIceServers (ResponseEnd None) st = st
   ∧ ∀ v, nonempty_array v = false → fetchIceServers (ResponseEnd (Some v)) st = st)
  ∧ (∀ e, nonempty_array (_cachedIceServers st) = true →
       nonempty_array (_cachedIceServers (step st e).1) = true)
  ∧ (∀ es, _cachedIceServers (run initial es).1 = JArr [] →
       ∀ r, Fetched r ∈ es → fetch_succeeds r = false)
  ∧ (∀ c ws now parsed uuid id ice,
       socks st !! c = Some ws →
       (c, ASSIGNED_PEER_ID id ice) ∈ (on_message st c now parsed uuid).1.2 →
       ice = _cachedIceServers st).
Proof.
  split_and!; try done.
  - intros v Hv. by apply fetch_failure.
  - apply cache_stays_nonempty.
  - intros es Hes. apply (cache_empty_history initial es). by rewrite Hes.
  - intros c ws now parsed uuid id ice Hc Hin.
    destruct (on_message_to_sender _ _ _ _ _ _ _ Hc Hin) as [Heq|[Heq _]].
    + symmetry in Heq. by apply ROOM_FULL_not_assigned in Heq.
    + by apply ASSIGNED_PEER_ID_inj in Heq as [_ ->].
Qed.

(** After one good fetch, an empty answer and a request error change
    nothing. *)
Lemma failed_fetch_keeps_snapshot_witness :
  let st := (run initial [Fetched (ResponseEnd (Some turn_servers))]).1 in
  fetchIceServers (ResponseEnd (Some (JArr []))) st = st
  ∧ nonempty_array (_cachedIceServers (step st (Fetched RequestError)).1) = true.
Proof.
  intros st. split.
  - apply (proj1 (failed_fetch_keeps_snapshot st)). reflexivity.
  - apply (proj1 (proj2 (failed_fetch_keeps_snapshot st))). reflexivity.
Defined.

(** *** Rate limiter *)

Lemma rateAllow_within now ws :
  now - _rateBucketStart ws ≤ RATE_LIMIT_WINDOW →
  rateAllow now ws =
  (Socket (_peerId ws) (_rateBucketStart ws) (_rateBucketCount ws + 1)
          (readyState ws) (currentRoom ws),
   bool_decide (_rateBucketCount ws + 1 ≤ RATE_LIMIT_MAX_MSG)).
Proof. intros H. unfold rateAllow. by rewrite bool_decide_false by lia. Qed.

Lemma rateAllow_fresh now ws :
  now - _rateBucketStart ws > RATE_LIMIT_WINDOW →
  rateAllow now ws =
  (Socket (_peerId ws) now 1 (readyState ws) (currentRoom ws), true).
Proof. intros H. unfold rateAllow. by rewrite bool_decide_true by lia. Qed.

Lemma flood_within ws ts :
  Forall (λ t, t - _rateBucketStart ws ≤ RATE_LIMIT_WINDOW) ts →
  flood ws ts =
  (λ i : nat, bool_decide (_rateBucketCount ws + Z.of_nat i + 1 ≤ RATE_LIMIT_MAX_MSG))
    <$> seq 0 (length ts).
Proof.
  revert ws. induction ts as [|t ts IH]; intros ws Hts; [done|].
  apply list.Forall_cons in Hts as [Ht Hts].
  cbn [flood length seq]. rewrite fmap_cons, rateAllow_within by done.
  cbn [fst snd]. rewrite IH by done.
  cbn [_rateBucketCount]. rewrite <- fmap_S_seq, <- list_fmap_compose.
  f_equal; [apply bool_decide_ext; lia|]. apply list_fmap_ext. intros _ i _.
  simpl. apply bool_decide_ext. lia.
Qed.

Lemma count_first k n :
  length (filter (λ b, b = true) ((λ i : nat, bool_decide (i < k)%nat) <$> seq 0 n))
  = (n `min` k)%nat.
Proof.
  induction n as [|n IH]; [done|].
  rewrite seq_S, fmap_app, list.filter_app, length_app, IH.
  cbn [Nat.add fmap list_fmap]. rewrite filter_cons, filter_nil.
  case_decide as Hlt.
  - apply bool_decide_eq_true in Hlt. cbn [length]. lia.
  - rewrite bool_decide_eq_true in Hlt. cbn [length]. lia.
Qed.

Lemma on_message_bucket st c ws now parsed uuid :
  socks st !! c = Some ws →
  ∃ w, socks (on_message st c now parsed uuid).1.1 !! c = Some w
  ∧ _rateBucketStart w = _rateBucketStart (rateAllow now ws).1
  ∧ _rateBucketCount w = _rateBucketCount (rateAllow now ws).1.
Proof.
  intros Hc. pose proof (counted_lookup _ _ _ now Hc) as Hc1.
  rewrite (on_message_eq _ _ ws) by done.
  destruct (rateAllow now ws).2; [|by eexists].
  destruct (dispatch_cases (counted st c now) c (rateAllow now ws).1 parsed uuid)
    as [(out & -> & _)|[raw ->]]; [by eexists|].
  cbn [admitted fst socks with_sock with_rooms].
  rewrite list_lookup_insert_eq by (by eapply lookup_lt_Some). by eexists.
Qed.

(** C7. The limiter is a fixed window: when the time of a message exceeds
    the start of the bucket by more than [RATE_LIMIT_WINDOW] (1000 ms) the
    bucket restarts at that time with a count of zero; the count is then
    incremented, for every message; and the message is allowed exactly when
    the count is at most [RATE_LIMIT_MAX_MSG] (30). So of the messages of
    one window (the one that opens it, counted 1, and those that follow
    within the window) the first 30 are handled and every later one is
    dropped, 30 being handled however many arrive. A message that is
    allowed is processed: the handler does with it, on the state with the
    bucket counted, what its body after the limiter does (parsing, the
    [JOIN_ROOM] branch, the relay branch), state, sends and completion
    alike. A dropped message only moves the bucket: nothing is sent, the
    handler returns normally, and the registry, the cache and every
    connection's identifier, room and ready state are as before. Whatever
    the handler does with a message, it leaves the sender's bucket as the
    limiter set it. *)
Theorem rate_limiter (ws : socket) (now : Z) :
  let ws' := (rateAllow now ws).1 in
  ((now - _rateBucketStart ws > RATE_LIMIT_WINDOW →
      _rateBucketStart ws' = now ∧ _rateBucketCount ws' = 1)
   ∧ (now - _rateBucketStart ws ≤ RATE_LIMIT_WINDOW →
      _rateBucketStart ws' = _rateBucketStart ws
      ∧ _rateBucketCount ws' = _rateBucketCount ws + 1)
   ∧ ((rateAllow now ws).2 = true ↔ _rateBucketCount ws' ≤ RATE_LIMIT_MAX_MSG))
  ∧ (∀ ts, _rateBucketCount ws' = 1 →
       Forall (λ t, t - _rateBucketStart ws' ≤ RATE_LIMIT_WINDOW) ts →
       flood ws (now :: ts)
       = (λ i : nat, bool_decide (i < Z.to_nat RATE_LIMIT_MAX_MSG)%nat)
           <$> seq 0 (S (length ts))
       ∧ length (filter (λ b, b = true) (flood ws (now :: ts)))
         = (S (length ts) `min` Z.to_nat RATE_LIMIT_MAX_MSG)%nat)
  ∧ (∀ st c parsed uuid, socks st !! c = Some ws →
       ((rateAllow now ws).2 = false →
          on_message st c now parsed uuid = (counted st c now, [], Returns)
          ∧ registry (counted st c now) = registry st)
       ∧ ∃ w, socks (on_message st c now parsed uuid).1.1 !! c = Some w
              ∧ _rateBucketStart w = _rateBucketStart ws'
              ∧ _rateBucketCount w = _rateBucketCount ws')
  ∧ (∀ st c parsed uuid, socks st !! c = Some ws →
       (rateAllow now ws).2 = true →
       on_message st c now parsed uuid
       = dispatch (counted st c now) c ws' parsed uuid
       ∧ socks (counted st c now) !! c = Some ws'
       ∧ registry (counted st c now) = registry st).
Proof.
  intros ws'. subst ws'. split_and!.
  - intros H. by rewrite rateAllow_fresh.
  - intros H. by rewrite rateAllow_within.
  - unfold rateAllow. cbn [fst snd]. apply bool_decide_eq_true.
  - intros ts Hone Hts.
    assert (flood ws (now :: ts)
            = (λ i : nat, bool_decide (i < Z.to_nat RATE_LIMIT_MAX_MSG)%nat)
                <$> seq 0 (S (length ts))) as Hflood.
    { cbn [flood seq]. rewrite fmap_cons, flood_within by done.
      rewrite Hone, <- fmap_S_seq, <- list_fmap_compose. f_equal.
      - unfold rateAllow in *. cbn [fst snd _rateBucketCount] in *.
        rewrite Hone. done.
      - apply list_fmap_ext. intros _ i _. simpl. apply bool_decide_ext.
        unfold RATE_LIMIT_MAX_MSG. lia. }
    split; [done|]. rewrite Hflood. apply count_first.
  - intros st c parsed uuid Hc. split; [|by apply on_message_bucket].
    intros Hdrop. split; [|apply registry_counted].
    by rewrite (on_message_eq _ _ ws), Hdrop.
  - intros st c parsed uuid Hc Hallow. split_and!.
    + by rewrite (on_message_eq _ _ ws), Hallow.
    + by apply counted_lookup.
    + apply registry_counted.
Qed.

(** Forty-one messages within the first second of a connection: thirty are
    handled. *)
Lemma rate_limiter_witness :
  let ws := Socket None 0 0 1 None in
  length (filter (λ b, b = true) (flood ws (5 :: repeat 10 40))) = 30%nat.
Proof.
  intros ws.
  apply (proj2 (proj1 (proj2 (rate_limiter ws 5)) (repeat 10 40) eq_refl
                  ltac:(apply (bool_decide_unpack _); vm_compute; exact I))).
Defined.

(** *** Rooms of the registry *)

(** One connection joins the room [abc] and then closes: the registry is
    empty again. *)
Lemma last_leave_deletes :
  rooms (run initial [Connection 0; Message 0 1 (Some (join_msg "abc")) (js "id-0")]).1
    !! js "abc" = Some [0%nat]
  ∧ rooms (run initial [Connection 0; Message 0 1 (Some (join_msg "abc")) (js "id-0");
                        Close 0]).1 = ∅.
Proof. by vm_compute. Qed.

(** A connection that joins a second room is not taken out of the first:
    once it has closed, the first room still lists it. *)
Lemma rejoin_keeps_first_room :
  let st := (run initial [Connection 0;
                          Message 0 1 (Some (join_msg "abc")) (js "id-0");
                          Message 0 2 (Some (join_msg "xyz")) (js "id-1");
                          Close 0]).1 in
  rooms st !! js "abc" = Some [0%nat]
  ∧ rooms st !! js "xyz" = None
  ∧ readyState <$> socks st !! 0%nat = Some 3.
Proof. by vm_compute. Qed.

(** In a reachable state of this relay a room is in the registry exactly
    when its set has a member. *)
Lemma rooms_never_empty st r :
  reachable st → is_Some (rooms st !! r) ↔ members st r ≠ [].
Proof.
  intros Hinv%reachable_inv. unfold members. split.
  - intros [s Hs]. rewrite Hs. simpl. by apply (inv_rooms _ Hinv _ _ Hs).
  - destruct (rooms st !! r); [by eexists|done].
Qed.

(** *** Further properties of the relay *)

Lemma filter_all {A} (P : A → Prop) `{∀ x, Decision (P x)} l :
  Forall P l → filter P l = l.
Proof.
  induction 1 as [|x l Hx _ IH]; [done|]. by rewrite filter_cons_True, IH.
Qed.

Lemma take_filter_safe n (s : jsstring) :
  filter (λ u, safe_char u = true) (take n (filter (λ u, safe_char u = true) s))
  = take n (filter (λ u, safe_char u = true) s).
Proof.
  apply filter_all, Forall_take, list.Forall_forall.
  intros u Hu. by apply list_elem_of_filter in Hu as [Hu _].
Qed.

(** X1. An identifier that already consists of permitted characters and is
    at most [MAX_ROOM_ID_LEN] long is left as it is, and sanitising a
    sanitised identifier changes nothing. *)
Theorem sanitiseRoomId_fixed (s : jsstring) :
  (Forall (λ u, u ∈ alphabet) s → (length s ≤ MAX_ROOM_ID_LEN)%nat →
   sanitiseRoomId (JStr s) = s)
  ∧ ∀ raw, sanitiseRoomId (JStr (sanitiseRoomId raw)) = sanitiseRoomId raw.
Proof.
  split.
  - intros Hs Hlen. simpl. rewrite filter_all.
    + by apply take_ge.
    + eapply list.Forall_impl; [exact Hs|]. intros u Hu. by apply safe_char_alphabet.
  - intros raw. destruct raw; try done. simpl. rewrite take_filter_safe.
    by rewrite take_take, Nat.min_id.
Qed.

(** The identifier [room_42-b] is its own sanitised form. *)
Lemma sanitiseRoomId_fixed_witness :
  sanitiseRoomId (JStr (js "room_42-b")) = js "room_42-b".
Proof.
  apply (proj1 (sanitiseRoomId_fixed (js "room_42-b"))).
  - apply (bool_decide_unpack _). by vm_compute.
  - vm_compute. lia.
Defined.

Lemma dispatch_not_a_join st c ws parsed uuid :
  not_a_join parsed → (dispatch st c ws parsed uuid).1.1 = st.
Proof.
  intros Hnj. unfold dispatch. destruct parsed as [msg|]; [|done].
  destruct (prop (js "type") msg) as [|type] eqn:Hty; [done|].
  by rewrite (Hnj msg type).
Qed.

(** X2. Only a [JOIN_ROOM] can change the registry: whatever else arrives
    (a body that does not parse, a value that is not an object, an object
    of another or of no type, a message to relay) leaves the rooms, the
    cache and every connection's identifier, room and ready state as they
    were. And a message that is neither a [JOIN_ROOM] nor of a relayed type
    causes no send at all. *)
Theorem only_join_changes_registry (st : server) c now parsed uuid :
  (not_a_join parsed →
   registry (on_message st c now parsed uuid).1.1 = registry st)
  ∧ (ignored parsed → (on_message st c now parsed uuid).1.2 = []).
Proof.
  destruct (socks st !! c) as [ws|] eqn:Hc.
  2:{ rewrite on_message_absent by done. done. }
  rewrite (on_message_eq _ _ ws) by done. split.
  - intros Hnj. destruct (rateAllow now ws).2; [|apply registry_counted].
    rewrite dispatch_not_a_join by done. apply registry_counted.
  - intros Hig. destruct (rateAllow now ws).2; [|done].
    unfold dispatch. destruct parsed as [msg|]; [|done].
    destruct (prop (js "type") msg) as [|type] eqn:Hty; [done|].
    destruct (Hig msg type eq_refl Hty) as [-> Hrel]. cbn [fst snd].
    unfold relay. rewrite Hrel. by destruct (joined _).
Qed.

(** A message of the unknown type [PING] from a member of [abc]. *)
Lemma only_join_changes_registry_witness :
  let st := (run initial pair).1 in
  let ping := Some (JObj [(js "type", JStr (js "PING"))]) in
  registry (on_message st 1 3 ping (js "")).1.1 = registry st
  ∧ (on_message st 1 3 ping (js "")).1.2 = [].
Proof.
  intros st ping.
  pose proof (only_join_changes_registry st 1%nat 3 ping (js "")) as [H1 H2].
  split.
  - apply H1. intros msg type [= <-] [= <-]. reflexivity.
  - apply H2. intros msg type [= <-] [= <-]. split; reflexivity.
Defined.

(** X3. A body that parses to [null], once the rate limiter has let the
    message in, makes the handler throw, its [type] being unreadable:
    nothing is sent and only the sender's bucket has changed. Among the
    messages for which the handler serialises and sends nothing (those the
    limiter drops, bodies that do not parse, and values whose [type] is
    neither [JOIN_ROOM] nor a relayed type) this is the only one that
    makes it throw. *)
Theorem throws_on_null (st : server) c ws now parsed uuid :
  socks st !! c = Some ws →
  ((rateAllow now ws).2 = true →
   parsed = Some JNull ∨ parsed = Some JUndef →
   on_message st c now parsed uuid = (counted st c now, [], Throws))
  ∧ ((rateAllow now ws).2 = false ∨ ignored parsed →
     (on_message st c now parsed uuid).1.2 = []
     ∧ ((on_message st c now parsed uuid).2 = Throws ↔
        (rateAllow now ws).2 = true
        ∧ (parsed = Some JNull ∨ parsed = Some JUndef))).
Proof.
  intros Hc. rewrite (on_message_eq _ _ ws) by done. split.
  - intros -> [-> | ->]; done.
  - destruct (rateAllow now ws).2 eqn:Hallow.
    2:{ intros _. split; [done|]. split; [done|]. by intros [[=] _]. }
    intros [[=]|Hig]. unfold dispatch. destruct parsed as [msg|].
    2:{ split; [done|]. split; [done|]. by intros [_ [[=]|[=]]]. }
    destruct (prop (js "type") msg) as [|type] eqn:Hty.
    + split; [done|]. split; [|done]. intros _. split; [done|].
      destruct msg; simpl in Hty; try done; [by right|by left].
    + destruct (Hig msg type eq_refl Hty) as [-> Hrel]. cbn [fst snd]. split.
      * unfold relay. rewrite Hrel. by destruct (joined _).
      * split; [done|]. intros [_ [[= ->]|[= ->]]]; done.
Qed.

(** The body [null] from a connected socket. *)
Lemma throws_on_null_witness :
  let st := (run initial [Connection 0]).1 in
  on_message st 0 1 (Some JNull) (js "") = (counted st 0 1, [], Throws).
Proof.
  intros st.
  apply (proj1 (throws_on_null st 0%nat (Socket None 0 0 1 None) 1 (Some JNull)
                  (js "") eq_refl)); [reflexivity|by left].
Defined.

Lemma fan_out_ext st st' c room payload :
  (∀ p, p ≠ c → writable st' p ↔ writable st p) →
  fan_out st' c room payload = fan_out st c room payload.
Proof.
  intros Hw. unfold fan_out. f_equal. apply list_filter_iff. intros p.
  split; intros [Hne Hp]; (split; [done|]); by apply (Hw p Hne).
Qed.

Lemma fan_out_set_add st c room payload :
  fan_out st c (set_add c room) payload = fan_out st c room payload.
Proof.
  unfold set_add. case_decide; [done|]. unfold fan_out.
  rewrite list.filter_app, filter_cons_False, filter_nil, app_nil_r; [done|].
  by intros [? _].
Qed.

Lemma writable_with_sock st c w p :
  p ≠ c → writable (with_sock c w st) p ↔ writable st p.
Proof. intros Hne. unfold writable. simpl. by rewrite list_lookup_insert_ne. Qed.

Lemma rooms_counted st c now : rooms (counted st c now) = rooms st.
Proof. unfold counted. by destruct (socks st !! c). Qed.

(** X4. A [JOIN_ROOM] that the limiter lets in, for a room that is not at
    capacity: the sender is sent [ASSIGNED_PEER_ID] with the fresh
    identifier and the cached credentials, and after it every other open
    member of the room, as it was before the join, is sent [PEER_JOINED]
    with that identifier, once, in the order of the set. The sender is
    added to the room (made if it was missing), which becomes its current
    room, and no other room changes. *)
Theorem join_enters_room (st : server) c ws now ps uuid :
  socks st !! c = Some ws →
  (rateAllow now ws).2 = true →
  obj_get (js "type") ps = Some (JStr (js "JOIN_ROOM")) →
  let r := sanitiseRoomId (default JUndef (obj_get (js "roomId") ps)) in
  r ≠ [] →
  at_capacity (rooms st !! r) = false →
  let res := on_message st c now (Some (JObj ps)) uuid in
  res.1.2 = (c, ASSIGNED_PEER_ID uuid (_cachedIceServers st))
            :: fan_out st c (members st r) (PEER_JOINED uuid)
  ∧ members res.1.1 r = set_add c (members st r)
  ∧ (∀ r', r' ≠ r → rooms res.1.1 !! r' = rooms st !! r')
  ∧ (∃ w, socks res.1.1 !! c = Some w ∧ _peerId w = Some uuid
          ∧ currentRoom w = Some r)
  ∧ res.2 = Returns.
Proof.
  intros Hc Hallow Hty r Hr Hcap res. subst res.
  rewrite (on_message_eq _ _ ws), Hallow by done.
  unfold dispatch, prop. rewrite Hty. cbn [default from_option id].
  rewrite is_str_refl. unfold join_room. fold r.
  rewrite decide_False by done. rewrite rooms_counted, Hcap.
  unfold admitted, members. rewrite rooms_counted, cache_counted.
  cbn zeta. cbn [fst snd]. split_and!.
  - f_equal. rewrite fan_out_set_add.
    transitivity (fan_out (counted st c now) c (default [] (rooms st !! r))
                          (PEER_JOINED uuid)); [|apply fan_out_counted].
    apply fan_out_ext. intros p Hp. by rewrite writable_with_sock.
  - simpl. by rewrite lookup_insert_eq.
  - intros r' Hr'. simpl. by rewrite lookup_insert_ne.
  - eexists. split.
    + simpl. apply list_lookup_insert_eq.
      eapply lookup_lt_Some, counted_lookup, Hc.
    + done.
  - done.
Qed.

(** The second connection joins [abc], where the first one is. *)
Lemma join_enters_room_witness :
  let st := (run initial [Connection 0; Connection 0;
                          Message 0 1 (Some (join_msg "abc")) (js "id-0")]).1 in
  (on_message st 1 2 (Some (join_msg "abc")) (js "id-1")).1.2
  = [(1%nat, ASSIGNED_PEER_ID (js "id-1") (JArr []));
     (0%nat, PEER_JOINED (js "id-1"))].
Proof.
  intros st.
  apply (join_enters_room st 1%nat (Socket None 0 0 1 None) 2
           [(js "type", JStr (js "JOIN_ROOM")); (js "roomId", JStr (js "abc"))]
           (js "id-1")); by vm_compute.
Defined.

Lemma set_readyState_id st c w :
  socks st !! c = Some w → set_readyState st c (readyState w) = st.
Proof.
  intros Hc. unfold set_readyState, with_sock. rewrite Hc.
  destruct st as [ice rs ss], w as [p b n rd cr]. simpl in *.
  by rewrite list_insert_id.
Qed.

Lemma set_readyState_lookup st c v w :
  socks st !! c = Some w →
  socks (set_readyState st c v) !! c
  = Some (Socket (_peerId w) (_rateBucketStart w) (_rateBucketCount w) v (currentRoom w)).
Proof.
  intros Hc. unfold set_readyState. rewrite Hc. simpl.
  apply list_lookup_insert_eq. by eapply lookup_lt_Some.
Qed.

Lemma rooms_set_readyState st c v : rooms (set_readyState st c v) = rooms st.
Proof. unfold set_readyState. by destruct (socks st !! c). Qed.

Lemma set_delete_twice {A} `{EqDecision A} (x : A) s :
  set_delete x (set_delete x s) = set_delete x s.
Proof.
  unfold set_delete. apply filter_all, list.Forall_forall.
  intros y Hy. by apply list_elem_of_filter in Hy as [Hy _].
Qed.

Lemma set_delete_nonempty {A} `{EqDecision A} (x : A) s :
  set_delete x s ≠ [] ↔ ∃ y, y ∈ s ∧ y ≠ x.
Proof.
  unfold set_delete. split.
  - destruct (filter _ s) as [|y l] eqn:Hf; [done|]. intros _. exists y.
    assert (y ∈ filter (λ y, y ≠ x) s) as Hy by (rewrite Hf; left).
    apply list_elem_of_filter in Hy. tauto.
  - intros (y & Hy & Hne) Hnil.
    assert (y ∈ filter (λ y, y ≠ x) s) as Hin by (by apply list_elem_of_filter).
    rewrite Hnil in Hin. by apply not_elem_of_nil in Hin.
Qed.

(** What [on_close] does to the rooms, for a socket whose room is [r]. *)
Lemma on_close_rooms st c ws r :
  socks st !! c = Some ws → joined ws = Some r →
  rooms (on_close st c) =
  match rooms st !! r with
  | None => rooms st
  | Some room =>
      if decide (set_delete c room = [])
      then delete r (rooms st) else <[r := set_delete c room]> (rooms st)
  end.
Proof.
  intros Hc Hr. unfold on_close. rewrite Hc, Hr.
  destruct (rooms st !! r) as [room|]; [|done]. cbn zeta.
  destruct (decide (length (set_delete c room) = 0%nat)) as [Hl|Hl],
    (decide (set_delete c room = [])) as [Hd|Hd]; try done.
  - by destruct (set_delete c room).
  - by rewrite Hd in Hl.
Qed.

Lemma server_eq (st1 st2 : server) :
  _cachedIceServers st1 = _cachedIceServers st2 → rooms st1 = rooms st2 →
  socks st1 = socks st2 → st1 = st2.
Proof. destruct st1, st2. simpl. by intros -> -> ->. Qed.

Lemma on_close_idem st c : on_close (on_close st c) c = on_close st c.
Proof.
  apply server_eq; [by rewrite !cache_on_close| |by rewrite !socks_on_close].
  destruct (socks st !! c) as [ws|] eqn:Hc.
  2:{ unfold on_close. by rewrite !Hc. }
  destruct (joined ws) as [r|] eqn:Hr.
  2:{ unfold on_close. by rewrite !Hc, !Hr, ?Hc, ?Hr. }
  rewrite (on_close_rooms (on_close st c) c ws r)
    by (by rewrite ?socks_on_close).
  rewrite (on_close_rooms st c ws r) by done.
  destruct (rooms st !! r) as [room|] eqn:Hroom; [|by rewrite Hroom].
  case_decide as Hd.
  - by rewrite lookup_delete_eq.
  - rewrite lookup_insert_eq, set_delete_twice, decide_False by done.
    by rewrite insert_insert_eq.
Qed.

(** X5. When a socket closes it is taken out of its current room and of no
    other: the room keeps its other members in their order, and it stays in
    the registry exactly if it has another member; every other room is
    untouched, nothing is sent, and the socket is closed. A second [close]
    of the same socket changes nothing. *)
Theorem close_leaves_room (st : server) c ws :
  socks st !! c = Some ws →
  let st' := (step st (Close c)).1 in
  (∀ r, joined ws = Some r →
     members st' r = set_delete c (members st r)
     ∧ (is_Some (rooms st' !! r) ↔ ∃ p, p ∈ members st r ∧ p ≠ c))
  ∧ (∀ r', joined ws ≠ Some r' → rooms st' !! r' = rooms st !! r')
  ∧ (step st (Close c)).2 = []
  ∧ readyState <$> socks st' !! c = Some 3
  ∧ (step st' (Close c)).1 = st'.
Proof.
  intros Hc st'. subst st'. cbn [step fst snd].
  pose proof (set_readyState_lookup st c 3 ws Hc) as Hc3.
  set (ws3 := Socket _ _ _ 3 _) in Hc3.
  assert (joined ws3 = joined ws) as Hj by done.
  split_and!.
  - intros r Hr. unfold members.
    rewrite (on_close_rooms _ _ ws3 r), rooms_set_readyState by (done || congruence).
    destruct (rooms st !! r) as [room|] eqn:Hroom; simpl.
    + case_decide as Hd.
      * rewrite lookup_delete_eq, Hd. split; [done|].
        split; [by intros [? [=]]|]. intros Hex.
        by apply set_delete_nonempty in Hex.
      * rewrite lookup_insert_eq. split; [done|].
        split; [intros _; by apply set_delete_nonempty|by eexists].
    + rewrite Hroom. split; [done|].
      split; [by intros [? [=]]|]. by intros (p & Hp%not_elem_of_nil & _).
  - intros r' Hr'. destruct (joined ws) as [r|] eqn:Hr.
    + rewrite (on_close_rooms _ _ ws3 r), rooms_set_readyState by (done || congruence).
      assert (r ≠ r') as Hne by congruence.
      destruct (rooms st !! r) as [room|]; [|done].
      case_decide; [by rewrite lookup_delete_ne|by rewrite lookup_insert_ne].
    + unfold on_close. rewrite Hc3, Hj. apply (f_equal (.!! r')).
      apply rooms_set_readyState.
  - done.
  - by rewrite socks_on_close, Hc3.
  - rewrite (set_readyState_id _ _ ws3) by (by rewrite socks_on_close).
    apply on_close_idem.
Qed.

(** The first member of [abc] closes: the second stays, and so the room. *)
Lemma close_leaves_room_witness :
  let st := (run initial pair).1 in
  members (step st (Close 0)).1 (js "abc") = [1%nat]
  ∧ is_Some (rooms (step st (Close 0)).1 !! js "abc").
Proof.
  intros st.
  pose proof (proj1 (close_leaves_room st 0%nat
                       (Socket (Some (js "id-0")) 0 1 1 (Some (js "abc"))) eq_refl)
                (js "abc") eq_refl) as [H1 H2].
  split; [exact H1|]. apply H2. exists 1%nat.
  split; [apply (bool_decide_unpack _); by vm_compute|done].
Defined.

(** X6. The state of a connection (its identifier, its bucket of the rate
    limiter, its ready state, its current room) changes only through events
    of that connection: messages, however many, and the closing of other
    connections, new connections and credential fetches leave it as it
    is. *)
Theorem connections_are_isolated (st : server) (e : event) c ws :
  socks st !! c = Some ws →
  event_conn e ≠ Some c →
  socks (step st e).1 !! c = Some ws.
Proof.
  intros Hc He. destruct e as [now|c' now parsed uuid|c' v|c'|r]; cbn [step fst].
  - simpl. by apply lookup_app_l_Some.
  - assert (c ≠ c') as Hne by (intros ->; by apply He).
    apply (on_message_other st c' now parsed uuid c ws [] JNull Hne Hc).
  - assert (c' ≠ c) as Hne by (intros ->; by apply He).
    unfold set_readyState. destruct (socks st !! c'); [|done].
    simpl. by rewrite list_lookup_insert_ne.
  - assert (c' ≠ c) as Hne by (intros ->; by apply He).
    rewrite socks_on_close. unfold set_readyState.
    destruct (socks st !! c'); [|done]. simpl. by rewrite list_lookup_insert_ne.
  - destruct r as [|[v|]]; simpl; try done. by destruct (nonempty_array v).
Qed.

(** The first member of [abc] is as it was after a message of the second. *)
Lemma connections_are_isolated_witness :
  let st := (run initial pair).1 in
  socks (step st (Message 1 3 (Some (offer_msg "x")) (js ""))).1 !! 0%nat
  = Some (Socket (Some (js "id-0")) 0 1 1 (Some (js "abc"))).
Proof.
  intros st. apply connections_are_isolated; [reflexivity|discriminate].
Defined.

Lemma cache_after_run st es :
  (_cachedIceServers (run st es).1 = _cachedIceServers st
   ∧ ∀ r, Fetched r ∈ es → fetch_succeeds r = false)
  ∨ ∃ es1 es2 v,
      es = es1 ++ Fetched (ResponseEnd (Some v)) :: es2
      ∧ nonempty_array v = true
      ∧ _cachedIceServers (run st es).1 = v
      ∧ ∀ r, Fetched r ∈ es2 → fetch_succeeds r = false.
Proof.
  revert st. induction es as [|e es IH]; intros st.
  - left. split; [done|]. by intros r ?%not_elem_of_nil.
  - assert ((run st (e :: es)).1 = (run (step st e).1 es).1) as ->.
    { simpl. destruct (step st e) as [st1 out1]. simpl.
      by destruct (run st1 es) as [st2 out2]. }
    destruct (IH (step st e).1) as [[Hsame Hnone]|(es1 & es2 & v & -> & Hv & Hc & Hnone)].
    + rewrite Hsame.
      destruct e as [| | | |r]; try (left; split;
        [by apply cache_step_other
        |intros r [[=]|Hr]%elem_of_cons; by apply Hnone]).
      destruct (fetch_succeeds r) eqn:Hr.
      * right. destruct r as [|[v|]]; try done. exists [], es, v. simpl in *.
        by rewrite Hr.
      * left. split; [simpl; by rewrite fetch_failure|].
        intros r' [[= ->]|Hr']%elem_of_cons; [done|by apply Hnone].
    + right. by exists (e :: es1), es2, v.
Qed.

(** X7. The cached credentials are those of the latest fetch that
    succeeded: after any history of the process the cache is either still
    the initial empty array, no fetch having succeeded, or the array that
    the last successful fetch returned, every fetch after it having
    failed. *)
Theorem cache_is_latest_fetch (es : list event) :
  (_cachedIceServers (run initial es).1 = JArr []
   ∧ ∀ r, Fetched r ∈ es → fetch_succeeds r = false)
  ∨ ∃ es1 es2 v,
      es = es1 ++ Fetched (ResponseEnd (Some v)) :: es2
      ∧ nonempty_array v = true
      ∧ _cachedIceServers (run initial es).1 = v
      ∧ ∀ r, Fetched r ∈ es2 → fetch_succeeds r = false.
Proof. apply (cache_after_run initial es). Qed.

(** *** Sockets along a history *)

Lemma socks_length_on_message st c now parsed uuid :
  length (socks (on_message st c now parsed uuid).1.1) = length (socks st).
Proof.
  destruct (socks st !! c) as [ws|] eqn:Hc.
  2:{ by rewrite on_message_absent. }
  assert (length (socks (counted st c now)) = length (socks st)) as Hlen.
  { unfold counted. rewrite Hc. simpl. apply length_insert. }
  rewrite (on_message_eq _ _ ws) by done.
  destruct (rateAllow now ws).2; [|done].
  destruct (dispatch_cases (counted st c now) c (rateAllow now ws).1 parsed uuid)
    as [(out & -> & _)|[raw ->]]; [done|].
  simpl. by rewrite length_insert.
Qed.

Lemma socks_length_step st e :
  length (socks (step st e).1)
  = (length (socks st) + match e with Connection _ => 1 | _ => 0 end)%nat.
Proof.
  destruct e as [now|c now parsed uuid|c v|c|r]; cbn [step fst].
  - simpl. by rewrite length_app.
  - rewrite socks_length_on_message. lia.
  - unfold set_readyState. destruct (socks st !! c); simpl;
      rewrite ?length_insert; lia.
  - rewrite socks_on_close. unfold set_readyState.
    destruct (socks st !! c); simpl; rewrite ?length_insert; lia.
  - destruct r as [|[v|]]; simpl; try lia. destruct (nonempty_array v); simpl; lia.
Qed.

(** A socket after an event was there before it, or has just connected. *)
Lemma socket_before st e c w :
  socks (step st e).1 !! c = Some w →
  is_Some (socks st !! c)
  ∨ ∃ now, e = Connection now ∧ w = Socket None now 0 1 None.
Proof.
  intros Hw. destruct (socks st !! c) as [w0|] eqn:Hc; [left; by eexists|].
  right. apply lookup_ge_None in Hc. pose proof (lookup_lt_Some _ _ _ Hw) as Hlt.
  rewrite socks_length_step in Hlt.
  destruct e as [now| | | |]; try lia. exists now. split; [done|].
  simpl in Hw. rewrite lookup_app_r in Hw by done.
  apply list_lookup_singleton_Some in Hw as [_ <-]. done.
Qed.

(** What an event does to the identifier and the room of a socket: it
    leaves them, or it is a join of that socket that was let in. *)
Lemma socket_step st e c w0 :
  socks st !! c = Some w0 →
  ∃ w, socks (step st e).1 !! c = Some w
  ∧ ((_peerId w = _peerId w0 ∧ currentRoom w = currentRoom w0
      ∧ (event_conn e = Some c → ∀ r, e ≠ Close c →
           members (step st e).1 r = members st r))
     ∨ ∃ now parsed uuid raw,
         e = Message c now parsed uuid
         ∧ _peerId w = Some uuid ∧ currentRoom w = Some (sanitiseRoomId raw)
         ∧ c ∈ members (step st e).1 (sanitiseRoomId raw)).
Proof.
  intros Hc. destruct (decide (event_conn e = Some c)) as [He|He].
  2:{ exists w0. split; [|left; by auto].
      destruct e as [now|c' now parsed uuid|c' v|c'|r]; cbn [step fst].
      - simpl. by apply lookup_app_l_Some.
      - assert (c ≠ c') as Hne by (intros ->; by apply He).
        apply (on_message_other st c' now parsed uuid c w0 [] JNull Hne Hc).
      - assert (c' ≠ c) as Hne by (intros ->; by apply He).
        unfold set_readyState. destruct (socks st !! c'); [|done].
        simpl. by rewrite list_lookup_insert_ne.
      - assert (c' ≠ c) as Hne by (intros ->; by apply He).
        rewrite socks_on_close. unfold set_readyState.
        destruct (socks st !! c'); [|done]. simpl. by rewrite list_lookup_insert_ne.
      - destruct r as [|[v|]]; simpl; try done. by destruct (nonempty_array v). }
  destruct e as [now|c' now parsed uuid|c' v|c'|r]; cbn [event_conn] in He;
    try done; injection He as ->; cbn [step fst].
  - pose proof (counted_lookup _ _ _ now Hc) as Hc1.
    rewrite (on_message_eq _ _ w0) by done.
    destruct (rateAllow now w0).2.
    { destruct (dispatch_cases (counted st c now) c (rateAllow now w0).1 parsed uuid)
        as [(out & -> & _)|[raw ->]]; cbn [fst].
      - eexists. split; [exact Hc1|]. left. split_and!; [done..|].
        intros _ r _. unfold members. by rewrite rooms_counted.
      - eexists. split.
        + simpl. apply list_lookup_insert_eq. by eapply lookup_lt_Some.
        + right. exists now, parsed, uuid, raw. split_and!; [done..|].
          unfold members. simpl. rewrite lookup_insert_eq. simpl.
          apply set_add_elem. by left. }
    cbn [fst]. eexists. split; [exact Hc1|]. left. split_and!; [done..|].
    intros _ r _. unfold members. by rewrite rooms_counted.
  - eexists. split; [by apply set_readyState_lookup|]. left. split_and!; [done..|].
    intros _ r _. unfold members. by rewrite rooms_set_readyState.
  - eexists. split; [rewrite socks_on_close; by apply set_readyState_lookup|].
    left. split_and!; [done..|]. by intros _ r.
Qed.

Lemma uuid_in es c now parsed u : Message c now parsed u ∈ es → u ∈ uuids es.
Proof. intros Hin. apply list_elem_of_omap. by eexists. Qed.

Lemma uuid_twice es c1 c2 n1 p1 n2 p2 u :
  c1 ≠ c2 → Message c1 n1 p1 u ∈ es → Message c2 n2 p2 u ∈ es →
  ¬ NoDup (uuids es).
Proof.
  intros Hne. induction es as [|e es IH]; [by intros ?%not_elem_of_nil|].
  intros [<-|H1]%elem_of_cons [Heq|H2]%elem_of_cons; simpl.
  - congruence.
  - intros [Hu _]%list.NoDup_cons. apply Hu. by eapply uuid_in.
  - subst e. simpl. intros [Hu _]%list.NoDup_cons. apply Hu. by eapply uuid_in.
  - intros Hnd. apply IH; [done..|].
    destruct e; simpl in Hnd; try done. by apply list.NoDup_cons in Hnd as [_ ?].
Qed.

Lemma peerId_from_history es c w u :
  socks (run initial es).1 !! c = Some w → _peerId w = Some u →
  ∃ now parsed, Message c now parsed u ∈ es.
Proof.
  revert c w u. induction es as [|e es IH] using rev_ind; intros c w u Hw Hu.
  { simpl in Hw. by rewrite lookup_nil in Hw. }
  rewrite run_snoc in Hw.
  destruct (socket_before _ _ _ _ Hw) as [[w0 Hw0]|(now & _ & ->)]; [|done].
  destruct (socket_step _ e _ _ Hw0) as (w' & Hw' & Hcase).
  assert (w' = w) as -> by congruence.
  destruct Hcase as [(Hid & _ & _)|(now & parsed & uuid & raw & -> & Hid & _)].
  - destruct (IH c w0 u Hw0) as (now & parsed & Hin); [congruence|].
    exists now, parsed. apply elem_of_app. by left.
  - assert (uuid = u) as -> by congruence.
    exists now, parsed. apply elem_of_app. right. by left.
Qed.

(** X8. Peer identifiers are as distinct as the values [randomUUID()]
    returns: in a history where these values differ from message to
    message, no two connections hold the same identifier. *)
Theorem peer_ids_distinct (es : list event) c1 c2 w1 w2 u :
  NoDup (uuids es) →
  c1 ≠ c2 →
  socks (run initial es).1 !! c1 = Some w1 →
  socks (run initial es).1 !! c2 = Some w2 →
  _peerId w1 = Some u →
  _peerId w2 ≠ Some u.
Proof.
  intros Hnd Hne H1 H2 Hu1 Hu2.
  destruct (peerId_from_history _ _ _ _ H1 Hu1) as (n1 & p1 & Hin1).
  destruct (peerId_from_history _ _ _ _ H2 Hu2) as (n2 & p2 & Hin2).
  by apply (uuid_twice es c1 c2 n1 p1 n2 p2 u).
Qed.

(** The two members of [abc] have different identifiers. *)
Lemma peer_ids_distinct_witness :
  _peerId (Socket (Some (js "id-1")) 0 1 1 (Some (js "abc"))) ≠ Some (js "id-0").
Proof.
  apply (peer_ids_distinct pair 0%nat 1%nat
           (Socket (Some (js "id-0")) 0 1 1 (Some (js "abc")))
           (Socket (Some (js "id-1")) 0 1 1 (Some (js "abc"))) (js "id-0"));
    try reflexivity; try discriminate.
  apply (bool_decide_unpack _). by vm_compute.
Defined.

Lemma member_kept st e c r :
  c ∈ members st r → e ≠ Close c → c ∈ members (step st e).1 r.
Proof.
  intros Hin He. destruct e as [now|c' now parsed uuid|c' v|c'|f]; cbn [step fst].
  - done.
  - destruct (socks st !! c') as [ws|] eqn:Hc'.
    2:{ by rewrite on_message_absent. }
    rewrite (on_message_eq _ _ ws) by done.
    assert (members (counted st c' now) r = members st r) as Hm
      by (unfold members; by rewrite rooms_counted).
    destruct (rateAllow now ws).2; [|cbn [fst]; by rewrite Hm].
    destruct (dispatch_cases (counted st c' now) c' (rateAllow now ws).1 parsed uuid)
      as [(out & -> & _)|[raw ->]]; [cbn [fst]; by rewrite Hm|].
    unfold members in *. simpl. rewrite rooms_counted in *.
    destruct (decide (sanitiseRoomId raw = r)) as [->|Hr].
    + rewrite lookup_insert_eq. simpl. apply set_add_elem. right.
      unfold members. by rewrite rooms_counted.
    + by rewrite lookup_insert_ne.
  - unfold members. by rewrite rooms_set_readyState.
  - assert (c ≠ c') as Hne by (intros ->; by apply He).
    assert (members (set_readyState st c' 3) r = members st r) as Hm
      by (unfold members; by rewrite rooms_set_readyState).
    destruct (socks (set_readyState st c' 3) !! c') as [ws|] eqn:Hc'.
    2:{ unfold on_close. by rewrite Hc', Hm. }
    destruct (joined ws) as [r'|] eqn:Hr'.
    2:{ unfold on_close. by rewrite Hc', Hr', Hm. }
    unfold members in *. rewrite (on_close_rooms _ _ ws r') by done.
    destruct (rooms (set_readyState st c' 3) !! r') as [room|] eqn:Hroom;
      [|by rewrite Hm].
    destruct (decide (r' = r)) as [->|Hr].
    + rewrite Hroom in Hm. simpl in Hm.
      assert (c ∈ set_delete c' room) as Hc.
      { apply list_elem_of_filter. split; [done|]. by rewrite Hm. }
      rewrite decide_False.
      * by rewrite lookup_insert_eq.
      * intros Hnil. rewrite Hnil in Hc. by apply not_elem_of_nil in Hc.
    + rewrite <- Hm in Hin.
      case_decide; [by rewrite lookup_delete_ne|by rewrite lookup_insert_ne].
  - destruct f as [|[v|]]; simpl; try done. by destruct (nonempty_array v).
Qed.

(** X9. A socket that has not closed is listed in its current room: in any
    history without a [close] of the connection, the connection is a
    member of the room that its [currentRoom] names. *)
Theorem connected_is_listed (es : list event) c w r :
  Close c ∉ es →
  socks (run initial es).1 !! c = Some w →
  currentRoom w = Some r →
  c ∈ members (run initial es).1 r.
Proof.
  revert w r. induction es as [|e es IH] using rev_ind; intros w r Hopen Hw Hr.
  { simpl in Hw. by rewrite lookup_nil in Hw. }
  rewrite run_snoc in Hw |- *.
  assert ((Close c ∉ es) ∧ (e ≠ Close c)) as [Hes He].
  { split.
    - intros Hin. apply Hopen, elem_of_app. by left.
    - intros ->. apply Hopen, elem_of_app. right. by left. }
  destruct (socket_before _ _ _ _ Hw) as [[w0 Hw0]|(now & _ & ->)]; [|done].
  destruct (socket_step _ e _ _ Hw0) as (w' & Hw' & Hcase).
  assert (w' = w) as -> by congruence.
  destruct Hcase as [(_ & Hroom & _)|(now & parsed & uuid & raw & -> & _ & Hroom & Hin)].
  - apply member_kept; [|done]. apply (IH w0); [done..|congruence].
  - by assert (r = sanitiseRoomId raw) as -> by congruence.
Qed.

(** The second member of [abc], still connected, is listed there. *)
Lemma connected_is_listed_witness : 1%nat ∈ members (run initial pair).1 (js "abc").
Proof.
  apply (connected_is_listed pair 1%nat
           (Socket (Some (js "id-1")) 0 1 1 (Some (js "abc")))).
  - intros Hin. unfold pair in Hin.
    repeat (apply elem_of_cons in Hin as [?|Hin]; [done|]).
    by apply not_elem_of_nil in Hin.
  - reflexivity.
  - reflexivity.
Defined.

End Relay.

(** ** The older relay, appended to the client file *)

Module OldRelay.

(** This relay takes [msg.roomId] as the key of the room as it is, without
    sanitising it. A [Map] compares keys by SameValueZero: [K] stands for
    the values so compared, [key_of v] for [v] as a key, [null] for the
    initial value of [currentRoom], and [key_truthy] for the test
    [currentRoom && ...]. *)
Section OldRelay.

Context {K : Type} `{Countable K}.
Variable key_of : jsval → K.
Variable null : K.
Variable key_truthy : K → bool.

Record socket := Socket {
  _peerId : option jsstring;
  readyState : Z;
  currentRoom : K
}.

Record server := Server {
  rooms : gmap K (list conn);
  socks : list socket
}.

Definition ASSIGNED_PEER_ID (peerId : jsstring) : jsval :=
  JObj [(js "type", JStr (js "ASSIGNED_PEER_ID")); (js "peerId", JStr peerId)].

Definition writable (st : server) (p : conn) : Prop :=
  readyState <$> socks st !! p = Some 1.

#[local] Instance old_writable_dec st p : Decision (writable st p).
Proof. unfold writable. apply _. Defined.

Definition fan_out (st : server) (c : conn) (room : list conn) (payload : jsval)
  : list sent :=
  (λ p, (p, payload)) <$> filter (λ p, p ≠ c ∧ writable st p) room.

(** [ws.on('message', ...)]; [rnd] is the string that
    [Math.random().toString(36).slice(2)] yields if it is evaluated. *)
Definition on_message (st : server) (c : conn) (parsed : option jsval)
    (rnd : jsstring) : server * list sent * completion :=
  match socks st !! c, parsed with
  | Some ws, Some msg =>
      match prop (js "type") msg with
      | Raises => (st, [], Throws)
      | Value type =>
          if is_str (js "JOIN_ROOM") type then
            let room := key_of (field "roomId" msg) in
            let members := set_add c (default [] (rooms st !! room)) in
            let st' := Server (<[room := members]> (rooms st))
                              (<[c := Socket (Some rnd) (readyState ws) room]> (socks st)) in
            (st', (c, ASSIGNED_PEER_ID rnd)
                  :: fan_out st' c members (PEER_JOINED rnd), Returns)
          else if relayed_type type then
            match rooms st !! currentRoom ws with
            | None => (st, [], Returns)
            | Some room =>
                (st, fan_out st c room
                       (JObj (obj_set (js "peerId") (from_option JStr JUndef (_peerId ws))
                                      (own_props msg))),
                 Returns)
            end
          else (st, [], Returns)
      end
  | _, _ => (st, [], Returns)
  end.

(** [ws.on('close', ...)]: the socket leaves the set; the room stays. *)
Definition on_close (st : server) (c : conn) : server :=
  match socks st !! c with
  | None => st
  | Some ws =>
      if key_truthy (currentRoom ws) then
        match rooms st !! currentRoom ws with
        | None => st
        | Some room =>
            Server (<[currentRoom ws := set_delete c room]> (rooms st)) (socks st)
        end
      else st
  end.

Inductive event :=
| Connection
| Message (c : conn) (parsed : option jsval) (rnd : jsstring)
| Close (c : conn).

Definition step (st : server) (e : event) : server * list sent :=
  match e with
  | Connection => (Server (rooms st) (socks st ++ [Socket None 1 null]), [])
  | Message c parsed rnd => (on_message st c parsed rnd).1
  | Close c =>
      (on_close (Server (rooms st)
                   (alter (λ ws, Socket (_peerId ws) 3 (currentRoom ws)) c (socks st))) c,
       [])
  end.

Fixpoint run (st : server) (es : list event) : server * list sent :=
  match es with
  | [] => (st, [])
  | e :: es' =>
      let '(st1, out1) := step st e in
      let '(st2, out2) := run st1 es' in
      (st2, out1 ++ out2)
  end.

Definition initial : server := Server ∅ [].

(** X10. The older relay lets every [JOIN_ROOM] of a connected socket in:
    whatever the message has as [roomId] is taken as the room, unsanitised,
    and however many members the room has, the socket is added, takes the
    random string as its identifier and is sent [ASSIGNED_PEER_ID]. And it
    never takes a room out of the registry again. *)
Theorem old_relay_admits_and_keeps (st : server) :
  (∀ c ws ps rnd,
     socks st !! c = Some ws →
     obj_get (js "type") ps = Some (JStr (js "JOIN_ROOM")) →
     let room := key_of (field "roomId" (JObj ps)) in
     let res := on_message st c (Some (JObj ps)) rnd in
     c ∈ default [] (rooms res.1.1 !! room)
     ∧ head res.1.2 = Some (c, ASSIGNED_PEER_ID rnd)
     ∧ socks res.1.1 !! c = Some (Socket (Some rnd) (readyState ws) room))
  ∧ (∀ e room, is_Some (rooms st !! room) → is_Some (rooms (step st e).1 !! room)).
Proof.
  split.
  - intros c ws ps rnd Hc Hty room res. subst res.
    unfold on_message, prop. rewrite Hc, Hty. cbn [default from_option id].
    rewrite is_str_refl. fold room. cbn [fst snd rooms socks head]. split_and!.
    + rewrite lookup_insert_eq. simpl. unfold set_add. case_decide; [done|].
      apply elem_of_app. right. by left.
    + done.
    + apply list_lookup_insert_eq. by eapply lookup_lt_Some.
  - intros e room Hroom. destruct e as [|c parsed rnd|c]; cbn [step fst].
    + done.
    + unfold on_message. destruct (socks st !! c) as [ws|]; [|done].
      destruct parsed as [msg|]; [|done].
      destruct (prop (js "type") msg) as [|type]; [done|].
      destruct (is_str _ type).
      * cbn [fst rooms]. rewrite lookup_insert. by case_decide.
      * destruct (relayed_type type); [|done].
        by destruct (rooms st !! currentRoom ws).
    + unfold on_close. cbn [socks rooms].
      destruct (alter _ c (socks st) !! c) as [ws|]; [|done].
      destruct (key_truthy (currentRoom ws)); [|done].
      destruct (rooms st !! currentRoom ws); [|done].
      cbn [rooms]. rewrite lookup_insert. by case_decide.
Qed.

End OldRelay.

(** Keys for the runs below: a string is filed by its code units, every
    other value as [None]. *)
Definition string_key (v : jsval) : option jsstring :=
  match v with
  | JStr s => Some s
  | _ => None
  end.

Definition string_key_truthy (k : option jsstring) : bool :=
  match k with
  | Some (_ :: _) => true
  | _ => false
  end.

(** One connection joins the room [abc] and then closes. *)
Definition join_and_leave : list event :=
  [Connection; Message 0 (Some (Relay.join_msg "abc")) (js "k3x9"); Close 0].

(** C3, on the older relay: after its only member has left, the room [abc]
    is still in the registry, with an empty set of members. (The relay of
    [signal_server.js] deletes the room on the same input, see
    [Relay.rooms_never_empty] and [Relay.last_leave_deletes].) *)
Theorem old_relay_keeps_empty_room :
  rooms (run string_key None string_key_truthy initial join_and_leave).1
    !! Some (js "abc")
  = Some [].
Proof. by vm_compute. Qed.

(** No sanitising: the identifier [a b!] is a room of its own. *)
Lemma old_relay_admits_and_keeps_witness :
  let st := (run string_key None string_key_truthy initial [Connection]).1 in
  let res := on_message string_key st 0
               (Some (JObj [(js "type", JStr (js "JOIN_ROOM"));
                            (js "roomId", JStr (js "a b!"))])) (js "k3x9") in
  0%nat ∈ default [] (rooms res.1.1 !! Some (js "a b!"))
  ∧ head res.1.2 = Some (0%nat, ASSIGNED_PEER_ID (js "k3x9"))
  ∧ socks res.1.1 !! 0%nat = Some (Socket (Some (js "k3x9")) 1 (Some (js "a b!"))).
Proof.
  intros st.
  apply (proj1 (old_relay_admits_and_keeps string_key None string_key_truthy st)
           0%nat (Socket None 1 None)); reflexivity.
Defined.

End OldRelay.

(** ** The browser side: [multiplayer/signaling.js] *)

Module Client.

(** *** The peer transport *)

(** [RTCPeerConnection] and [RTCDataChannel] belong to the browser. The
    model keeps of a transport what the client code reads or sets
    ([signalingState], the two handlers it installs) and what its calls
    change (the remote description, the candidates that were added); a
    handler is recorded by the peer identifier its closure captured. *)
Inductive signaling := stable | have_local_offer | have_remote_offer | closed.

#[global] Instance signaling_eq_dec : EqDecision signaling.
Proof. solve_decision. Defined.

Inductive sdp_type := offer | answer.

Record transport := Transport {
  iceServers : jsval;
  signalingState : signaling;
  remoteDescription : option (sdp_type * jsval);
  candidates : list jsval;
  onicecandidate : option jsval;
  ondatachannel : option jsval
}.

Inductive channel_state := connecting | open | closing | channel_closed.

(** A data channel: [wired] holds the [peerId] and [isHostSide] captured by
    the handlers of [_setupChannel], [onclose] tells whether its [onclose]
    handler is still set. *)
Record channel := Channel {
  ch_readyState : channel_state;
  wired : option (jsval * bool);
  onclose : bool
}.

(** What the client asks of the browser, the relay and the application,
    in the order it asks. *)
Inductive call :=
| new_RTCPeerConnection (pc : nat) (servers : jsval)
| createDataChannel (pc ch : nat)
| createOffer (pc : nat)
| createAnswer (pc : nat)
| setLocalDescription (pc : nat) (type : sdp_type) (sdp : jsval)
| setRemoteDescription (pc : nat) (type : sdp_type) (sdp : jsval)
| addIceCandidate (pc : nat) (candidate : jsval)
| close_transport (pc : nat)
| close_channel (ch : nat)
| close_socket
| sigSend (msg : jsval)
| onHostPeerJoined (peerId : jsval)
| onDisconnect (peerId : jsval) (isHostSide : bool).

Section Client.

(** A [Map] keyed by peer identifier compares keys by SameValueZero: [K]
    stands for the values so compared and [key_of v] for [v] as a key. *)
Context {K : Type} `{EqDecision K}.
Variable key_of : jsval → K.

(** The browser decides which descriptions and candidates it accepts and
    which description [createOffer] and [createAnswer] produce for a
    transport. *)
Variable sdp_accepted : sdp_type → jsval → bool.
Variable candidate_accepted : jsval → bool.
Variable created_sdp : nat → jsval.

(** *** A [Map], in insertion order *)

Fixpoint map_get {V} (k : K) (m : list (K * V)) : option V :=
  match m with
  | [] => None
  | (k', v) :: r => if decide (k' = k) then Some v else map_get k r
  end.

Fixpoint map_set {V} (k : K) (v : V) (m : list (K * V)) : list (K * V) :=
  match m with
  | [] => [(k, v)]
  | (k', v') :: r =>
      if decide (k' = k) then (k, v) :: r else (k', v') :: map_set k v r
  end.

Definition map_delete {V} (k : K) (m : list (K * V)) : list (K * V) :=
  filter (λ e, e.1 ≠ k) m.

(** *** Module state *)

(** [role] is [opts.role] of the [connectSignaling] call in force;
    [_signalingSocket] tells whether the variable holds a socket;
    [transports] and [channels] are the objects allocated so far, named by
    position. *)
Record client := Client {
  role : jsval;
  peerConnections : list (K * nat);
  dataChannels : list (K * nat);
  _signalingSocket : bool;
  _myPeerId : jsval;
  _resolvedIceServers : jsval;
  transports : list transport;
  channels : list channel
}.

Definition with_peerConnections (f : list (K * nat) → list (K * nat)) (s : client) :=
  Client (role s) (f (peerConnections s)) (dataChannels s) (_signalingSocket s)
         (_myPeerId s) (_resolvedIceServers s) (transports s) (channels s).
Definition with_dataChannels (f : list (K * nat) → list (K * nat)) (s : client) :=
  Client (role s) (peerConnections s) (f (dataChannels s)) (_signalingSocket s)
         (_myPeerId s) (_resolvedIceServers s) (transports s) (channels s).
Definition with_transports (f : list transport → list transport) (s : client) :=
  Client (role s) (peerConnections s) (dataChannels s) (_signalingSocket s)
         (_myPeerId s) (_resolvedIceServers s) (f (transports s)) (channels s).
Definition with_channels (f : list channel → list channel) (s : client) :=
  Client (role s) (peerConnections s) (dataChannels s) (_signalingSocket s)
         (_myPeerId s) (_resolvedIceServers s) (transports s) (f (channels s)).

(** *** Handlers as computations *)

(** A computation reads and writes the module state, makes calls, and
    either yields a value or is left by an exception ([None]): a rejected
    promise at an [await] or a TypeError. Each handler is run to its end
    before the next event is taken: the operations it awaits settle at
    once. *)
Definition M (A : Type) : Type := client → client * list call * option A.

#[local] Instance M_ret : MRet M := λ A a s, (s, [], Some a).
#[local] Instance M_bind : MBind M := λ A B k m s,
  let '(s1, l1, r) := m s in
  match r with
  | None => (s1, l1, None)
  | Some a => let '(s2, l2, r') := k a s1 in (s2, l1 ++ l2, r')
  end.

Definition state : M client := λ s, (s, [], Some s).
Definition update (f : client → client) : M () := λ s, (f s, [], Some ()).
Definition does (c : call) : M () := λ s, (s, [c], Some ()).
Definition throw {A} : M A := λ s, (s, [], None).

(** [try { await m } catch {}] *)
Definition try_catch (m : M ()) : M () := λ s,
  let '(s', l, _) := m s in (s', l, Some ()).

(** A call on the transport [pc] whose effect on it is [f]; the promise is
    rejected when [f] gives nothing. *)
Definition on_transport (pc : nat) (c : call) (f : transport → option transport)
  : M () := λ s,
  match transports s !! pc ≫= f with
  | Some t => (with_transports <[pc := t]> s, [c], Some ())
  | None => (s, [c], None)
  end.

(** *** What the browser does with the calls *)

Definition apply_remote (ty : sdp_type) (sdp : jsval) (t : transport)
  : option transport :=
  let set st := Some (Transport (iceServers t) st (Some (ty, sdp)) (candidates t)
                                (onicecandidate t) (ondatachannel t)) in
  if sdp_accepted ty sdp then
    match ty, signalingState t with
    | offer, stable => set have_remote_offer
    | answer, have_local_offer => set stable
    | _, _ => None
    end
  else None.

Definition apply_local (ty : sdp_type) (t : transport) : option transport :=
  let set st := Some (Transport (iceServers t) st (remoteDescription t) (candidates t)
                                (onicecandidate t) (ondatachannel t)) in
  match ty, signalingState t with
  | offer, stable => set have_local_offer
  | answer, have_remote_offer => set stable
  | _, _ => None
  end.

(** Without a remote description a candidate is refused. *)
Definition add_candidate (candidate : jsval) (t : transport) : option transport :=
  match signalingState t, remoteDescription t with
  | closed, _ | _, None => None
  | _, Some _ =>
      if candidate_accepted candidate then
        Some (Transport (iceServers t) (signalingState t) (remoteDescription t)
                        (candidates t ++ [candidate])
                        (onicecandidate t) (ondatachannel t))
      else None
  end.

Definition can_offer (t : transport) : option transport :=
  match signalingState t with
  | closed => None
  | _ => Some t
  end.

Definition can_answer (t : transport) : option transport :=
  match signalingState t with
  | have_remote_offer => Some t
  | _ => None
  end.

(** *** The functions of the module *)

Definition _sigSend (msg : jsval) : M () := λ s,
  if _signalingSocket s then (s, [sigSend msg], Some ()) else (s, [], None).

Definition _setupChannel (ch : nat) (peerId : jsval) (isHostSide : bool) : M () :=
  update (with_dataChannels (map_set (key_of peerId) ch));;
  update (with_channels
            (alter (λ c, Channel (ch_readyState c) (Some (peerId, isHostSide)) true) ch)).

(** [new RTCPeerConnection({ iceServers })] *)
Definition new_transport (servers : jsval) : M nat :=
  s ← state;
  let pc := length (transports s) in
  does (new_RTCPeerConnection pc servers);;
  update (with_transports (λ ts, ts ++ [Transport servers stable None [] None None]));;
  mret pc.

Definition set_onicecandidate (pc : nat) (h : option jsval) : M () :=
  update (with_transports
            (alter (λ t, Transport (iceServers t) (signalingState t)
                                   (remoteDescription t) (candidates t)
                                   h (ondatachannel t)) pc)).

Definition set_ondatachannel (pc : nat) (h : option jsval) : M () :=
  update (with_transports
            (alter (λ t, Transport (iceServers t) (signalingState t)
                                   (remoteDescription t) (candidates t)
                                   (onicecandidate t) h) pc)).

Definition described (type : string) (peerId sdp : jsval) : jsval :=
  JObj [(js "type", JStr (js type)); (js "peerId", peerId); (js "sdp", sdp)].

Definition _hostCreateOffer (peerId servers : jsval) : M () :=
  pc ← new_transport servers;
  update (with_peerConnections (map_set (key_of peerId) pc));;
  s ← state;
  let ch := length (channels s) in
  does (createDataChannel pc ch);;
  update (with_channels (λ cs, cs ++ [Channel connecting None false]));;
  _setupChannel ch peerId true;;
  set_onicecandidate pc (Some peerId);;
  on_transport pc (createOffer pc) can_offer;;
  on_transport pc (setLocalDescription pc offer (created_sdp pc)) (apply_local offer);;
  _sigSend (described "OFFER" peerId (created_sdp pc)).

Definition _clientHandleOffer (hostPeerId sdp servers : jsval) : M () :=
  pc ← new_transport servers;
  update (with_peerConnections (map_set (key_of hostPeerId) pc));;
  set_ondatachannel pc (Some hostPeerId);;
  set_onicecandidate pc (Some hostPeerId);;
  on_transport pc (setRemoteDescription pc offer sdp) (apply_remote offer sdp);;
  on_transport pc (createAnswer pc) can_answer;;
  on_transport pc (setLocalDescription pc answer (created_sdp pc)) (apply_local answer);;
  _sigSend (described "ANSWER" hostPeerId (created_sdp pc)).

(** The [message] listener that [connectSignaling] puts on the socket. *)
Definition on_signal (parsed : option jsval) : M () :=
  match parsed with
  | None => mret ()
  | Some msg =>
      match prop (js "type") msg with
      | Raises => throw
      | Value type =>
          s ← state;
          if is_str (js "ASSIGNED_PEER_ID") type then
            update (λ s, Client (role s) (peerConnections s) (dataChannels s)
                           (_signalingSocket s) (field "peerId" msg)
                           (if nonempty_array (field "iceServers" msg)
                            then field "iceServers" msg else _resolvedIceServers s)
                           (transports s) (channels s))
          else if is_str (js "PEER_JOINED") type then
            if is_str (js "host") (role s) then
              _hostCreateOffer (field "peerId" msg) (_resolvedIceServers s);;
              does (onHostPeerJoined (field "peerId" msg))
            else mret ()
          else if is_str (js "OFFER") type then
            if is_str (js "client") (role s) then
              _clientHandleOffer (field "peerId" msg) (field "sdp" msg)
                                 (_resolvedIceServers s)
            else mret ()
          else if is_str (js "ANSWER") type then
            match map_get (key_of (field "peerId" msg)) (peerConnections s) with
            | Some pc =>
                if bool_decide (signalingState <$> transports s !! pc = Some have_local_offer)
                then on_transport pc (setRemoteDescription pc answer (field "sdp" msg))
                                  (apply_remote answer (field "sdp" msg))
                else mret ()
            | None => mret ()
            end
          else if is_str (js "ICE_CANDIDATE") type then
            match map_get (key_of (field "peerId" msg)) (peerConnections s) with
            | Some pc =>
                if truthy (field "candidate" msg) then
                  try_catch (on_transport pc (addIceCandidate pc (field "candidate" msg))
                                          (add_candidate (field "candidate" msg)))
                else mret ()
            | None => mret ()
            end
          else mret ()
      end
  end.

(** [pc.onicecandidate], when the transport [pc] emits a candidate. *)
Definition on_icecandidate (pc : nat) (candidate : jsval) : M () :=
  s ← state;
  match transports s !! pc ≫= onicecandidate with
  | Some peerId =>
      if truthy candidate then
        _sigSend (JObj [(js "type", JStr (js "ICE_CANDIDATE")); (js "peerId", peerId);
                        (js "candidate", candidate)])
      else mret ()
  | None => mret ()
  end.

(** [pc.ondatachannel], when the transport [pc] announces the channel the
    offering side created. *)
Definition on_datachannel (pc : nat) : M () :=
  s ← state;
  match transports s !! pc ≫= ondatachannel with
  | Some hostPeerId =>
      let ch := length (channels s) in
      update (with_channels (λ cs, cs ++ [Channel connecting None false]));;
      _setupChannel ch hostPeerId false
  | None => mret ()
  end.

(** [channel.onclose] *)
Definition on_channel_close (ch : nat) : M () :=
  s ← state;
  match channels s !! ch with
  | Some (Channel _ (Some (peerId, isHostSide)) true) =>
      update (with_dataChannels (map_delete (key_of peerId)));;
      update (with_peerConnections (map_delete (key_of peerId)));;
      does (onDisconnect peerId isHostSide)
  | _ => mret ()
  end.

Fixpoint for_each {A} (f : A → M ()) (l : list A) : M () :=
  match l with
  | [] => mret ()
  | a :: r => f a;; for_each f r
  end.

(** [resetSignaling]: the channels and transports that the maps hold lose
    their handler and are closed, the maps are emptied, the socket is
    closed if it is open or connecting, and dropped. [socket_readyState] is
    the [readyState] of the socket when the function runs (0 CONNECTING,
    1 OPEN, 2 CLOSING, 3 CLOSED). *)
Definition resetSignaling (socket_readyState : nat) : M () :=
  s ← state;
  for_each (λ e : K * nat,
      update (with_channels
                (alter (λ c, Channel (match ch_readyState c with
                                      | channel_closed => channel_closed
                                      | _ => closing
                                      end) (wired c) false) e.2));;
      does (close_channel e.2)) (dataChannels s);;
  update (with_dataChannels (λ _, []));;
  for_each (λ e : K * nat,
      update (with_transports
                (alter (λ t, Transport (iceServers t) closed (remoteDescription t)
                                       (candidates t) None (ondatachannel t)) e.2));;
      does (close_transport e.2)) (peerConnections s);;
  update (with_peerConnections (λ _, []));;
  (if _signalingSocket s
      && bool_decide (socket_readyState = 1 ∨ socket_readyState = 0)%nat
   then does close_socket else mret ());;
  update (λ s, Client (role s) (peerConnections s) (dataChannels s) false JNull
                 (_resolvedIceServers s) (transports s) (channels s)).

(** *** The client as a transition system *)

Inductive event :=
| signal (parsed : option jsval)
| icecandidate (pc : nat) (candidate : jsval)
| datachannel (pc : nat)
| channel_close (ch : nat)
| reset (socket_readyState : nat).

Definition handler (e : event) : M () :=
  match e with
  | signal parsed => on_signal parsed
  | icecandidate pc candidate => on_icecandidate pc candidate
  | datachannel pc => on_datachannel pc
  | channel_close ch => on_channel_close ch
  | reset socket_readyState => resetSignaling socket_readyState
  end.

Definition step (s : client) (e : event) : client * list call := (handler e s).1.

Fixpoint run (s : client) (es : list event) : client * list call :=
  match es with
  | [] => (s, [])
  | e :: es' =>
      let '(s1, l1) := step s e in
      let '(s2, l2) := run s1 es' in
      (s2, l1 ++ l2)
  end.

Definition DEFAULT_ICE : jsval :=
  JArr [JObj [(js "urls", JStr (js "stun:stun.l.google.com:19302"))];
        JObj [(js "urls", JStr (js "stun:stun1.l.google.com:19302"))]].

(** The state [connectSignaling(opts)] leaves: a socket, no session. *)
Definition connected (r : jsval) : client :=
  Client r [] [] true JNull DEFAULT_ICE [] [].

(** An event that brings a candidate from the relay. *)
Definition carries_candidate (e : event) : bool :=
  match e with
  | signal (Some msg) =>
      match prop (js "type") msg with
      | Value type => is_str (js "ICE_CANDIDATE") type
      | Raises => false
      end
  | _ => false
  end.

(** [s'] has every transport of [s], with the same candidates added. *)
Definition keeps (s s' : client) : Prop :=
  ∀ pc t, transports s !! pc = Some t →
    ∃ t', transports s' !! pc = Some t' ∧ candidates t' = candidates t.

(** A computation that adds no candidate: it makes no [addIceCandidate]
    call and leaves the candidates of every transport as they are. *)
Definition calm {A} (m : M A) : Prop :=
  ∀ s, keeps s (m s).1.1 ∧ ∀ pc c, addIceCandidate pc c ∉ (m s).1.2.

(** The effect of the one call a candidate from the relay leads to. *)
Definition candidate_added (pc : nat) (candidate : jsval) (s : client) : client :=
  match transports s !! pc ≫= add_candidate candidate with
  | Some t => with_transports <[pc := t]> s
  | None => s
  end.

(** The state after an offer from [hostPeerId]: one more transport, [t],
    stored under that identifier. *)
Definition offered (s : client) (hostPeerId : jsval) (t : transport) : client :=
  Client (role s) (map_set (key_of hostPeerId) (length (transports s)) (peerConnections s))
         (dataChannels s) (_signalingSocket s) (_myPeerId s)
         (_resolvedIceServers s) (transports s ++ [t]) (channels s).

(** *** Sending on the data channels *)

#[global] Instance channel_state_eq_dec : EqDecision channel_state.
Proof. solve_decision. Defined.

(** [ch.readyState === 'open'] *)
Definition is_open (s : client) (ch : nat) : bool :=
  bool_decide (ch_readyState <$> channels s !! ch = Some open).

(** [broadcast(msgStr)]: the channels on which [send(msgStr)] is called, in
    the order of the calls. A [send] on an open channel is taken to return,
    and it changes nothing the module reads. *)
Fixpoint broadcast_over (s : client) (entries : list (K * nat)) : list nat :=
  match entries with
  | [] => []
  | (_, ch) :: r =>
      if is_open s ch then ch :: broadcast_over s r else broadcast_over s r
  end.

Definition broadcast (s : client) : list nat := broadcast_over s (dataChannels s).


(** [sendToHost(msgStr)]: the loop returns at the first open channel. *)
Fixpoint sendToHost_over (s : client) (entries : list (K * nat)) : list nat :=
  match entries with
  | [] => []
  | (_, ch) :: r => if is_open s ch then [ch] else sendToHost_over s r
  end.

Definition sendToHost (s : client) : list nat := sendToHost_over s (dataChannels s).

(** [hasOpenChannel()] *)
Fixpoint hasOpenChannel_over (s : client) (entries : list (K * nat)) : bool :=
  match entries with
  | [] => false
  | (_, ch) :: r => if is_open s ch then true else hasOpenChannel_over s r
  end.

Definition hasOpenChannel (s : client) : bool := hasOpenChannel_over s (dataChannels s).

(** [closeAll()]: as [resetSignaling], but the handlers of the channels and
    transports stay set. [socket_readyState] is the [readyState] of the
    socket when the function runs. *)
Definition closeAll (socket_readyState : nat) : M () :=
  s ← state;
  for_each (λ e : K * nat,
      update (with_channels
                (alter (λ c, Channel (match ch_readyState c with
                                      | channel_closed => channel_closed
                                      | _ => closing
                                      end) (wired c) (onclose c)) e.2));;
      does (close_channel e.2)) (dataChannels s);;
  update (with_dataChannels (λ _, []));;
  for_each (λ e : K * nat,
      update (with_transports
                (alter (λ t, Transport (iceServers t) closed (remoteDescription t)
                                       (candidates t) (onicecandidate t)
                                       (ondatachannel t)) e.2));;
      does (close_transport e.2)) (peerConnections s);;
  update (with_peerConnections (λ _, []));;
  (if _signalingSocket s && bool_decide (socket_readyState < 2)%nat
   then does close_socket else mret ());;
  update (λ s, Client (role s) (peerConnections s) (dataChannels s) false JNull
                 (_resolvedIceServers s) (transports s) (channels s)).

(** The calls by which an offer is made: only [_hostCreateOffer] and the
    [PEER_JOINED] case make them. *)
Definition offers (c : call) : bool :=
  match c with
  | createDataChannel _ _ | createOffer _ | setLocalDescription _ offer _
  | onHostPeerJoined _ => true
  | sigSend msg => is_str (js "OFFER") (field "type" msg)
  | _ => false
  end.

(** The calls by which an offer is answered: only [_clientHandleOffer]
    makes them. *)
Definition answers (c : call) : bool :=
  match c with
  | setRemoteDescription _ offer _ | createAnswer _
  | setLocalDescription _ answer _ => true
  | sigSend msg => is_str (js "ANSWER") (field "type" msg)
  | _ => false
  end.

(** A computation that keeps the role and makes no call of the kind [P]. *)
Definition mute {A} (P : call → bool) (m : M A) (s : client) : Prop :=
  role (m s).1.1 = role s ∧ Forall (λ c, P c = false) (m s).1.2.

(** The state of a host once it has made its offer to [peerId]: one more
    transport and one more channel, both stored under that identifier. *)
Definition offering (s : client) (peerId : jsval) : client :=
  Client (role s)
         (map_set (key_of peerId) (length (transports s)) (peerConnections s))
         (map_set (key_of peerId) (length (channels s)) (dataChannels s))
         (_signalingSocket s) (_myPeerId s) (_resolvedIceServers s)
         (transports s ++ [Transport (_resolvedIceServers s) have_local_offer None []
                                     (Some peerId) None])
         (channels s ++ [Channel connecting (Some (peerId, true)) true]).

(** The state of a host whose offer to [peerId] was answered with [sdp]. *)
Definition settled (s : client) (peerId sdp : jsval) : client :=
  Client (role s)
         (map_set (key_of peerId) (length (transports s)) (peerConnections s))
         (map_set (key_of peerId) (length (channels s)) (dataChannels s))
         (_signalingSocket s) (_myPeerId s) (_resolvedIceServers s)
         (transports s ++ [Transport (_resolvedIceServers s) stable
                                     (Some (answer, sdp)) [] (Some peerId) None])
         (channels s ++ [Channel connecting (Some (peerId, true)) true]).

(** *** Reasoning about computations *)

Lemma bind_eq {A B} (m : M A) (k : A → M B) s :
  (m ≫= k) s =
  match (m s).2 with
  | None => ((m s).1.1, (m s).1.2, None)
  | Some a => ((k a (m s).1.1).1.1, (m s).1.2 ++ (k a (m s).1.1).1.2, (k a (m s).1.1).2)
  end.
Proof.
  unfold mbind, M_bind. destruct (m s) as [[s1 l1] [a|]]; [|done].
  simpl. by destruct (k a s1) as [[s2 l2] r].
Qed.

Lemma keeps_refl s : keeps s s.
Proof. intros pc t Ht. by exists t. Qed.

Lemma keeps_trans s1 s2 s3 : keeps s1 s2 → keeps s2 s3 → keeps s1 s3.
Proof.
  intros H12 H23 pc t Ht. destruct (H12 _ _ Ht) as (t2 & Ht2 & Hc2).
  destruct (H23 _ _ Ht2) as (t3 & Ht3 & Hc3). exists t3. split; congruence.
Qed.

Lemma keeps_same s s' : transports s' = transports s → keeps s s'.
Proof. intros Heq pc t Ht. exists t. by rewrite Heq. Qed.

Lemma keeps_alter s g pc :
  (∀ t, candidates (g t) = candidates t) →
  keeps s (with_transports (alter g pc) s).
Proof.
  intros Hg pc' t Ht. simpl. destruct (decide (pc = pc')) as [->|Hne].
  - exists (g t). split; [|done]. by rewrite list_lookup_alter_eq, Ht.
  - exists t. split; [|done]. by rewrite list_lookup_alter_ne.
Qed.

Lemma keeps_insert s pc t t' :
  transports s !! pc = Some t → candidates t' = candidates t →
  keeps s (with_transports <[pc := t']> s).
Proof.
  intros Ht Hc pc' t0 Ht0. simpl. destruct (decide (pc = pc')) as [->|Hne].
  - exists t'. split; [|congruence].
    apply list_lookup_insert_eq. by eapply lookup_lt_Some.
  - exists t0. split; [|done]. by rewrite list_lookup_insert_ne.
Qed.

Lemma keeps_app s l : keeps s (with_transports (λ ts, ts ++ l) s).
Proof. intros pc t Ht. exists t. split; [|done]. simpl. by apply lookup_app_l_Some. Qed.

Lemma calm_ret {A} (a : A) : calm (mret a).
Proof. intros s. split; [apply keeps_refl|]. intros pc c. apply not_elem_of_nil. Qed.

Lemma calm_throw {A} : calm (@throw A).
Proof. intros s. split; [apply keeps_refl|]. intros pc c. apply not_elem_of_nil. Qed.

Lemma calm_state : calm state.
Proof. intros s. split; [apply keeps_refl|]. intros pc c. apply not_elem_of_nil. Qed.

Lemma calm_update f : (∀ s, keeps s (f s)) → calm (update f).
Proof. intros Hf s. split; [apply Hf|]. intros pc c. apply not_elem_of_nil. Qed.

Lemma calm_does c : (∀ pc x, c ≠ addIceCandidate pc x) → calm (does c).
Proof.
  intros Hc s. split; [apply keeps_refl|]. simpl.
  intros pc x Heq%list_elem_of_singleton. by apply (Hc pc x).
Qed.

Lemma calm_bind {A B} (m : M A) (k : A → M B) :
  calm m → (∀ a, calm (k a)) → calm (m ≫= k).
Proof.
  intros Hm Hk s. rewrite bind_eq. destruct (Hm s) as [Hs Hl].
  destruct (m s).2 as [a|]; [|done]. simpl.
  destruct (Hk a (m s).1.1) as [Hs' Hl']. split.
  - by eapply keeps_trans.
  - intros pc c [?|?]%elem_of_app; [by eapply Hl|by eapply Hl'].
Qed.

Lemma calm_on_transport pc c f :
  (∀ pc x, c ≠ addIceCandidate pc x) →
  (∀ t t', f t = Some t' → candidates t' = candidates t) →
  calm (on_transport pc c f).
Proof.
  intros Hc Hf s. unfold on_transport.
  destruct (transports s !! pc) as [t|] eqn:Ht; simpl.
  - destruct (f t) as [t'|] eqn:Hft; simpl.
    + split; [by eapply keeps_insert, Hf|].
      intros pc' x Heq%list_elem_of_singleton. by apply (Hc pc' x).
    + split; [apply keeps_refl|].
      intros pc' x Heq%list_elem_of_singleton. by apply (Hc pc' x).
  - split; [apply keeps_refl|].
    intros pc' x Heq%list_elem_of_singleton. by apply (Hc pc' x).
Qed.

Lemma calm_for_each {A} (f : A → M ()) l : (∀ a, calm (f a)) → calm (for_each f l).
Proof.
  intros Hf. induction l as [|a l IH]; simpl; [apply calm_ret|].
  apply calm_bind; [apply Hf|done].
Qed.

Lemma calm_sigSend msg : calm (_sigSend msg).
Proof.
  intros s. unfold _sigSend. destruct (_signalingSocket s); simpl.
  - split; [apply keeps_refl|]. by intros pc c ?%list_elem_of_singleton.
  - split; [apply keeps_refl|]. intros pc c. apply not_elem_of_nil.
Qed.

Lemma apply_remote_candidates ty sdp t t' :
  apply_remote ty sdp t = Some t' → candidates t' = candidates t.
Proof.
  unfold apply_remote. destruct (sdp_accepted ty sdp); [|done].
  destruct ty, (signalingState t); by intros [= <-].
Qed.

Lemma apply_local_candidates ty t t' :
  apply_local ty t = Some t' → candidates t' = candidates t.
Proof.
  unfold apply_local. destruct ty, (signalingState t); by intros [= <-].
Qed.

Lemma can_offer_candidates t t' : can_offer t = Some t' → candidates t' = candidates t.
Proof. unfold can_offer. destruct (signalingState t); by intros [= <-]. Qed.

Lemma can_answer_candidates t t' : can_answer t = Some t' → candidates t' = candidates t.
Proof. unfold can_answer. destruct (signalingState t); by intros [= <-]. Qed.

Lemma alter_last {A} (f : A → A) l x : alter f (length l) (l ++ [x]) = l ++ [f x].
Proof. rewrite alter_app_r_alt by lia. by rewrite Nat.sub_diag. Qed.

Lemma insert_last {A} (l : list A) x y : <[length l := y]> (l ++ [x]) = l ++ [y].
Proof. rewrite insert_app_r_alt by lia. by rewrite Nat.sub_diag. Qed.

Lemma on_transport_last r pcm dcm sock me ice l t chs c f :
  on_transport (length l) c f (Client r pcm dcm sock me ice (l ++ [t]) chs) =
  match f t with
  | Some t' => (Client r pcm dcm sock me ice (l ++ [t']) chs, [c], Some ())
  | None => (Client r pcm dcm sock me ice (l ++ [t]) chs, [c], None)
  end.
Proof.
  unfold on_transport. cbn [transports]. rewrite list_lookup_middle by done.
  cbn [mbind option_bind]. destruct (f t); [|done].
  unfold with_transports. cbn. by rewrite insert_last.
Qed.

(** What [_clientHandleOffer] amounts to. *)
Lemma clientHandleOffer_eq hostPeerId sdp servers s :
  let n := length (transports s) in
  let after t :=
    Client (role s) (map_set (key_of hostPeerId) n (peerConnections s))
           (dataChannels s) (_signalingSocket s) (_myPeerId s)
           (_resolvedIceServers s) (transports s ++ [t]) (channels s) in
  _clientHandleOffer hostPeerId sdp servers s =
  if sdp_accepted offer sdp then
    (after (Transport servers stable (Some (offer, sdp)) []
                      (Some hostPeerId) (Some hostPeerId)),
     [new_RTCPeerConnection n servers; setRemoteDescription n offer sdp;
      createAnswer n; setLocalDescription n answer (created_sdp n)]
     ++ (if _signalingSocket s
         then [sigSend (described "ANSWER" hostPeerId (created_sdp n))] else []),
     if _signalingSocket s then Some () else None)
  else
    (after (Transport servers stable None [] (Some hostPeerId) (Some hostPeerId)),
     [new_RTCPeerConnection n servers; setRemoteDescription n offer sdp],
     None).
Proof.
  destruct s as [r pcm dcm sock me ice ts chs]. cbn [transports role peerConnections
    dataChannels _signalingSocket _myPeerId _resolvedIceServers channels].
  unfold _clientHandleOffer, new_transport, set_ondatachannel, set_onicecandidate.
  unfold mbind, M_bind, state, update, does, mret, M_ret, with_transports,
    with_peerConnections.
  cbn [transports role peerConnections dataChannels _signalingSocket _myPeerId
       _resolvedIceServers channels].
  rewrite !alter_last.
  cbn [iceServers signalingState remoteDescription candidates onicecandidate
       ondatachannel].
  rewrite on_transport_last. unfold apply_remote.
  cbn [iceServers signalingState remoteDescription candidates onicecandidate
       ondatachannel].
  destruct (sdp_accepted offer sdp); [|done].
  rewrite on_transport_last. cbn [can_answer signalingState].
  rewrite on_transport_last. unfold apply_local.
  cbn [iceServers signalingState remoteDescription candidates onicecandidate
       ondatachannel]. unfold _sigSend. cbn [_signalingSocket].
  by destruct sock.
Qed.

Ltac calm_update :=
  apply calm_update; intros ?;
  first [apply keeps_same; reflexivity | apply keeps_alter; done | apply keeps_app].

Ltac calm_transport :=
  apply calm_on_transport;
  [done
  |first [apply apply_remote_candidates | apply apply_local_candidates
         |apply can_offer_candidates | apply can_answer_candidates]].

Ltac calm_step :=
  first [apply calm_ret | apply calm_throw | apply calm_state | apply calm_sigSend
        |calm_update | calm_transport | (apply calm_does; done)
        |(apply calm_bind; [|intros ?])].

Lemma calm_setupChannel ch peerId isHostSide : calm (_setupChannel ch peerId isHostSide).
Proof. unfold _setupChannel. repeat calm_step. Qed.

Lemma calm_hostCreateOffer peerId servers : calm (_hostCreateOffer peerId servers).
Proof.
  unfold _hostCreateOffer, new_transport, set_onicecandidate.
  repeat first [apply calm_setupChannel | calm_step].
Qed.

Lemma calm_clientHandleOffer hostPeerId sdp servers :
  calm (_clientHandleOffer hostPeerId sdp servers).
Proof.
  unfold _clientHandleOffer, new_transport, set_onicecandidate, set_ondatachannel.
  repeat calm_step.
Qed.

Lemma calm_resetSignaling socket_readyState : calm (resetSignaling socket_readyState).
Proof.
  unfold resetSignaling. apply calm_bind; [apply calm_state|]. intros s.
  repeat first [apply calm_for_each; intros ? | calm_step].
  destruct (_signalingSocket s && _); repeat calm_step.
Qed.

(** Only a candidate from the relay adds a candidate. *)
Lemma calm_handler e : carries_candidate e = false → calm (handler e).
Proof.
  destruct e as [[msg|]|pc c|pc|ch|rs]; cbn [handler carries_candidate on_signal].
  - destruct (prop (js "type") msg) as [|type]; intros Hice; [apply calm_throw|].
    apply calm_bind; [apply calm_state|]. intros s. rewrite Hice.
    destruct (is_str (js "ASSIGNED_PEER_ID") type); [calm_update|].
    destruct (is_str (js "PEER_JOINED") type).
    { destruct (is_str (js "host") (role s)); [|apply calm_ret].
      apply calm_bind; [apply calm_hostCreateOffer|]. intros _. by apply calm_does. }
    destruct (is_str (js "OFFER") type).
    { destruct (is_str (js "client") (role s)); [|apply calm_ret].
      apply calm_clientHandleOffer. }
    destruct (is_str (js "ANSWER") type); [|apply calm_ret].
    destruct (map_get _ _) as [pc|]; [|apply calm_ret].
    case_bool_decide; [calm_transport|apply calm_ret].
  - intros _. apply calm_ret.
  - intros _. unfold on_icecandidate. apply calm_bind; [apply calm_state|]. intros s.
    destruct (_ ≫= onicecandidate); [|apply calm_ret].
    destruct (truthy c); [apply calm_sigSend|apply calm_ret].
  - intros _. unfold on_datachannel. apply calm_bind; [apply calm_state|]. intros s.
    destruct (_ ≫= ondatachannel); [|apply calm_ret].
    apply calm_bind; [calm_update|]. intros _. apply calm_setupChannel.
  - intros _. unfold on_channel_close. apply calm_bind; [apply calm_state|].
    intros s. destruct (channels s !! ch) as [[? [[? ?]|] []]|]; try apply calm_ret.
    repeat calm_step.
  - intros _. apply calm_resetSignaling.
Qed.

Lemma on_signal_candidate s msg :
  prop (js "type") msg = Value (JStr (js "ICE_CANDIDATE")) →
  on_signal (Some msg) s =
  match map_get (key_of (field "peerId" msg)) (peerConnections s) with
  | Some pc =>
      if truthy (field "candidate" msg) then
        try_catch (on_transport pc (addIceCandidate pc (field "candidate" msg))
                                (add_candidate (field "candidate" msg))) s
      else (s, [], Some ())
  | None => (s, [], Some ())
  end.
Proof.
  intros Hty. unfold on_signal. rewrite Hty.
  unfold mbind, M_bind, state.
  replace (is_str (js "ASSIGNED_PEER_ID") _) with false by (by vm_compute).
  replace (is_str (js "PEER_JOINED") _) with false by (by vm_compute).
  replace (is_str (js "OFFER") _) with false by (by vm_compute).
  replace (is_str (js "ANSWER") _) with false by (by vm_compute).
  rewrite is_str_refl.
  destruct (map_get _ _) as [pc|]; [|done].
  destruct (truthy _); [|done].
  by destruct (try_catch _ s) as [[? ?] ?].
Qed.

Lemma on_signal_offer s msg :
  prop (js "type") msg = Value (JStr (js "OFFER")) →
  role s = JStr (js "client") →
  on_signal (Some msg) s =
  _clientHandleOffer (field "peerId" msg) (field "sdp" msg) (_resolvedIceServers s) s.
Proof.
  intros Hty Hrole. unfold on_signal. rewrite Hty.
  unfold mbind, M_bind, state. rewrite Hrole.
  replace (is_str (js "ASSIGNED_PEER_ID") _) with false by (by vm_compute).
  replace (is_str (js "PEER_JOINED") _) with false by (by vm_compute).
  rewrite !is_str_refl.
  by destruct (_clientHandleOffer _ _ _ s) as [[? ?] ?].
Qed.

Lemma step_candidate s msg pc :
  prop (js "type") msg = Value (JStr (js "ICE_CANDIDATE")) →
  map_get (key_of (field "peerId" msg)) (peerConnections s) = Some pc →
  truthy (field "candidate" msg) = true →
  step s (signal (Some msg)) =
  (candidate_added pc (field "candidate" msg) s,
   [addIceCandidate pc (field "candidate" msg)]).
Proof.
  intros Hty Hpc Hc. unfold step, handler. rewrite on_signal_candidate by done.
  rewrite Hpc, Hc. unfold try_catch, on_transport, candidate_added.
  by destruct (_ ≫= _).
Qed.

Lemma candidate_added_peerConnections pc c s :
  peerConnections (candidate_added pc c s) = peerConnections s.
Proof. unfold candidate_added. by destruct (_ ≫= _). Qed.

(** C4 (amended). The client has no buffer for candidates. A candidate
    from the relay for a peer whose transport is stored, when it is truthy,
    is passed to that transport's [addIceCandidate] at once, whether or not
    the transport has a remote description, and the outcome is discarded: a
    candidate the transport refuses changes nothing and is not kept. A
    candidate for a peer without a stored transport, or a falsy one, leads
    to no call and no change. No other event, the arrival of an offer or an
    answer included, makes an [addIceCandidate] call or changes the
    candidates of any transport. So the candidates for a stored transport
    reach it in the order they arrive, one call each. *)
Theorem candidates_passed_at_once (s : client) :
  (∀ msg, prop (js "type") msg = Value (JStr (js "ICE_CANDIDATE")) →
     match map_get (key_of (field "peerId" msg)) (peerConnections s) with
     | Some pc =>
         if truthy (field "candidate" msg) then
           step s (signal (Some msg)) =
           (candidate_added pc (field "candidate" msg) s,
            [addIceCandidate pc (field "candidate" msg)])
         else step s (signal (Some msg)) = (s, [])
     | None => step s (signal (Some msg)) = (s, [])
     end)
  ∧ (∀ e, carries_candidate e = false →
       keeps s (step s e).1 ∧ ∀ pc c, addIceCandidate pc c ∉ (step s e).2)
  ∧ (∀ msgs pc,
       Forall (λ msg, prop (js "type") msg = Value (JStr (js "ICE_CANDIDATE"))
                      ∧ map_get (key_of (field "peerId" msg)) (peerConnections s) = Some pc
                      ∧ truthy (field "candidate" msg) = true) msgs →
       (run s ((λ msg, signal (Some msg)) <$> msgs)).2
       = (λ msg, addIceCandidate pc (field "candidate" msg)) <$> msgs).
Proof.
  split_and!.
  - intros msg Hty.
    destruct (map_get _ _) as [pc|] eqn:Hpc.
    + destruct (truthy _) eqn:Hc; [by apply step_candidate|].
      unfold step, handler. rewrite on_signal_candidate by done.
      by rewrite Hpc, Hc.
    + unfold step, handler. rewrite on_signal_candidate by done. by rewrite Hpc.
  - intros e He. apply (calm_handler e He s).
  - intros msgs pc. revert s. induction msgs as [|msg msgs IH]; intros s Hall; [done|].
    apply list.Forall_cons in Hall as [(Hty & Hpc & Hc) Hall].
    cbn [fmap list_fmap run]. rewrite (step_candidate _ _ pc) by done.
    specialize (IH (candidate_added pc (field "candidate" msg) s)).
    destruct (run _ _) as [s2 l2]. cbn [snd app] in *. f_equal. apply IH.
    eapply list.Forall_impl; [exact Hall|]. intros m (? & ? & ?).
    by rewrite candidate_added_peerConnections.
Qed.

Lemma map_get_set_eq {V} k (v : V) m : map_get k (map_set k v m) = Some v.
Proof.
  induction m as [|[k' v'] m IH]; simpl.
  - by rewrite decide_True.
  - destruct (decide (k' = k)) as [->|Hne]; simpl.
    + by rewrite decide_True.
    + by rewrite decide_False.
Qed.





(** *** The rest of the module *)

Lemma map_get_delete_eq {V} k (m : list (K * V)) : map_get k (map_delete k m) = None.
Proof.
  unfold map_delete. induction m as [|[k' v] m IH]; [done|].
  rewrite filter_cons. cbn [fst]. case_decide; [|done].
  simpl. by rewrite decide_False.
Qed.

Lemma map_get_delete_ne {V} k k' (m : list (K * V)) :
  k' ≠ k → map_get k' (map_delete k m) = map_get k' m.
Proof.
  intros Hne. unfold map_delete. induction m as [|[k0 v] m IH]; [done|].
  rewrite filter_cons. cbn [fst]. case_decide as Hk0; simpl.
  - by rewrite IH.
  - subst k0. by rewrite decide_False.
Qed.

(** What [_hostCreateOffer] amounts to. *)
Lemma hostCreateOffer_eq peerId s :
  _hostCreateOffer peerId (_resolvedIceServers s) s =
  (offering s peerId,
   [new_RTCPeerConnection (length (transports s)) (_resolvedIceServers s);
    createDataChannel (length (transports s)) (length (channels s));
    createOffer (length (transports s));
    setLocalDescription (length (transports s)) offer (created_sdp (length (transports s)))]
   ++ (if _signalingSocket s
       then [sigSend (described "OFFER" peerId (created_sdp (length (transports s))))]
       else []),
   if _signalingSocket s then Some () else None).
Proof.
  destruct s as [r pcm dcm sock me ice ts chs]. unfold offering.
  cbn [transports role peerConnections dataChannels _signalingSocket _myPeerId
       _resolvedIceServers channels].
  unfold _hostCreateOffer, new_transport, _setupChannel, set_onicecandidate.
  unfold mbind, M_bind, state, update, does, mret, M_ret, with_transports,
    with_peerConnections, with_channels, with_dataChannels.
  cbn [transports role peerConnections dataChannels _signalingSocket _myPeerId
       _resolvedIceServers channels].
  rewrite !alter_last.
  cbn [iceServers signalingState remoteDescription candidates onicecandidate
       ondatachannel ch_readyState].
  rewrite on_transport_last. cbn [can_offer signalingState].
  rewrite on_transport_last. unfold apply_local.
  cbn [iceServers signalingState remoteDescription candidates onicecandidate
       ondatachannel]. unfold _sigSend. cbn [_signalingSocket].
  by destruct sock.
Qed.

Lemma on_signal_joined s msg :
  prop (js "type") msg = Value (JStr (js "PEER_JOINED")) →
  role s = JStr (js "host") →
  on_signal (Some msg) s =
  (offering s (field "peerId" msg),
   [new_RTCPeerConnection (length (transports s)) (_resolvedIceServers s);
    createDataChannel (length (transports s)) (length (channels s));
    createOffer (length (transports s));
    setLocalDescription (length (transports s)) offer (created_sdp (length (transports s)))]
   ++ (if _signalingSocket s
       then [sigSend (described "OFFER" (field "peerId" msg)
                                (created_sdp (length (transports s))));
             onHostPeerJoined (field "peerId" msg)]
       else []),
   if _signalingSocket s then Some () else None).
Proof.
  intros Hty Hrole. unfold on_signal. rewrite Hty.
  rewrite bind_eq. cbn [state fst snd]. rewrite Hrole.
  replace (is_str (js "ASSIGNED_PEER_ID") _) with false by (by vm_compute).
  rewrite !is_str_refl. rewrite bind_eq, hostCreateOffer_eq. cbn [fst snd].
  destruct (_signalingSocket s); [|done]. cbn [does fst snd app]. done.
Qed.

Lemma on_signal_answer s msg :
  prop (js "type") msg = Value (JStr (js "ANSWER")) →
  on_signal (Some msg) s =
  match map_get (key_of (field "peerId" msg)) (peerConnections s) with
  | Some pc =>
      if bool_decide (signalingState <$> transports s !! pc = Some have_local_offer)
      then on_transport pc (setRemoteDescription pc answer (field "sdp" msg))
                        (apply_remote answer (field "sdp" msg)) s
      else (s, [], Some ())
  | None => (s, [], Some ())
  end.
Proof.
  intros Hty. unfold on_signal. rewrite Hty.
  unfold mbind, M_bind, state.
  replace (is_str (js "ASSIGNED_PEER_ID") _) with false by (by vm_compute).
  replace (is_str (js "PEER_JOINED") _) with false by (by vm_compute).
  replace (is_str (js "OFFER") _) with false by (by vm_compute).
  rewrite is_str_refl.
  destruct (map_get _ _) as [pc|]; [|done].
  case_bool_decide; [|done].
  by destruct (on_transport _ _ _ s) as [[? ?] ?].
Qed.

Lemma step_joined s msg :
  prop (js "type") msg = Value (JStr (js "PEER_JOINED")) →
  role s = JStr (js "host") →
  _signalingSocket s = true →
  step s (signal (Some msg))
  = (offering s (field "peerId" msg),
     [new_RTCPeerConnection (length (transports s)) (_resolvedIceServers s);
      createDataChannel (length (transports s)) (length (channels s));
      createOffer (length (transports s));
      setLocalDescription (length (transports s)) offer
                          (created_sdp (length (transports s)));
      sigSend (described "OFFER" (field "peerId" msg)
                         (created_sdp (length (transports s))));
      onHostPeerJoined (field "peerId" msg)]).
Proof.
  intros Hty Hrole Hsock. unfold step, handler.
  rewrite on_signal_joined by done. by rewrite Hsock.
Qed.

Lemma step_answer_offering s peerId reply :
  prop (js "type") reply = Value (JStr (js "ANSWER")) →
  key_of (field "peerId" reply) = key_of peerId →
  sdp_accepted answer (field "sdp" reply) = true →
  step (offering s peerId) (signal (Some reply))
  = (settled s peerId (field "sdp" reply),
     [setRemoteDescription (length (transports s)) answer (field "sdp" reply)]).
Proof.
  intros Hreply Hkey Hsdp. unfold step, handler. rewrite on_signal_answer by done.
  rewrite Hkey. cbn [offering peerConnections transports].
  rewrite map_get_set_eq. rewrite list_lookup_middle by done.
  cbn [fmap option_fmap option_map signalingState].
  rewrite bool_decide_eq_true_2 by done.
  unfold offering. rewrite on_transport_last.
  unfold apply_remote. rewrite Hsdp.
  cbn [iceServers signalingState remoteDescription candidates onicecandidate
       ondatachannel fst]. done.
Qed.

(** X11. The host side of a session. A host with a socket that is told a
    peer joined makes a transport and a data channel for it, stores both
    under the peer's identifier, sends the offer it created to the relay
    with that identifier and then tells the application; the transports it
    had are as they were. The answer of that peer, if the browser accepts
    it, is applied to that transport with one call and leaves it settled
    with the answer as remote description; any further answer of the same
    peer is then dropped without a call. *)
Theorem host_offer_then_answer (s : client) (joined reply : jsval) :
  prop (js "type") joined = Value (JStr (js "PEER_JOINED")) →
  role s = JStr (js "host") →
  _signalingSocket s = true →
  prop (js "type") reply = Value (JStr (js "ANSWER")) →
  key_of (field "peerId" reply) = key_of (field "peerId" joined) →
  sdp_accepted answer (field "sdp" reply) = true →
  let peerId := field "peerId" joined in
  let n := length (transports s) in
  let m := length (channels s) in
  let s1 := (step s (signal (Some joined))).1 in
  let s2 := (step s1 (signal (Some reply))).1 in
  (step s (signal (Some joined))).2
  = [new_RTCPeerConnection n (_resolvedIceServers s); createDataChannel n m;
     createOffer n; setLocalDescription n offer (created_sdp n);
     sigSend (described "OFFER" peerId (created_sdp n)); onHostPeerJoined peerId]
  ∧ map_get (key_of peerId) (peerConnections s1) = Some n
  ∧ map_get (key_of peerId) (dataChannels s1) = Some m
  ∧ channels s1 !! m = Some (Channel connecting (Some (peerId, true)) true)
  ∧ (∀ pc t, transports s !! pc = Some t → transports s1 !! pc = Some t)
  ∧ (step s1 (signal (Some reply))).2
    = [setRemoteDescription n answer (field "sdp" reply)]
  ∧ transports s2 !! n
    = Some (Transport (_resolvedIceServers s) stable
                      (Some (answer, field "sdp" reply)) [] (Some peerId) None)
  ∧ (∀ again, prop (js "type") again = Value (JStr (js "ANSWER")) →
       key_of (field "peerId" again) = key_of peerId →
       step s2 (signal (Some again)) = (s2, [])).
Proof.
  intros Hjoined Hrole Hsock Hreply Hkey Hsdp peerId n m s1 s2.
  subst s2 s1. rewrite step_joined by done. cbn [fst snd]. fold peerId.
  rewrite step_answer_offering by done. cbn [fst snd].
  split_and!.
  - done.
  - apply map_get_set_eq.
  - apply map_get_set_eq.
  - cbn [offering channels]. by apply list_lookup_middle.
  - intros pc t Ht. cbn [offering transports]. by apply lookup_app_l_Some.
  - done.
  - cbn [settled transports]. by apply list_lookup_middle.
  - intros again Hagain Hkey'. unfold step, handler.
    rewrite on_signal_answer by done. rewrite Hkey'.
    cbn [settled peerConnections transports]. rewrite map_get_set_eq.
    rewrite list_lookup_middle by done.
    cbn [fmap option_fmap option_map signalingState].
    by rewrite bool_decide_eq_false_2.
Qed.

(** X12. When a data channel closes whose [onclose] handler is set, the
    entries of both maps under the peer identifier the handler captured
    are removed, whichever channel and transport they hold, and the
    application is told once. The entries of other peers stay, and no
    transport or channel is touched: the transport that was stored is
    dropped from the map without being closed. *)
Theorem channel_close_drops_session (s : client) (ch : nat) (st : channel_state)
    (peerId : jsval) (isHostSide : bool) :
  channels s !! ch = Some (Channel st (Some (peerId, isHostSide)) true) →
  let s' := (step s (channel_close ch)).1 in
  (step s (channel_close ch)).2 = [onDisconnect peerId isHostSide]
  ∧ map_get (key_of peerId) (dataChannels s') = None
  ∧ map_get (key_of peerId) (peerConnections s') = None
  ∧ (∀ k, k ≠ key_of peerId →
       map_get k (dataChannels s') = map_get k (dataChannels s)
       ∧ map_get k (peerConnections s') = map_get k (peerConnections s))
  ∧ transports s' = transports s
  ∧ channels s' = channels s.
Proof.
  intros Hch s'. subst s'.
  unfold step, handler, on_channel_close. rewrite bind_eq. cbn [state fst snd].
  rewrite Hch. unfold mbind, M_bind, update, does.
  cbn [fst snd app with_dataChannels with_peerConnections dataChannels
       peerConnections transports channels role _signalingSocket _myPeerId
       _resolvedIceServers].
  split_and!; try done.
  - apply map_get_delete_eq.
  - apply map_get_delete_eq.
  - intros k Hk. split; by apply map_get_delete_ne.
Qed.

(** A loop that changes the state and makes one call per entry. *)
Lemma for_each_eq {A} (f : A → client → client) (c : A → call) l s :
  for_each (λ a, update (f a);; does (c a)) l s
  = (foldl (λ s a, f a s) s l, c <$> l, Some ()).
Proof.
  revert s. induction l as [|a l IH]; intros s; [done|].
  cbn [for_each]. rewrite bind_eq.
  unfold mbind at 1, M_bind at 1, update at 1, does at 1. cbn [fst snd app].
  by rewrite IH.
Qed.

Lemma foldl_channels (g : channel → channel) (l : list (K * nat)) s :
  foldl (λ s (e : K * nat), with_channels (alter g e.2) s) s l
  = Client (role s) (peerConnections s) (dataChannels s) (_signalingSocket s)
           (_myPeerId s) (_resolvedIceServers s) (transports s)
           (foldl (λ cs (e : K * nat), alter g e.2 cs) (channels s) l).
Proof.
  revert s. induction l as [|e l IH]; intros s; [by destruct s|].
  cbn [foldl]. by rewrite IH.
Qed.

Lemma foldl_transports (g : transport → transport) (l : list (K * nat)) s :
  foldl (λ s (e : K * nat), with_transports (alter g e.2) s) s l
  = Client (role s) (peerConnections s) (dataChannels s) (_signalingSocket s)
           (_myPeerId s) (_resolvedIceServers s)
           (foldl (λ ts (e : K * nat), alter g e.2 ts) (transports s) l)
           (channels s).
Proof.
  revert s. induction l as [|e l IH]; intros s; [by destruct s|].
  cbn [foldl]. by rewrite IH.
Qed.

(** What holds of an object and is kept by [g] holds after the loop. *)
Lemma foldl_alter_keeps {A} (g : A → A) (P : A → Prop) (l : list (K * nat))
    (xs : list A) (i : nat) :
  (∀ x, P x → P (g x)) →
  (∀ x, xs !! i = Some x → P x) →
  ∀ x, foldl (λ (xs : list A) (e : K * nat), alter g e.2 xs) xs l !! i = Some x → P x.
Proof.
  intros Hg. revert xs. induction l as [|e l IH]; intros xs Hxs; [done|].
  cbn [foldl]. apply IH. intros x.
  destruct (decide (e.2 = i)) as [<-|Hne].
  - rewrite list_lookup_alter_eq. destruct (xs !! e.2) as [y|]; [|done].
    intros [= <-]. by apply Hg, Hxs.
  - rewrite list_lookup_alter_ne by done. apply Hxs.
Qed.

(** What [g] establishes holds after the loop of every object it visits. *)
Lemma foldl_alter_sets {A} (g : A → A) (P : A → Prop) (l : list (K * nat))
    (xs : list A) (k : K) (i : nat) :
  (∀ x, P (g x)) → (k, i) ∈ l →
  ∀ x, foldl (λ (xs : list A) (e : K * nat), alter g e.2 xs) xs l !! i = Some x → P x.
Proof.
  intros Hg. revert xs. induction l as [|e l IH]; intros xs Hin; [by inversion Hin|].
  cbn [foldl]. apply elem_of_cons in Hin as [<-|Hin]; [|by apply IH].
  apply foldl_alter_keeps; [by intros x _|]. cbn [snd]. intros x.
  rewrite list_lookup_alter_eq. destruct (xs !! i) as [y|]; [|done].
  by intros [= <-].
Qed.

Lemma foldl_alter_length {A} (g : A → A) (l : list (K * nat)) (xs : list A) :
  length (foldl (λ (xs : list A) (e : K * nat), alter g e.2 xs) xs l) = length xs.
Proof.
  revert xs. induction l as [|e l IH]; intros xs; [done|].
  cbn [foldl]. by rewrite IH, length_alter.
Qed.

(** What [g] does not change is the same after the loop. *)
Lemma foldl_alter_same {A B} (g : A → A) (h : A → B) (l : list (K * nat))
    (xs : list A) (i : nat) :
  (∀ x, h (g x) = h x) →
  h <$> foldl (λ (xs : list A) (e : K * nat), alter g e.2 xs) xs l !! i = h <$> xs !! i.
Proof.
  intros Hg. revert xs. induction l as [|e l IH]; intros xs; [done|].
  cbn [foldl]. rewrite IH. destruct (decide (e.2 = i)) as [<-|Hne].
  - rewrite list_lookup_alter_eq. destruct (xs !! e.2) as [y|]; [|done].
    simpl. by rewrite Hg.
  - by rewrite list_lookup_alter_ne.
Qed.

(** An object the loop does not visit is as it was. *)
Lemma foldl_alter_skips {A} (g : A → A) (l : list (K * nat)) (xs : list A)
    (i : nat) (x : A) :
  (∀ k, (k, i) ∉ l) → xs !! i = Some x →
  foldl (λ (xs : list A) (e : K * nat), alter g e.2 xs) xs l !! i = Some x.
Proof.
  revert xs. induction l as [|[k j] l IH]; intros xs Hout Hx; [done|].
  cbn [foldl snd]. apply IH.
  - intros k' Hin. apply (Hout k'). by right.
  - rewrite list_lookup_alter_ne; [done|]. intros ->. apply (Hout k). by left.
Qed.

(** What [resetSignaling] amounts to. *)
Lemma resetSignaling_eq socket_readyState s :
  resetSignaling socket_readyState s
  = (Client (role s) [] [] false JNull (_resolvedIceServers s)
       (foldl (λ ts (e : K * nat),
                 alter (λ t, Transport (iceServers t) closed (remoteDescription t)
                                       (candidates t) None (ondatachannel t)) e.2 ts)
              (transports s) (peerConnections s))
       (foldl (λ cs (e : K * nat),
                 alter (λ c, Channel (match ch_readyState c with
                                      | channel_closed => channel_closed
                                      | _ => closing
                                      end) (wired c) false) e.2 cs)
              (channels s) (dataChannels s)),
     (close_channel <$> (dataChannels s).*2)
     ++ (close_transport <$> (peerConnections s).*2)
     ++ (if _signalingSocket s
            && bool_decide (socket_readyState = 1 ∨ socket_readyState = 0)%nat
         then [close_socket] else []),
     Some ()).
Proof.
  unfold resetSignaling. rewrite bind_eq. cbn [state fst snd app].
  rewrite bind_eq.
  rewrite (for_each_eq
             (λ e : K * nat,
                with_channels
                  (alter (λ c, Channel (match ch_readyState c with
                                        | channel_closed => channel_closed
                                        | _ => closing
                                        end) (wired c) false) e.2))
             (λ e : K * nat, close_channel e.2)).
  cbn [fst snd]. rewrite foldl_channels.
  rewrite bind_eq. cbn [update fst snd with_dataChannels dataChannels role
    peerConnections _signalingSocket _myPeerId _resolvedIceServers transports channels].
  rewrite bind_eq.
  rewrite (for_each_eq
             (λ e : K * nat,
                with_transports
                  (alter (λ t, Transport (iceServers t) closed (remoteDescription t)
                                         (candidates t) None (ondatachannel t)) e.2))
             (λ e : K * nat, close_transport e.2)).
  cbn [fst snd]. rewrite foldl_transports.
  cbn [dataChannels role peerConnections _signalingSocket _myPeerId
       _resolvedIceServers transports channels].
  rewrite bind_eq. cbn [update fst snd with_peerConnections dataChannels role
    peerConnections _signalingSocket _myPeerId _resolvedIceServers transports channels].
  rewrite bind_eq. rewrite <- !list_fmap_compose.
  destruct (_signalingSocket s && _); cbn [does mret M_ret fst snd app update
    dataChannels role peerConnections _signalingSocket _myPeerId
    _resolvedIceServers transports channels]; by rewrite ?app_nil_r.
Qed.



(** X13. [resetSignaling] always runs to its end. It closes each stored
    channel, then each stored transport, in the order of the maps, and
    after that the socket, exactly when the socket is set and is open or
    connecting; it makes no other call. It leaves both maps empty, no
    socket and no own identifier, but keeps the ICE servers that were in
    force. Run again, whatever the ready state, it makes no call and
    changes nothing. The channels and transports it closed have lost their
    handlers: when such a channel reports its closing, or such a transport
    a candidate, nothing is done. No channel is left to send on. *)
Theorem reset_clears_session (socket_readyState : nat) (s : client) :
  let s' := (resetSignaling socket_readyState s).1.1 in
  (resetSignaling socket_readyState s).2 = Some ()
  ∧ (resetSignaling socket_readyState s).1.2
    = (close_channel <$> (dataChannels s).*2)
      ++ (close_transport <$> (peerConnections s).*2)
      ++ (if _signalingSocket s
             && bool_decide (socket_readyState = 1 ∨ socket_readyState = 0)%nat
          then [close_socket] else [])
  ∧ (peerConnections s' = [] ∧ dataChannels s' = [] ∧ _signalingSocket s' = false
     ∧ _myPeerId s' = JNull ∧ _resolvedIceServers s' = _resolvedIceServers s
     ∧ role s' = role s)
  ∧ (∀ again, step s' (reset again) = (s', []))
  ∧ (∀ k ch, (k, ch) ∈ dataChannels s → step s' (channel_close ch) = (s', []))
  ∧ (∀ k pc c, (k, pc) ∈ peerConnections s → step s' (icecandidate pc c) = (s', []))
  ∧ (∀ k pc t, (k, pc) ∈ peerConnections s → transports s' !! pc = Some t →
       signalingState t = closed)
  ∧ (∀ pc t, (∀ k, (k, pc) ∉ peerConnections s) → transports s !! pc = Some t →
       transports s' !! pc = Some t)
  ∧ broadcast s' = [] ∧ sendToHost s' = [] ∧ hasOpenChannel s' = false.
Proof.
  intros s'. subst s'. rewrite !resetSignaling_eq. cbn [fst snd].
  split_and!; try done.
  - intros k ch Hin. unfold step, handler, on_channel_close.
    rewrite bind_eq. cbn [state fst snd channels].
    destruct (foldl _ _ _ !! ch) as [c|] eqn:Hc; [|done].
    eapply (foldl_alter_sets _ (λ c, onclose c = false)) in Hc; [|done|done].
    destruct c as [st [[peerId side]|] oc]; simpl in Hc; by subst.
  - intros k pc c Hin. unfold step, handler, on_icecandidate.
    rewrite bind_eq. cbn [state fst snd transports].
    destruct (foldl _ _ _ !! pc) as [t|] eqn:Ht; [|done].
    eapply (foldl_alter_sets _ (λ t, onicecandidate t = None)) in Ht; [|done|done].
    cbn [mbind option_bind]. by rewrite Ht.
  - intros k pc t Hin Ht.
    by eapply (foldl_alter_sets _ (λ t, signalingState t = closed)) in Ht.
  - intros pc t Hout Ht. cbn [transports]. by apply foldl_alter_skips.
Qed.

(** What [closeAll] amounts to. *)
Lemma closeAll_eq socket_readyState s :
  closeAll socket_readyState s
  = (Client (role s) [] [] false JNull (_resolvedIceServers s)
       (foldl (λ ts (e : K * nat),
                 alter (λ t, Transport (iceServers t) closed (remoteDescription t)
                                       (candidates t) (onicecandidate t)
                                       (ondatachannel t)) e.2 ts)
              (transports s) (peerConnections s))
       (foldl (λ cs (e : K * nat),
                 alter (λ c, Channel (match ch_readyState c with
                                      | channel_closed => channel_closed
                                      | _ => closing
                                      end) (wired c) (onclose c)) e.2 cs)
              (channels s) (dataChannels s)),
     (close_channel <$> (dataChannels s).*2)
     ++ (close_transport <$> (peerConnections s).*2)
     ++ (if _signalingSocket s && bool_decide (socket_readyState < 2)%nat
         then [close_socket] else []),
     Some ()).
Proof.
  unfold closeAll. rewrite bind_eq. cbn [state fst snd app].
  rewrite bind_eq.
  rewrite (for_each_eq
             (λ e : K * nat,
                with_channels
                  (alter (λ c, Channel (match ch_readyState c with
                                        | channel_closed => channel_closed
                                        | _ => closing
                                        end) (wired c) (onclose c)) e.2))
             (λ e : K * nat, close_channel e.2)).
  cbn [fst snd]. rewrite foldl_channels.
  rewrite bind_eq. cbn [update fst snd with_dataChannels dataChannels role
    peerConnections _signalingSocket _myPeerId _resolvedIceServers transports channels].
  rewrite bind_eq.
  rewrite (for_each_eq
             (λ e : K * nat,
                with_transports
                  (alter (λ t, Transport (iceServers t) closed (remoteDescription t)
                                         (candidates t) (onicecandidate t)
                                         (ondatachannel t)) e.2))
             (λ e : K * nat, close_transport e.2)).
  cbn [fst snd]. rewrite foldl_transports.
  cbn [dataChannels role peerConnections _signalingSocket _myPeerId
       _resolvedIceServers transports channels].
  rewrite bind_eq. cbn [update fst snd with_peerConnections dataChannels role
    peerConnections _signalingSocket _myPeerId _resolvedIceServers transports channels].
  rewrite bind_eq. rewrite <- !list_fmap_compose.
  destruct (_signalingSocket s && _); cbn [does mret M_ret fst snd app update
    dataChannels role peerConnections _signalingSocket _myPeerId
    _resolvedIceServers transports channels]; by rewrite ?app_nil_r.
Qed.

(** X14. [closeAll] empties the maps and drops the socket as
    [resetSignaling] does, the socket being closed only when it is set and
    connecting or open. But it leaves the handlers of the channels in
    place: every channel whose [onclose] handler was set still has it, so
    when the channel reports its closing the application is told of the
    disconnect, and the state stays as [closeAll] left it. *)
Theorem closeAll_keeps_close_handlers (socket_readyState : nat) (s : client) :
  let s' := (closeAll socket_readyState s).1.1 in
  (closeAll socket_readyState s).2 = Some ()
  ∧ (close_socket ∈ (closeAll socket_readyState s).1.2
     ↔ _signalingSocket s = true ∧ (socket_readyState < 2)%nat)
  ∧ (peerConnections s' = [] ∧ dataChannels s' = [] ∧ _signalingSocket s' = false
     ∧ _myPeerId s' = JNull)
  ∧ (∀ ch st peerId isHostSide,
       channels s !! ch = Some (Channel st (Some (peerId, isHostSide)) true) →
       step s' (channel_close ch) = (s', [onDisconnect peerId isHostSide])).
Proof.
  intros s'. subst s'. rewrite !closeAll_eq. cbn [fst snd].
  split_and!; try done.
  - rewrite !elem_of_app, !list_elem_of_fmap. split.
    + intros [(? & [=] & _)|[(? & [=] & _)|Hin]].
      destruct (_signalingSocket s); [|by apply not_elem_of_nil in Hin].
      case_bool_decide; [done|]. by apply not_elem_of_nil in Hin.
    + intros [-> Hlt]. right. right. rewrite bool_decide_eq_true_2 by done. by left.
  - intros ch st peerId side Hch. unfold step, handler, on_channel_close.
    rewrite bind_eq. cbn [state fst snd channels].
    pose proof (foldl_alter_same
                  (λ c, Channel (match ch_readyState c with
                                 | channel_closed => channel_closed
                                 | _ => closing
                                 end) (wired c) (onclose c))
                  (λ c, (wired c, onclose c)) (dataChannels s) (channels s) ch
                  (λ _, eq_refl)) as Hsame.
    rewrite Hch in Hsame. cbn [fmap option_fmap option_map wired onclose] in Hsame.
    destruct (foldl _ _ _ !! ch) as [[st' w oc]|]; [|done].
    injection Hsame as -> ->. done.
Qed.



(** *** Who offers and who answers *)

Lemma mute_ret {A} P (a : A) s : mute P (mret a) s.
Proof. by split. Qed.

Lemma mute_throw {A} P s : mute P (@throw A) s.
Proof. by split. Qed.

Lemma mute_update P f s : role (f s) = role s → mute P (update f) s.
Proof. by split. Qed.

Lemma mute_does P c s : P c = false → mute P (does c) s.
Proof. intros Hc. split; [done|]. by apply Forall_singleton. Qed.

Lemma mute_bind {A B} P (m : M A) (k : A → M B) s :
  mute P m s → (∀ a, (m s).2 = Some a → mute P (k a) (m s).1.1) →
  mute P (m ≫= k) s.
Proof.
  intros [Hr Hl] Hk. unfold mute. rewrite bind_eq.
  destruct (m s).2 as [a|]; [|done]. cbn [fst snd].
  destruct (Hk a eq_refl) as [Hr' Hl']. split; [congruence|].
  by apply Forall_app.
Qed.

Lemma mute_on_transport P pc c f s : P c = false → mute P (on_transport pc c f) s.
Proof.
  intros Hc. unfold mute, on_transport.
  destruct (_ ≫= f); (split; [done|by apply Forall_singleton]).
Qed.

Lemma mute_try_catch P m s : mute P m s → mute P (try_catch m) s.
Proof. unfold mute, try_catch. by destruct (m s) as [[? ?] ?]. Qed.

Lemma mute_for_each {A} P (f : A → M ()) l s :
  (∀ a s, mute P (f a) s) → mute P (for_each f l) s.
Proof.
  intros Hf. revert s. induction l as [|a l IH]; intros s; [by split|].
  cbn [for_each]. apply mute_bind; [apply Hf|]. intros _ _. apply IH.
Qed.

Lemma mute_sigSend P msg s : P (sigSend msg) = false → mute P (_sigSend msg) s.
Proof.
  intros Hc. unfold mute, _sigSend.
  destruct (_signalingSocket s); (split; [done|]); [by apply Forall_singleton|done].
Qed.

Ltac mute_step :=
  first [apply mute_ret | apply mute_throw
        |(apply mute_update; reflexivity) | (apply mute_does; reflexivity)
        |(apply mute_on_transport; reflexivity)
        |(apply mute_sigSend; reflexivity)
        |apply mute_try_catch
        |(apply mute_for_each; intros ? ?)
        |(apply mute_bind; [|intros ? _])].

Lemma mute_state {A} P (k : client → M A) s : mute P (k s) s → mute P (state ≫= k) s.
Proof. intros Hk. apply mute_bind; [by split|]. by intros _ [= <-]. Qed.

Lemma mute_hostCreateOffer peerId servers s : mute answers (_hostCreateOffer peerId servers) s.
Proof.
  unfold _hostCreateOffer, new_transport, _setupChannel, set_onicecandidate.
  repeat first [apply mute_state | mute_step].
Qed.

Lemma mute_clientHandleOffer hostPeerId sdp servers s :
  mute offers (_clientHandleOffer hostPeerId sdp servers) s.
Proof.
  unfold _clientHandleOffer, new_transport, set_ondatachannel, set_onicecandidate.
  repeat first [apply mute_state | mute_step].
Qed.

(** What the handlers other than the [PEER_JOINED] and [OFFER] cases do. *)
Lemma mute_handler P e s :
  (∀ c, offers c = false → answers c = false → P c = false) →
  (is_str (js "host") (role s) = true →
   ∀ peerId, mute P (_hostCreateOffer peerId (_resolvedIceServers s);;
                     does (onHostPeerJoined peerId)) s) →
  (is_str (js "client") (role s) = true →
   ∀ hostPeerId sdp, mute P (_clientHandleOffer hostPeerId sdp (_resolvedIceServers s)) s) →
  mute P (handler e) s.
Proof.
  intros HP Hhost Hclient.
  assert (∀ A (m : M A) s, mute offers m s → mute answers m s → mute P m s) as Hboth.
  { intros A m s0 [Hr Ho] [_ Ha]. split; [done|].
    rewrite list.Forall_forall in Ho, Ha |- *. intros c Hc. apply HP; auto. }
  destruct e as [[msg|]|pc c|pc|ch|rs]; cbn [handler on_signal].
  - destruct (prop (js "type") msg) as [|type]; [by split|].
    apply mute_state.
    destruct (is_str (js "ASSIGNED_PEER_ID") type); [by split|].
    destruct (is_str (js "PEER_JOINED") type).
    { destruct (is_str (js "host") (role s)); [by apply Hhost|by split]. }
    destruct (is_str (js "OFFER") type).
    { destruct (is_str (js "client") (role s)); [by apply Hclient|by split]. }
    destruct (is_str (js "ANSWER") type).
    { destruct (map_get _ _) as [pc|]; [|by split].
      case_bool_decide; [|by split]. apply mute_on_transport. by apply HP. }
    destruct (is_str (js "ICE_CANDIDATE") type); [|by split].
    destruct (map_get _ _) as [pc|]; [|by split].
    destruct (truthy _); [|by split].
    apply mute_try_catch, mute_on_transport. by apply HP.
  - by split.
  - unfold on_icecandidate. apply mute_state.
    destruct (_ ≫= onicecandidate); [|by split].
    destruct (truthy c); [|by split]. apply mute_sigSend. by apply HP.
  - apply Hboth; unfold on_datachannel, _setupChannel; apply mute_state;
      (destruct (_ ≫= ondatachannel); [|by split]); repeat mute_step.
  - apply Hboth; unfold on_channel_close; apply mute_state;
      destruct (channels s !! ch) as [[? [[? ?]|] []]|]; repeat mute_step.
  - apply Hboth; unfold resetSignaling; apply mute_state;
      repeat mute_step; destruct (_signalingSocket s && _); mute_step.
Qed.

Lemma run_cons s e es :
  run s (e :: es) = ((run (step s e).1 es).1, (step s e).2 ++ (run (step s e).1 es).2).
Proof. simpl. destruct (step s e) as [s1 l1]. simpl. by destruct (run s1 es). Qed.

(** X17. The role never changes, and it decides who negotiates: whatever
    events arrive, a client whose role is not [host] never makes a data
    channel or an offer and never sends or reports one, and a client whose
    role is not [client] never applies an offer it received and never makes
    or sends an answer. *)
Theorem role_gates_negotiation (s : client) (es : list event) :
  role (run s es).1 = role s
  ∧ (is_str (js "host") (role s) = false →
       Forall (λ c, offers c = false) (run s es).2)
  ∧ (is_str (js "client") (role s) = false →
       Forall (λ c, answers c = false) (run s es).2).
Proof.
  revert s. induction es as [|e es IH]; intros s; [done|].
  rewrite run_cons. cbn [fst snd]. destruct (IH (step s e).1) as (IHr & IHo & IHa).
  split_and!.
  - rewrite IHr. apply (mute_handler (λ _, false) e s); [done|..].
    + intros _ peerId. apply mute_bind; [|intros ? _; by apply mute_does].
      unfold _hostCreateOffer, new_transport, _setupChannel, set_onicecandidate.
      repeat first [apply mute_state | mute_step].
    + intros _ hostPeerId sdp.
      unfold _clientHandleOffer, new_transport, set_ondatachannel, set_onicecandidate.
      repeat first [apply mute_state | mute_step].
  - intros Hrole.
    assert (mute offers (handler e) s) as [Hr Hl].
    { apply mute_handler; [done|congruence|]. intros _ ? ?. apply mute_clientHandleOffer. }
    apply Forall_app. split; [done|]. apply IHo. unfold step. by rewrite Hr.
  - intros Hrole.
    assert (mute answers (handler e) s) as [Hr Hl].
    { apply mute_handler; [done| |congruence]. intros _ ?.
      apply mute_bind; [apply mute_hostCreateOffer|]. intros ? _. by apply mute_does. }
    apply Forall_app. split; [done|]. apply IHa. unfold step. by rewrite Hr.
Qed.

Lemma step_icecandidate s pc t peer c :
  transports s !! pc = Some t → onicecandidate t = Some peer →
  truthy c = true → _signalingSocket s = true →
  step s (icecandidate pc c)
  = (s, [sigSend (JObj [(js "type", JStr (js "ICE_CANDIDATE")); (js "peerId", peer);
                        (js "candidate", c)])]).
Proof.
  intros Ht Hpeer Hc Hsock. unfold step, handler, on_icecandidate.
  rewrite bind_eq. cbn [state fst snd]. rewrite Ht. cbn [mbind option_bind].
  rewrite Hpeer, Hc. unfold _sigSend. by rewrite Hsock.
Qed.

End Client.

(** *** Worked runs *)

(** Peers keyed by their identifier string, and a browser that accepts
    every description and candidate. *)
Definition peer_key (v : jsval) : jsstring :=
  match v with
  | JStr s => s
  | _ => []
  end.

Definition any_sdp (ty : sdp_type) (sdp : jsval) : bool := true.
Definition any_candidate (candidate : jsval) : bool := true.
Definition sdp_of (pc : nat) : jsval := JStr (js "sdp-" ++ [48 + N.of_nat pc]%N).

Definition lenient_step : client → event → client * list call :=
  step peer_key any_sdp any_candidate sdp_of.

Definition lenient_run : client → list event → client * list call :=
  run peer_key any_sdp any_candidate sdp_of.

Definition from_peer (type peer : string) (rest : list (jsstring * jsval)) : jsval :=
  JObj ([(js "type", JStr (js type)); (js "peerId", JStr (js peer))] ++ rest).

Definition candidate_msg (peer candidate : string) : jsval :=
  from_peer "ICE_CANDIDATE" peer [(js "candidate", JStr (js candidate))].

Definition offer_from (peer sdp : string) : jsval :=
  from_peer "OFFER" peer [(js "sdp", JStr (js sdp))].

(** A host is told that [B] joined, then receives a candidate of [B], then
    [B]'s answer. *)
Definition candidate_before_answer : list event :=
  [signal (Some (from_peer "PEER_JOINED" "B" []));
   signal (Some (candidate_msg "B" "candidate:1"));
   signal (Some (from_peer "ANSWER" "B" [(js "sdp", JStr (js "v=0"))]))].

(** C4 as stated fails. The host has a transport for [B] without a remote
    description when [B]'s candidate arrives: [addIceCandidate] is called
    at once and the transport refuses the candidate; when the answer is
    applied afterwards nothing is added. The transport ends with its
    remote description set and no candidate. *)
Lemma early_candidate_is_lost :
  let r := lenient_run (connected (JStr (js "host"))) candidate_before_answer in
  r.2 = [new_RTCPeerConnection 0 DEFAULT_ICE; createDataChannel 0 0; createOffer 0;
         setLocalDescription 0 offer (sdp_of 0);
         sigSend (described "OFFER" (JStr (js "B")) (sdp_of 0));
         onHostPeerJoined (JStr (js "B"));
         addIceCandidate 0 (JStr (js "candidate:1"));
         setRemoteDescription 0 answer (JStr (js "v=0"))]
  ∧ transports r.1 !! 0%nat
    = Some (Transport DEFAULT_ICE stable (Some (answer, JStr (js "v=0"))) []
                      (Some (JStr (js "B"))) None).
Proof. by vm_compute. Qed.

(** A client that has answered an offer of [A]. *)
Definition answered : client :=
  (lenient_run (connected (JStr (js "client")))
     [signal (Some (offer_from "A" "v=0"))]).1.

(** Two candidates of [A] reach the transport made for [A], in order. *)
Lemma candidates_passed_at_once_witness :
  (lenient_run answered
     [signal (Some (candidate_msg "A" "candidate:1"));
      signal (Some (candidate_msg "A" "candidate:2"))]).2
  = [addIceCandidate 0 (JStr (js "candidate:1"));
     addIceCandidate 0 (JStr (js "candidate:2"))].
Proof.
  apply (proj2 (proj2 (candidates_passed_at_once peer_key any_sdp any_candidate
                         sdp_of answered))
           [candidate_msg "A" "candidate:1"; candidate_msg "A" "candidate:2"] 0%nat).
  repeat constructor.
Defined.


(** After the replacement the first transport is out of the maps, so that
    [resetSignaling] closes the second one only. *)
Lemma replaced_transport_survives_reset :
  let s := (lenient_run answered [signal (Some (offer_from "A" "v=1")); reset 1]).1 in
  signalingState <$> transports s !! 0%nat = Some stable
  ∧ onicecandidate <$> transports s !! 0%nat = Some (Some (JStr (js "A")))
  ∧ signalingState <$> transports s !! 1%nat = Some closed.
Proof. by vm_compute. Qed.

(** *** A session set up through the relay *)

Section Handshake.

Context {K : Type} `{EqDecision K}.
Variable key_of : jsval → K.

(** The browser of the host and the browser of the joiner. *)
Variables host_accepts joiner_accepts : sdp_type → jsval → bool.
Variables host_candidate joiner_candidate : jsval → bool.
Variables host_sdp joiner_sdp : nat → jsval.

Definition host_step : client → event → client * list call :=
  step key_of host_accepts host_candidate host_sdp.

Definition joiner_step : client → event → client * list call :=
  step key_of joiner_accepts joiner_candidate joiner_sdp.

(** X18. An offer and its answer, carried by the relay. The host [h] and
    the joiner [j] are open members of one room of the relay, with the
    identifiers [hid] and [jid] the relay gave them, and the limiter lets
    their messages in. When the host is told that [jid] joined, the offer
    it sends names [jid]; the relay hands it to the joiner with [hid]
    written over that name; the joiner, whose browser accepts it, stores
    its transport under [hid] and sends an answer naming [hid]; the relay
    hands that to the host with [jid] written over the name, which is the
    key under which the host stored its transport, so that the answer
    reaches the transport the offer came from. Both transports end
    settled, each with the other's description. *)
Theorem handshake_through_relay (st : Relay.server) (h j : nat)
    (wsh wsj : Relay.socket) (hid jid room : jsstring) (now1 now2 : Z)
    (u1 u2 : jsstring) (sh sj : client) :
  h ≠ j →
  Relay.open_member st h wsh hid room →
  Relay.open_member st j wsj jid room →
  (Relay.rateAllow now1 wsh).2 = true →
  (Relay.rateAllow now2 wsj).2 = true →
  role sh = JStr (js "host") → _signalingSocket sh = true →
  role sj = JStr (js "client") → _signalingSocket sj = true →
  let nh := length (transports sh) in
  let nj := length (transports sj) in
  joiner_accepts offer (host_sdp nh) = true →
  host_accepts answer (joiner_sdp nj) = true →
  let host1 := host_step sh (signal (Some (PEER_JOINED jid))) in
  let relay1 :=
    Relay.on_message st h now1
      (Some (described "OFFER" (JStr jid) (host_sdp nh))) u1 in
  let joiner1 :=
    joiner_step sj (signal (Some (described "OFFER" (JStr hid) (host_sdp nh)))) in
  let relay2 :=
    Relay.on_message relay1.1.1 j now2
      (Some (described "ANSWER" (JStr hid) (joiner_sdp nj))) u2 in
  let host2 :=
    host_step host1.1
      (signal (Some (described "ANSWER" (JStr jid) (joiner_sdp nj)))) in
  sigSend (described "OFFER" (JStr jid) (host_sdp nh)) ∈ host1.2
  ∧ (j, described "OFFER" (JStr hid) (host_sdp nh)) ∈ relay1.1.2
  ∧ sigSend (described "ANSWER" (JStr hid) (joiner_sdp nj)) ∈ joiner1.2
  ∧ (h, described "ANSWER" (JStr jid) (joiner_sdp nj)) ∈ relay2.1.2
  ∧ host2.2 = [setRemoteDescription nh answer (joiner_sdp nj)]
  ∧ map_get (key_of (JStr jid)) (peerConnections host2.1) = Some nh
  ∧ transports host2.1 !! nh
    = Some (Transport (_resolvedIceServers sh) stable
                      (Some (answer, joiner_sdp nj)) [] (Some (JStr jid)) None)
  ∧ map_get (key_of (JStr hid)) (peerConnections joiner1.1) = Some nj
  ∧ transports joiner1.1 !! nj
    = Some (Transport (_resolvedIceServers sj) stable
                      (Some (offer, host_sdp nh)) [] (Some (JStr hid))
                      (Some (JStr hid))).
Proof.
  intros Hne (Hh & Hhid & Hhroom & Hhin & Hhopen) (Hj & Hjid & Hjroom & Hjin & Hjopen)
    Hallow1 Hallow2 Hhost Hhsock Hclient Hjsock nh nj Hoffer Hanswer
    host1 relay1 joiner1 relay2 host2.
  assert (host1 = (offering key_of sh (JStr jid),
                   [new_RTCPeerConnection nh (_resolvedIceServers sh);
                    createDataChannel nh (length (channels sh)); createOffer nh;
                    setLocalDescription nh offer (host_sdp nh);
                    sigSend (described "OFFER" (JStr jid) (host_sdp nh));
                    onHostPeerJoined (JStr jid)])) as Hhost1.
  { subst host1. unfold host_step. by rewrite step_joined. }
  assert (relay1 = (Relay.counted st h now1,
                    Relay.fan_out st h (Relay.members st room)
                      (described "OFFER" (JStr hid) (host_sdp nh)),
                    Returns)) as Hrelay1.
  { subst relay1. unfold described.
    rewrite (Relay.on_message_relay st h wsh) by done.
    rewrite Hallow1, Hhroom. do 2 f_equal.
    unfold Relay.stamped, Relay.peerId_value. by rewrite Hhid. }
  assert (joiner1 = (offered key_of sj (JStr hid)
                       (Transport (_resolvedIceServers sj) stable
                                  (Some (offer, host_sdp nh)) []
                                  (Some (JStr hid)) (Some (JStr hid))),
                     [new_RTCPeerConnection nj (_resolvedIceServers sj);
                      setRemoteDescription nj offer (host_sdp nh);
                      createAnswer nj;
                      setLocalDescription nj answer (joiner_sdp nj);
                      sigSend (described "ANSWER" (JStr hid) (joiner_sdp nj))]))
    as Hjoiner1.
  { subst joiner1. unfold joiner_step, step, handler.
    rewrite on_signal_offer by done. rewrite clientHandleOffer_eq.
    replace (field "sdp" (described "OFFER" (JStr hid) (host_sdp nh)))
      with (host_sdp nh) by (by vm_compute).
    replace (field "peerId" (described "OFFER" (JStr hid) (host_sdp nh)))
      with (JStr hid) by (by vm_compute).
    unfold offered. rewrite Hoffer, !Hjsock. reflexivity. }
  assert (relay2.1.2 = Relay.fan_out st j (Relay.members st room)
                         (described "ANSWER" (JStr jid) (joiner_sdp nj))) as Hrelay2.
  { subst relay2. rewrite Hrelay1. cbn [fst snd]. unfold described.
    rewrite (Relay.on_message_relay _ j wsj);
      [|by rewrite Relay.counted_other|done].
    rewrite Hallow2, Hjroom. cbn [fst snd].
    unfold Relay.members. rewrite Relay.rooms_counted, Relay.fan_out_counted.
    f_equal. unfold Relay.stamped, Relay.peerId_value. by rewrite Hjid. }
  assert (host2 = (settled key_of sh (JStr jid) (joiner_sdp nj),
                   [setRemoteDescription nh answer (joiner_sdp nj)])) as Hhost2.
  { subst host2. rewrite Hhost1. cbn [fst]. unfold host_step.
    by rewrite step_answer_offering. }
  rewrite Hrelay2, Hhost1, Hrelay1, Hjoiner1, Hhost2. cbn [fst snd].
  assert ((j, described "OFFER" (JStr hid) (host_sdp nh))
          ∈ Relay.fan_out st h (Relay.members st room)
              (described "OFFER" (JStr hid) (host_sdp nh))) as Hsent.
  { apply Relay.fan_out_elem. split_and!; [done|done|done|].
    unfold Relay.writable. by rewrite Hj, <- Hjopen. }
  split_and!.
  - do 4 right. by left.
  - done.
  - do 4 right. by left.
  - apply Relay.fan_out_elem. split_and!; [done|done|done|].
    unfold Relay.writable. by rewrite Hh, <- Hhopen.
  - done.
  - apply map_get_set_eq.
  - cbn [settled transports]. by apply list_lookup_middle.
  - apply map_get_set_eq.
  - cbn [offered transports]. by apply list_lookup_middle.
Qed.

(** X19. A candidate, carried by the relay. When a transport of the joiner
    whose handler was set for [hid] emits a candidate, the joiner sends it
    to the relay naming [hid]; the relay hands it to the host with the
    joiner's identifier [jid] written over that name; the host finds the
    transport it stored under [jid] and passes the candidate to it with one
    call. If that transport has a remote description, is not closed and
    the browser accepts the candidate, the candidate is added after those
    the transport had. *)
Theorem candidate_through_relay (st : Relay.server) (h j : nat)
    (wsh wsj : Relay.socket) (hid jid room : jsstring) (now : Z) (u : jsstring)
    (sh sj : client) (pc n : nat) (t th : transport) (c : jsval) :
  h ≠ j →
  Relay.open_member st h wsh hid room →
  Relay.open_member st j wsj jid room →
  (Relay.rateAllow now wsj).2 = true →
  transports sj !! pc = Some t → onicecandidate t = Some (JStr hid) →
  _signalingSocket sj = true →
  truthy c = true →
  map_get (key_of (JStr jid)) (peerConnections sh) = Some n →
  transports sh !! n = Some th →
  is_Some (remoteDescription th) → signalingState th ≠ closed →
  host_candidate c = true →
  let emitted := JObj [(js "type", JStr (js "ICE_CANDIDATE"));
                       (js "peerId", JStr hid); (js "candidate", c)] in
  let relayed := JObj [(js "type", JStr (js "ICE_CANDIDATE"));
                       (js "peerId", JStr jid); (js "candidate", c)] in
  joiner_step sj (icecandidate pc c) = (sj, [sigSend emitted])
  ∧ (h, relayed) ∈ (Relay.on_message st j now (Some emitted) u).1.2
  ∧ (host_step sh (signal (Some relayed))).2 = [addIceCandidate n c]
  ∧ candidates <$> transports (host_step sh (signal (Some relayed))).1 !! n
    = Some (candidates th ++ [c]).
Proof.
  intros Hne (Hh & Hhid & Hhroom & Hhin & Hhopen) (Hj & Hjid & Hjroom & Hjin & Hjopen)
    Hallow Ht Hpeer Hsock Hc Hn Hth [d Hd] Hopen Hacc emitted relayed.
  split_and!.
  - unfold joiner_step. by eapply step_icecandidate.
  - subst emitted. rewrite (Relay.on_message_relay st j wsj) by done.
    rewrite Hallow, Hjroom. cbn [fst snd]. apply Relay.fan_out_elem.
    split_and!; [|done|done|].
    + unfold Relay.stamped, Relay.peerId_value. by rewrite Hjid.
    + unfold Relay.writable. by rewrite Hh, <- Hhopen.
  - unfold host_step. by rewrite (step_candidate _ _ _ _ _ _ n).
  - unfold host_step. rewrite (step_candidate _ _ _ _ _ _ n) by done.
    cbn [fst]. unfold candidate_added. rewrite Hth. cbn [mbind option_bind].
    replace (field "candidate" relayed) with c by done.
    unfold add_candidate. rewrite Hd, Hacc.
    destruct (signalingState th) eqn:Hst; try done;
      cbn [with_transports transports];
      (rewrite list_lookup_insert_eq by (by eapply lookup_lt_Some)); done.
Qed.

End Handshake.

(** *** More worked runs *)

(** A host that is told [B] joined and then receives [B]'s answer. *)
Lemma host_offer_then_answer_witness :
  let s1 := (lenient_step (connected (JStr (js "host")))
               (signal (Some (from_peer "PEER_JOINED" "B" [])))).1 in
  let s2 := (lenient_step s1
               (signal (Some (from_peer "ANSWER" "B" [(js "sdp", JStr (js "v=0"))])))).1 in
  transports s2 !! 0%nat
  = Some (Transport DEFAULT_ICE stable (Some (answer, JStr (js "v=0"))) []
                    (Some (JStr (js "B"))) None).
Proof.
  intros s1 s2.
  pose proof (host_offer_then_answer peer_key any_sdp any_candidate sdp_of
                (connected (JStr (js "host")))
                (from_peer "PEER_JOINED" "B" [])
                (from_peer "ANSWER" "B" [(js "sdp", JStr (js "v=0"))])
                eq_refl eq_refl eq_refl eq_refl eq_refl eq_refl) as Hthm.
  exact (proj1 (proj2 (proj2 (proj2 (proj2 (proj2 (proj2 Hthm))))))).
Defined.

(** A client in a session with [A]: it answered [A]'s offer and was handed
    the channel [A] made. *)
Definition in_session : client := (lenient_run answered [datachannel 0]).1.

Lemma channel_close_drops_session_witness :
  (lenient_step in_session (channel_close 0)).2 = [onDisconnect (JStr (js "A")) false]
  ∧ map_get (js "A") (peerConnections (lenient_step in_session (channel_close 0)).1)
    = None.
Proof.
  pose proof (channel_close_drops_session peer_key any_sdp any_candidate sdp_of
                in_session 0 connecting (JStr (js "A")) false eq_refl) as Hthm.
  split.
  - exact (proj1 Hthm).
  - exact (proj1 (proj2 (proj2 Hthm))).
Defined.

(** After a reset the channel of the session reports its closing unheard. *)
Lemma reset_clears_session_witness :
  let s' := (resetSignaling 1 in_session).1.1 in
  lenient_step s' (channel_close 0) = (s', []).
Proof.
  intros s'.
  apply (proj1 (proj2 (proj2 (proj2 (proj2
           (reset_clears_session peer_key any_sdp any_candidate sdp_of 1 in_session)))))
           (js "A") 0%nat).
  by left.
Defined.

(** After [closeAll] it is heard. *)
Lemma closeAll_keeps_close_handlers_witness :
  let s' := (closeAll 1 in_session).1.1 in
  lenient_step s' (channel_close 0) = (s', [onDisconnect (JStr (js "A")) false]).
Proof.
  intros s'.
  apply (proj2 (proj2 (proj2
           (closeAll_keeps_close_handlers peer_key any_sdp any_candidate sdp_of
              1 in_session)))
           0%nat connecting (JStr (js "A")) false).
  reflexivity.
Defined.




(** A client that is sent what a host is sent makes no offer. *)
Lemma role_gates_negotiation_witness :
  Forall (λ c, offers c = false)
         (lenient_run (connected (JStr (js "client"))) candidate_before_answer).2.
Proof.
  apply (proj1 (proj2 (role_gates_negotiation peer_key any_sdp any_candidate sdp_of
                         (connected (JStr (js "client"))) candidate_before_answer))).
  reflexivity.
Defined.

(** The two members of [abc], the first as host and the second as joiner. *)
Lemma handshake_through_relay_witness :
  let st := (Relay.run Relay.initial Relay.pair).1 in
  let host1 := lenient_step (connected (JStr (js "host")))
                 (signal (Some (PEER_JOINED (js "id-1")))) in
  let host2 := lenient_step host1.1
                 (signal (Some (described "ANSWER" (JStr (js "id-1")) (sdp_of 0)))) in
  (1%nat, described "OFFER" (JStr (js "id-0")) (sdp_of 0))
  ∈ (Relay.on_message st 0 3
       (Some (described "OFFER" (JStr (js "id-1")) (sdp_of 0))) (js "")).1.2
  ∧ transports host2.1 !! 0%nat
    = Some (Transport DEFAULT_ICE stable (Some (answer, sdp_of 0)) []
                      (Some (JStr (js "id-1"))) None).
Proof.
  intros st host1 host2.
  assert (Relay.open_member st 0 (Relay.Socket (Some (js "id-0")) 0 1 1 (Some (js "abc")))
                            (js "id-0") (js "abc")) as Hh.
  { split_and!; try reflexivity. apply (bool_decide_unpack _). by vm_compute. }
  assert (Relay.open_member st 1 (Relay.Socket (Some (js "id-1")) 0 1 1 (Some (js "abc")))
                            (js "id-1") (js "abc")) as Hj.
  { split_and!; try reflexivity. apply (bool_decide_unpack _). by vm_compute. }
  pose proof (handshake_through_relay peer_key any_sdp any_sdp any_candidate
                any_candidate sdp_of sdp_of st 0 1 _ _ (js "id-0") (js "id-1")
                (js "abc") 3 4 (js "") (js "")
                (connected (JStr (js "host"))) (connected (JStr (js "client")))
                ltac:(discriminate) Hh Hj eq_refl eq_refl eq_refl eq_refl eq_refl
                eq_refl eq_refl eq_refl) as Hthm.
  split.
  - exact (proj1 (proj2 Hthm)).
  - exact (proj1 (proj2 (proj2 (proj2 (proj2 (proj2 (proj2 Hthm))))))).
Defined.

(** A candidate of the joiner, after the answer, reaches the host's
    transport. *)
Lemma candidate_through_relay_witness :
  let hs := (lenient_run (connected (JStr (js "host")))
               [signal (Some (PEER_JOINED (js "id-1")));
                signal (Some (described "ANSWER" (JStr (js "id-1")) (sdp_of 0)))]).1 in
  let relayed := JObj [(js "type", JStr (js "ICE_CANDIDATE"));
                       (js "peerId", JStr (js "id-1"));
                       (js "candidate", JStr (js "candidate:1"))] in
  candidates <$> transports (lenient_step hs (signal (Some relayed))).1 !! 0%nat
  = Some [JStr (js "candidate:1")].
Proof.
  intros hs relayed.
  assert (Relay.open_member (Relay.run Relay.initial Relay.pair).1 0
            (Relay.Socket (Some (js "id-0")) 0 1 1 (Some (js "abc")))
            (js "id-0") (js "abc")) as Hh.
  { split_and!; try reflexivity. apply (bool_decide_unpack _). by vm_compute. }
  assert (Relay.open_member (Relay.run Relay.initial Relay.pair).1 1
            (Relay.Socket (Some (js "id-1")) 0 1 1 (Some (js "abc")))
            (js "id-1") (js "abc")) as Hj.
  { split_and!; try reflexivity. apply (bool_decide_unpack _). by vm_compute. }
  pose proof (candidate_through_relay peer_key any_sdp any_sdp any_candidate
                any_candidate sdp_of sdp_of _ 0 1 _ _ (js "id-0") (js "id-1")
                (js "abc") 3 (js "") hs
                (lenient_step (connected (JStr (js "client")))
                   (signal (Some (described "OFFER" (JStr (js "id-0")) (sdp_of 0))))).1
                0 0
                (Transport DEFAULT_ICE stable (Some (offer, sdp_of 0)) []
                           (Some (JStr (js "id-0"))) (Some (JStr (js "id-0"))))
                (Transport DEFAULT_ICE stable (Some (answer, sdp_of 0)) []
                           (Some (JStr (js "id-1"))) None)
                (JStr (js "candidate:1"))
                ltac:(discriminate) Hh Hj eq_refl eq_refl eq_refl eq_refl eq_refl
                eq_refl eq_refl (mk_is_Some _ _ eq_refl) ltac:(discriminate) eq_refl)
    as Hthm.
  exact (proj2 (proj2 (proj2 Hthm))).
Defined.

End Client.
